(** * Synapse Go connector PoC: connector manager, wire protocol, file worker

    A shallow embedding of the Go sources

      - [protocol/protocol.go]            (message schema),
      - [synapse-server/connector_manager.go] (definition store, process
        supervisor, invocation broker, facade),
      - [connectors/simple-file-connector/main.go] (sample worker),

    followed by the properties established about them.

    Go maps are reference objects: a struct copy shares the map it points
    to.  Every [map[string]interface{}] therefore lives in an explicit
    store ([heap]) and struct fields hold a nil-able reference to it. *)

From Stdlib Require Import ZArith Lia Strings.Ascii Strings.Byte DecimalString Floats.SpecFloat.
From stdpp Require Import gmap strings list fin_maps.

Set Warnings "-register-all".
Set Default Proof Using "Type".

Open Scope string_scope.
Open Scope list_scope.

(* ===================================================================== *)
(** * Go run-time values and the map store *)
(* ===================================================================== *)

Module Go.

(** IEEE-754 binary64 values, as data. *)
Definition float64 := spec_float.

(** The dynamic values found under [interface{}].  [AInt] stands for
    Go's integer kinds; a slice or a map may be nil. *)
Inductive any :=
  | ANil
  | ABool (b : bool)
  | AInt (z : Z)
  | AFloat64 (f : float64)
  | AString (s : string)
  | ASlice (l : option (list any))
  | AMap (m : option (gmap string any)).

(** [error] values are carried by their [Error()] text. *)
Definition error := string.

(** Content of one [map[string]interface{}] object. *)
Abbreviation mapobj := (gmap string any).

Definition loc := positive.

(** The store of map objects of one process. *)
Abbreviation heap := (gmap loc (gmap string any)).

(** A map-typed variable or field: [None] is the nil map. *)
Definition mapref := option loc.

(** Content seen through a reference; reading a nil map behaves as
    reading an empty one. *)
Definition deref (h : heap) (r : mapref) : mapobj :=
  match r with
  | Some l => default ∅ (h !! l)
  | None => ∅
  end.

(** [m[k]] where [m] may be nil. *)
Definition index (h : heap) (r : mapref) (k : string) : option any :=
  deref h r !! k.

(** [make(map[string]interface{})]. *)
Definition make (h : heap) : loc * heap :=
  let l := fresh (dom h) in (l, <[l := ∅]> h).

(** [m[k] = v] for a non-nil [m]. *)
Definition assign (h : heap) (l : loc) (k : string) (v : any) : heap :=
  <[l := <[k := v]> (deref h (Some l))]> h.

(** [for k, v := range src { dst[k] = v }], the entries of [src] taken
    as they stand when the loop starts. *)
Definition assign_all (h : heap) (dst : loc) (src : list (string * any)) : heap :=
  foldl (λ h' kv, assign h' dst kv.1 kv.2) h src.

(** [v.(string)] on the result of a map index: the comma-ok form. *)
Definition as_string (v : option any) : string * bool :=
  match v with
  | Some (AString s) => (s, true)
  | _ => ("", false)
  end.

(** What a reference denotes, for comparing values across stores:
    [None] for nil, the content otherwise. *)
Definition load (h : heap) (r : mapref) : option mapobj :=
  match r with
  | Some l => Some (default ∅ (h !! l))
  | None => None
  end.

End Go.

(* ===================================================================== *)
(** * protocol/protocol.go *)
(* ===================================================================== *)

Module protocol.
Import Go.

(** The structs are parametrised by the representation [M] of their
    [map[string]interface{}] fields: [mapref] in memory, [option mapobj]
    for the value a struct denotes (what is put on the wire).
    [Headers] and [Payload] are never written through by the program
    and are kept by content; [None] is nil. *)
Record MessageContext (M : Type) := mkMessageContext {
  MessageID : string;
  Payload : option (list byte);
  Properties : M;
  Headers : option (gmap string string)
}.
Arguments mkMessageContext {M}.
Arguments MessageID {M}.
Arguments Payload {M}.
Arguments Properties {M}.
Arguments Headers {M}.

Record ConnectorOperationRequest (M : Type) := mkRequest {
  ConnectorName : string;
  OperationName : string;
  ConnectorConfig : M;
  OperationParams : M;
  MessageContextIn : MessageContext M
}.
Arguments mkRequest {M}.
Arguments ConnectorName {M}.
Arguments OperationName {M}.
Arguments ConnectorConfig {M}.
Arguments OperationParams {M}.
Arguments MessageContextIn {M}.

Record ConnectorOperationResponse (M : Type) := mkResponse {
  Success : bool;
  MessageContextOut : MessageContext M;
  ErrorMessage : string
}.
Arguments mkResponse {M}.
Arguments Success {M}.
Arguments MessageContextOut {M}.
Arguments ErrorMessage {M}.

(** The zero value of [MessageContext]. *)
Definition zeroContext {M} (nilmap : M) : MessageContext M :=
  mkMessageContext "" None nilmap None.

Definition set_Payload {M} (c : MessageContext M) (p : option (list byte)) :=
  mkMessageContext (MessageID c) p (Properties c) (Headers c).
Definition set_Properties {M} (c : MessageContext M) (p : M) :=
  mkMessageContext (MessageID c) (Payload c) p (Headers c).

(** The value a stored struct denotes. *)
Definition loadContext (h : heap) (c : MessageContext mapref)
  : MessageContext (option mapobj) :=
  mkMessageContext (MessageID c) (Payload c) (load h (Properties c)) (Headers c).

Definition loadRequest (h : heap) (r : ConnectorOperationRequest mapref)
  : ConnectorOperationRequest (option mapobj) :=
  mkRequest (ConnectorName r) (OperationName r)
            (load h (ConnectorConfig r)) (load h (OperationParams r))
            (loadContext h (MessageContextIn r)).

Definition loadResponse (h : heap) (r : ConnectorOperationResponse mapref)
  : ConnectorOperationResponse (option mapobj) :=
  mkResponse (Success r) (loadContext h (MessageContextOut r)) (ErrorMessage r).

End protocol.

(* ===================================================================== *)
(** * connectors/simple-file-connector/main.go *)
(* ===================================================================== *)

Module FileConnector.
Import Go protocol.

(** The file-system calls of the worker, with the answers the operating
    system gives to this request (each is called at most once per
    operation), and [filepath.Join], left abstract. *)
Record FileSystem := mkFileSystem {
  MkdirAll : string → option error;
  WriteFile : string → list byte → option error;
  ReadFile : string → error + list byte;
  Join : string → string → string
}.

Abbreviation Request := (ConnectorOperationRequest mapref).
Abbreviation Response := (ConnectorOperationResponse mapref).

Definition createFile (fs : FileSystem) (h : heap) (req : Request) : Response * heap :=
  let '(filename, okFile) := as_string (index h (OperationParams req) "filename") in
  let '(content, okContent) := as_string (index h (OperationParams req) "content") in
  if negb okFile || negb okContent then
    (mkResponse false (MessageContextIn req)
                "filename or content parameter missing/invalid", h)
  else
    let baseDir := (as_string (index h (ConnectorConfig req) "baseDirectory")).1 in
    let baseDir := if decide (baseDir = "") then "." else baseDir in
    match MkdirAll fs baseDir with
    | Some err =>
        (mkResponse false (MessageContextIn req)
           ("failed to create base directory " +:+ baseDir +:+ ": " +:+ err), h)
    | None =>
        let fullPath := Join fs baseDir filename in
        match WriteFile fs fullPath (String.list_byte_of_string content) with
        | Some err =>
            (mkResponse false (MessageContextIn req)
               ("failed to write file " +:+ fullPath +:+ ": " +:+ err), h)
        | None =>
            let outCtx := MessageContextIn req in
            let '(props, h) :=
              match Properties outCtx with
              | None => make h
              | Some l => (l, h)
              end in
            let outCtx := set_Properties outCtx (Some props) in
            let h := assign h props "file.write.path" (AString fullPath) in
            let h := assign h props "file.write.status" (AString "success") in
            (mkResponse true outCtx "", h)
        end
    end.

Definition readFile (fs : FileSystem) (h : heap) (req : Request) : Response * heap :=
  let '(filename, okFile) := as_string (index h (OperationParams req) "filename") in
  if negb okFile then
    (mkResponse false (MessageContextIn req) "filename parameter missing/invalid", h)
  else
    let baseDir := (as_string (index h (ConnectorConfig req) "baseDirectory")).1 in
    let baseDir := if decide (baseDir = "") then "." else baseDir in
    let fullPath := Join fs baseDir filename in
    match ReadFile fs fullPath with
    | inl err =>
        (mkResponse false (MessageContextIn req)
           ("failed to read file " +:+ fullPath +:+ ": " +:+ err), h)
    | inr data =>
        let outCtx := MessageContextIn req in
        let outCtx := set_Payload outCtx (Some data) in
        let '(props, h) :=
          match Properties outCtx with
          | None => make h
          | Some l => (l, h)
          end in
        let outCtx := set_Properties outCtx (Some props) in
        let h := assign h props "file.read.path" (AString fullPath) in
        (mkResponse true outCtx "", h)
    end.

(** The [switch req.OperationName] of [handleConnection]. *)
Definition dispatch (fs : FileSystem) (h : heap) (req : Request) : Response * heap :=
  if decide (OperationName req = "create") then createFile fs h req
  else if decide (OperationName req = "read") then readFile fs h req
  else (mkResponse false (MessageContextIn req)
          ("Unknown operation: " +:+ OperationName req), h).

End FileConnector.

(* ===================================================================== *)
(** * synapse-server/connector_manager.go *)
(* ===================================================================== *)

Module Manager.
Import Go protocol.

(** ** Library functions used by the manager *)

(** [%d]: decimal rendering of an integer. *)
Definition itoa (z : Z) : string := NilZero.string_of_int (Z.to_int z).

Fixpoint hasSeparator (s : string) : bool :=
  match s with
  | EmptyString => false
  | String c r => bool_decide (c = "/"%char) || hasSeparator r
  end.

(** [filepath.Ext]: the suffix starting at the last dot of the last
    path element, empty when there is none. *)
Fixpoint Ext (path : string) : string :=
  match path with
  | EmptyString => ""
  | String c r =>
      match Ext r with
      | EmptyString =>
          if hasSeparator r then ""
          else if bool_decide (c = "."%char) then path else ""
      | e => e
      end
  end.

(** ** Types *)

Record ConnectorDefinition (M : Type) := mkDefinition {
  Name : string;
  ExecutablePathRelativeToConnectorsDir : string;
  DefaultPort : Z;
  DefaultConfig : M
}.
Arguments mkDefinition {M}.
Arguments Name {M}.
Arguments ExecutablePathRelativeToConnectorsDir {M}.
Arguments DefaultPort {M}.
Arguments DefaultConfig {M}.

Definition loadDefinition (h : heap) (d : ConnectorDefinition mapref)
  : ConnectorDefinition (option mapobj) :=
  mkDefinition (Name d) (ExecutablePathRelativeToConnectorsDir d)
               (DefaultPort d) (load h (DefaultConfig d)).

(** [os.ProcessState], set on a command once [Wait] has returned. *)
Record os_ProcessState := mkProcessState { Exited : bool }.

(** [exec.Cmd]: [Process] is set by a successful [Start]. *)
Record exec_Cmd := mkCmd {
  Path : string;
  Args : list string;
  Process : option Z;
  ProcessState : option os_ProcessState
}.

(** The instance's [mu] serialises exchanges and carries no data. *)
Record RunningConnectorInstance := mkInstance {
  Definition_ : ConnectorDefinition mapref;
  Cmd : option exec_Cmd;
  Port : Z
}.

Record ConnectorManager := mkManager {
  connectorDefinitions : gmap string (ConnectorDefinition mapref);
  runningInstances : gmap string RunningConnectorInstance;
  connectorsBaseDir : string
}.

(** What the manager does to the outside world, in order. *)
Inductive event :=
  | EvStart (path : string) (args : list string) (pid : Z)
  | EvEncode (req : ConnectorOperationRequest (option mapobj))
  | EvSignalInterrupt (pid : Z)
  | EvKill (pid : Z)
  | EvWait (pid : Z).

(** The host process: the manager, its map store and its trace. *)
Record state := mkState {
  manager : ConnectorManager;
  memory : heap;
  trace : list event
}.

Definition set_runningInstances (cm : ConnectorManager)
    (t : gmap string RunningConnectorInstance) : ConnectorManager :=
  mkManager (connectorDefinitions cm) t (connectorsBaseDir cm).

(** ** NewConnectorManager *)

Inductive logline :=
  | WarnRead (filePath : string) (err : error)
  | WarnParse (filePath : string) (err : error)
  | Loaded (name : string).

(** The directory listing (names in [ReadDir]'s sorted order), file
    reads, [json.Unmarshal] into a [ConnectorDefinition] and
    [filepath.Join]. *)
Record Loader := mkLoader {
  ReadDir : string → error + list string;
  ReadFile : string → error + list byte;
  Unmarshal : list byte → error + ConnectorDefinition (option mapobj);
  LJoin : string → string → string
}.

(** A decoded map is a newly allocated object. *)
Definition store (h : heap) (v : option mapobj) : mapref * heap :=
  match v with
  | None => (None, h)
  | Some m => let l := fresh (dom h) in (Some l, <[l := m]> h)
  end.

Definition loading : Type :=
  gmap string (ConnectorDefinition mapref) * heap * list logline.

(** One iteration of the loop over the directory entries. *)
Definition loadFile (ld : Loader) (definitionsDir : string)
    (acc : loading) (fileName : string) : loading :=
  let '(defs, h, log) := acc in
  if decide (Ext fileName = ".json") then
    let filePath := LJoin ld definitionsDir fileName in
    match ReadFile ld filePath with
    | inl err => (defs, h, (log ++ [WarnRead filePath err]))
    | inr data =>
        match Unmarshal ld data with
        | inl err => (defs, h, (log ++ [WarnParse filePath err]))
        | inr d =>
            let '(cfg, h) := store h (DefaultConfig d) in
            let def := mkDefinition (Name d)
                         (ExecutablePathRelativeToConnectorsDir d)
                         (DefaultPort d) cfg in
            (<[Name def := def]> defs, h, (log ++ [Loaded (Name def)]))
        end
    end
  else acc.

Definition NewConnectorManager (ld : Loader) (h : heap)
    (definitionsDir connectorsBaseDir : string)
  : error + (ConnectorManager * heap * list logline) :=
  match ReadDir ld definitionsDir with
  | inl err =>
      inl ("failed to read connector definitions directory '"
             +:+ definitionsDir +:+ "': " +:+ err)
  | inr files =>
      let '(defs, h, log) := foldl (loadFile ld definitionsDir) (∅, h, []) files in
      inr (mkManager defs ∅ connectorsBaseDir, h, log)
  end.

(** ** getOrStartInstance *)

(** [os.Stat]: no error, an error for which [os.IsNotExist] holds, or
    another error. *)
Inductive StatResult := StatOk | StatNotExist | StatOtherError.

(** The calls made to start a worker, with the answers they get for this
    caller; [Start] yields the process id. *)
Record Launcher := mkLauncher {
  Join : string → string → string;
  Stat : string → StatResult;
  Start : string → list string → error + Z
}.

(** Line 83: [instance.Cmd == nil || (ProcessState != nil && Exited())]. *)
Definition exitedOrNil (i : RunningConnectorInstance) : bool :=
  match Cmd i with
  | None => true
  | Some c =>
      match ProcessState c with
      | Some ps => Exited ps
      | None => false
      end
  end.

(** Line 97: [instance.Cmd != nil && (ProcessState == nil || !Exited())]. *)
Definition stillRunning (i : RunningConnectorInstance) : bool :=
  match Cmd i with
  | None => false
  | Some c =>
      match ProcessState c with
      | None => true
      | Some ps => negb (Exited ps)
      end
  end.

(** Lines 106-114: the executable, with the [.exe] fallback. *)
Definition locateExecutable (os : Launcher) (executablePath : string)
  : error + string :=
  match Stat os executablePath with
  | StatNotExist =>
      match Stat os (executablePath +:+ ".exe") with
      | StatOk => inr (executablePath +:+ ".exe")
      | _ => inl ("connector executable not found at " +:+ executablePath
                    +:+ " or " +:+ executablePath +:+ ".exe")
      end
  | _ => inr executablePath
  end.

(** Lines 92-138: the part run while holding the write lock. *)
Definition startLocked (os : Launcher) (s : state) (connectorName : string)
  : (error + RunningConnectorInstance) * state :=
  let cm := manager s in
  let recheck :=
    match runningInstances cm !! connectorName with
    | Some instance => if stillRunning instance then Some instance else None
    | None => None
    end in
  match recheck with
  | Some instance => (inr instance, s)
  | None =>
      match connectorDefinitions cm !! connectorName with
      | None =>
          (inl ("connector definition for '" +:+ connectorName +:+ "' not found"), s)
      | Some def =>
          match locateExecutable os
                  (Join os (connectorsBaseDir cm)
                        (ExecutablePathRelativeToConnectorsDir def)) with
          | inl err => (inl err, s)
          | inr executablePath =>
              let port := DefaultPort def in
              let args := ["-port=" +:+ itoa port] in
              match Start os executablePath args with
              | inl err =>
                  (inl ("failed to start connector '" +:+ connectorName
                          +:+ "': " +:+ err), s)
              | inr pid =>
                  let cmd := mkCmd executablePath args (Some pid) None in
                  let newInstance := mkInstance def (Some cmd) port in
                  (inr newInstance,
                   mkState
                     (set_runningInstances cm
                        (<[connectorName := newInstance]> (runningInstances cm)))
                     (memory s)
                     (trace s ++ [EvStart executablePath args pid]))
              end
          end
      end
  end.

Definition getOrStartInstance (os : Launcher) (s : state) (connectorName : string)
  : (error + RunningConnectorInstance) * state :=
  let fast :=
    match runningInstances (manager s) !! connectorName with
    | Some instance => if exitedOrNil instance then None else Some instance
    | None => None
    end in
  match fast with
  | Some instance => (inr instance, s)
  | None => startLocked os s connectorName
  end.

(** ** Invoke *)

(** The connection: the dial, [encoder.Encode] of the request value and
    [decoder.Decode] of the reply, each with the outcome it has for this
    call. *)
Record Network := mkNetwork {
  DialTimeout : string → option error;
  Encode : ConnectorOperationRequest (option mapobj) → option error;
  Decode : error + ConnectorOperationResponse (option mapobj)
}.

(** Lines 169-177. *)
Definition mergeConfig (h : heap) (defaultConfig connectorConfigOverride : mapref)
  : mapref * heap :=
  let currentConnectorConfig := defaultConfig in
  match connectorConfigOverride with
  | Some ov =>
      let '(cur, h) :=
        match currentConnectorConfig with
        | None => make h
        | Some l => (l, h)
        end in
      (Some cur, assign_all h cur (map_to_list (deref h (Some ov))))
  | None => (currentConnectorConfig, h)
  end.

(** A decoded response is built from newly allocated maps. *)
Definition storeResponse (h : heap) (r : ConnectorOperationResponse (option mapobj))
  : ConnectorOperationResponse mapref * heap :=
  let c := MessageContextOut r in
  let '(props, h) := store h (Properties c) in
  (mkResponse (Success r)
              (mkMessageContext (MessageID c) (Payload c) props (Headers c))
              (ErrorMessage r), h).

Definition failure (msg : string) : ConnectorOperationResponse mapref :=
  mkResponse false (zeroContext None) msg.

Definition Invoke (os : Launcher) (net : Network) (s : state)
    (connectorName operationName : string)
    (connectorConfigOverride operationParams : mapref)
    (msgCtxIn : MessageContext mapref)
  : (ConnectorOperationResponse mapref * option error) * state :=
  match getOrStartInstance os s connectorName with
  | (inl err, s) => ((failure err, Some err), s)
  | (inr instance, s) =>
      match DialTimeout net ("127.0.0.1:" +:+ itoa (Port instance)) with
      | Some err =>
          ((failure ("failed to connect to connector '" +:+ connectorName
                       +:+ "': " +:+ err), Some err), s)
      | None =>
          let '(currentConnectorConfig, h) :=
            mergeConfig (memory s) (DefaultConfig (Definition_ instance))
                        connectorConfigOverride in
          let req := mkRequest connectorName operationName
                               currentConnectorConfig operationParams msgCtxIn in
          let s := mkState (manager s) h
                     (trace s ++ [EvEncode (loadRequest h req)]) in
          match Encode net (loadRequest h req) with
          | Some err =>
              ((failure ("failed to send request to connector '" +:+ connectorName
                           +:+ "': " +:+ err), Some err), s)
          | None =>
              match Decode net with
              | inl err =>
                  ((failure ("failed to decode response from connector '"
                               +:+ connectorName +:+ "': " +:+ err), Some err), s)
              | inr r =>
                  let '(resp, h) := storeResponse (memory s) r in
                  ((resp, None), mkState (manager s) h (trace s))
              end
          end
      end
  end.

(** ** ShutdownAll *)

(** [Process.Signal(os.Interrupt)]'s outcome per process.  [Kill]'s
    result is discarded by the code, and [Wait] is taken to return. *)
Record Signals := mkSignals {
  Signal : Z → option error
}.

(** The body of the loop over the tracked instances. *)
Definition terminate (sg : Signals) (tr : list event)
    (entry : string * RunningConnectorInstance) : list event :=
  match Cmd entry.2 with
  | Some c =>
      match Process c with
      | Some pid =>
          (tr ++ [EvSignalInterrupt pid]
              ++ match Signal sg pid with
                 | Some _ => [EvKill pid]
                 | None => []
                 end
              ++ [EvWait pid])
      | None => tr
      end
  | None => tr
  end.

Definition ShutdownAll (sg : Signals) (s : state) : state :=
  let cm := manager s in
  mkState (set_runningInstances cm ∅) (memory s)
          (foldl (terminate sg) (trace s) (map_to_list (runningInstances cm))).

End Manager.

(* ===================================================================== *)
(** * getOrStartInstance under concurrent callers *)
(* ===================================================================== *)

(** Several goroutines run [getOrStartInstance] for one connector name.
    Each advances through the program points of the function; the
    scheduler picks who moves next.  [instanceMutex] is modelled by its
    writer: [RLock] and [Lock] proceed only while no writer holds it, and
    the deferred [Unlock] runs as the function returns. *)

Module Concurrent.
Import Go protocol Manager.

Inductive pc :=
  | AtEntry                                   (* line 77, before RLock *)
  | Looked (r : option RunningConnectorInstance) (* line 81, after RUnlock *)
  | WantLock                                  (* line 92, before Lock *)
  | Rechecking                                (* line 96, lock held *)
  | Resolving                                 (* line 101, lock held *)
  | Launching (def : ConnectorDefinition mapref) (executablePath : string)
                                              (* line 118, lock held *)
  | Returning (r : error + RunningConnectorInstance) (* deferred Unlock *)
  | Done (r : error + RunningConnectorInstance).

Record config := mkConfig {
  shared : state;
  writer : option nat;
  threads : list pc
}.

Definition set_pc (c : config) (i : nat) (p : pc) : config :=
  mkConfig (shared c) (writer c) (<[i := p]> (threads c)).

Definition holdsLock (p : pc) : bool :=
  match p with
  | Rechecking | Resolving | Launching _ _ | Returning _ => true
  | _ => false
  end.

(** One move of goroutine [i], whose operating-system calls are answered
    by [os]; [None] when it is blocked, finished or does not exist. *)
Definition step (connectorName : string) (os : Launcher) (i : nat) (c : config)
  : option config :=
  let cm := manager (shared c) in
  match threads c !! i with
  | None => None
  | Some AtEntry =>
      match writer c with
      | Some _ => None
      | None => Some (set_pc c i (Looked (runningInstances cm !! connectorName)))
      end
  | Some (Looked r) =>
      match r with
      | Some instance =>
          if exitedOrNil instance then Some (set_pc c i WantLock)
          else Some (set_pc c i (Done (inr instance)))
      | None => Some (set_pc c i WantLock)
      end
  | Some WantLock =>
      match writer c with
      | Some _ => None
      | None => Some (mkConfig (shared c) (Some i) (<[i := Rechecking]> (threads c)))
      end
  | Some Rechecking =>
      match runningInstances cm !! connectorName with
      | Some instance =>
          if stillRunning instance then Some (set_pc c i (Returning (inr instance)))
          else Some (set_pc c i Resolving)
      | None => Some (set_pc c i Resolving)
      end
  | Some Resolving =>
      match connectorDefinitions cm !! connectorName with
      | None =>
          Some (set_pc c i (Returning
            (inl ("connector definition for '" +:+ connectorName +:+ "' not found"))))
      | Some def =>
          match locateExecutable os
                  (Join os (connectorsBaseDir cm)
                        (ExecutablePathRelativeToConnectorsDir def)) with
          | inl err => Some (set_pc c i (Returning (inl err)))
          | inr executablePath => Some (set_pc c i (Launching def executablePath))
          end
      end
  | Some (Launching def executablePath) =>
      let port := DefaultPort def in
      let args := ["-port=" +:+ itoa port] in
      match Start os executablePath args with
      | inl err =>
          Some (set_pc c i (Returning
            (inl ("failed to start connector '" +:+ connectorName +:+ "': " +:+ err))))
      | inr pid =>
          let cmd := mkCmd executablePath args (Some pid) None in
          let newInstance := mkInstance def (Some cmd) port in
          Some (mkConfig
                  (mkState
                     (set_runningInstances cm
                        (<[connectorName := newInstance]> (runningInstances cm)))
                     (memory (shared c))
                     (trace (shared c) ++ [EvStart executablePath args pid]))
                  (writer c)
                  (<[i := Returning (inr newInstance)]> (threads c)))
      end
  | Some (Returning r) =>
      Some (mkConfig (shared c) None (<[i := Done r]> (threads c)))
  | Some (Done _) => None
  end.

(** A schedule names the goroutine to move at each turn; a turn given
    to a goroutine that cannot move is lost. *)
Definition turn (connectorName : string) (oss : list Launcher)
    (c : config) (i : nat) : config :=
  match oss !! i with
  | Some os => default c (step connectorName os i c)
  | None => c
  end.

Definition run (connectorName : string) (oss : list Launcher)
    (c : config) (schedule : list nat) : config :=
  foldl (turn connectorName oss) c schedule.

(** All callers at the entry of the function, nobody holding the lock. *)
Definition initial (s : state) (callers : nat) : config :=
  mkConfig s None (replicate callers AtEntry).

Definition isDone (p : pc) : bool :=
  match p with Done _ => true | _ => false end.

Definition allDone (c : config) : bool := forallb isDone (threads c).

Definition isStart (e : event) : bool :=
  match e with EvStart _ _ _ => true | _ => false end.

(** Number of worker processes started so far. *)
Definition spawnCount (s : state) : nat := length (filter isStart (trace s)).

(** Program points still ahead of a goroutine. *)
Definition remaining (p : pc) : nat :=
  match p with
  | AtEntry => 7
  | Looked _ => 6
  | WantLock => 5
  | Rechecking => 4
  | Resolving => 3
  | Launching _ _ => 2
  | Returning _ => 1
  | Done _ => 0
  end.

Definition work (c : config) : nat := list_sum (remaining <$> threads c).

(** The launch of [connectorName] succeeds for the caller answered by [os]. *)
Definition launchable (cm : ConnectorManager) (connectorName : string)
    (os : Launcher) : Prop :=
  ∃ def executablePath pid,
    connectorDefinitions cm !! connectorName = Some def ∧
    locateExecutable os (Join os (connectorsBaseDir cm)
                              (ExecutablePathRelativeToConnectorsDir def))
      = inr executablePath ∧
    Start os executablePath ["-port=" +:+ itoa (DefaultPort def)] = inr pid.

(** No healthy instance is recorded under [connectorName]. *)
Definition noHealthyInstance (cm : ConnectorManager) (connectorName : string) : Prop :=
  match runningInstances cm !! connectorName with
  | Some instance => stillRunning instance = false
  | None => True
  end.

End Concurrent.

(* ===================================================================== *)
(** * The wire encoding: encoding/json on the protocol structs *)
(* ===================================================================== *)

(** [json.Encoder.Encode] and [json.Decoder.Decode] as used on both ends
    of the connection, at the level of JSON documents (the text syntax of
    a document is not modelled).  The encoder follows the struct tags of
    protocol.go; the decoder matches member names exactly and fills a
    zero-valued struct. *)

Module Wire.
Import Go protocol.

(** ** Base64 (standard alphabet, padded), used for [[]byte] *)

Definition alphabet : list ascii :=
  String.list_ascii_of_string
    "ABCDEFGHIJKLMNOPQRSTUVWXYZabcdefghijklmnopqrstuvwxyz0123456789+/".

Definition pad : ascii := "="%char.

Definition b64char (n : N) : ascii := nth (N.to_nat n) alphabet "A"%char.

Fixpoint indexOf (c : ascii) (l : list ascii) (i : N) : option N :=
  match l with
  | [] => None
  | x :: l => if bool_decide (x = c) then Some i else indexOf c l (N.succ i)
  end.

Definition b64val (c : ascii) : option N := indexOf c alphabet 0%N.

(** The 24-bit group of up to three bytes. *)
Definition group (a b c : byte) : N :=
  (Byte.to_N a * 65536 + Byte.to_N b * 256 + Byte.to_N c)%N.

Definition sextet (g : N) (i : N) : N := ((g / 64 ^ (3 - i)) mod 64)%N.

Fixpoint b64encode (bs : list byte) : string :=
  match bs with
  | [] => ""
  | [a] =>
      let g := group a "000"%byte "000"%byte in
      String (b64char (sextet g 0)) (String (b64char (sextet g 1))
        (String pad (String pad "")))
  | [a; b] =>
      let g := group a b "000"%byte in
      String (b64char (sextet g 0)) (String (b64char (sextet g 1))
        (String (b64char (sextet g 2)) (String pad "")))
  | a :: b :: c :: rest =>
      let g := group a b c in
      String (b64char (sextet g 0)) (String (b64char (sextet g 1))
        (String (b64char (sextet g 2)) (String (b64char (sextet g 3))
          (b64encode rest))))
  end.

Definition ungroup (s0 s1 s2 s3 : N) : N :=
  (s0 * 262144 + s1 * 4096 + s2 * 64 + s3)%N.

Definition octet (g : N) (i : N) : option byte :=
  Byte.of_N ((g / 256 ^ (2 - i)) mod 256)%N.

(** Quanta of four characters; padding only in the last one. *)
Fixpoint b64decode (s : string) : option (list byte) :=
  match s with
  | EmptyString => Some []
  | String c0 (String c1 (String c2 (String c3 rest))) =>
      if bool_decide (c2 = pad ∧ c3 = pad ∧ rest = "") then
        s0 ← b64val c0; s1 ← b64val c1;
        a ← octet (ungroup s0 s1 0 0) 0;
        Some [a]
      else if bool_decide (c3 = pad ∧ rest = "") then
        s0 ← b64val c0; s1 ← b64val c1; s2 ← b64val c2;
        let g := ungroup s0 s1 s2 0 in
        a ← octet g 0; b ← octet g 1;
        Some [a; b]
      else
        s0 ← b64val c0; s1 ← b64val c1; s2 ← b64val c2; s3 ← b64val c3;
        let g := ungroup s0 s1 s2 s3 in
        a ← octet g 0; b ← octet g 1; c ← octet g 2;
        tl ← b64decode rest;
        Some (a :: b :: c :: tl)
  | _ => None
  end.

(** ** Strings: the encoder writes valid UTF-8 *)

Definition code (c : ascii) : N := N_of_ascii c.

Definition between (lo hi : N) (c : ascii) : bool :=
  ((lo <=? code c) && (code c <=? hi))%N.

(** U+FFFD, as UTF-8. *)
Definition replacement : list ascii :=
  [ascii_of_N 239; ascii_of_N 191; ascii_of_N 189].

Fixpoint replacements (n : nat) (k : string) : string :=
  match n with
  | O => k
  | S n => foldr String (replacements n k) replacement
  end.

(** The encoder's pass over a Go string: well-formed sequences are
    copied, and each byte that starts no well-formed sequence becomes
    U+FFFD.  [pending] holds the bytes of a sequence begun but not yet
    completed, [need] the number of bytes it still lacks and [lo..hi]
    the range allowed for the next one. *)
Fixpoint coerceFrom (pending : list ascii) (need : nat) (lo hi : N)
    (s : string) : string :=
  match s with
  | EmptyString => replacements (length pending) ""
  | String c r =>
      let fresh_start :=
        if between 0 127 c then String c (coerceFrom [] 0 0 0 r)
        else if between 194 223 c then coerceFrom [c] 1 128 191 r
        else if between 224 224 c then coerceFrom [c] 2 160 191 r
        else if between 225 236 c then coerceFrom [c] 2 128 191 r
        else if between 237 237 c then coerceFrom [c] 2 128 159 r
        else if between 238 239 c then coerceFrom [c] 2 128 191 r
        else if between 240 240 c then coerceFrom [c] 3 144 191 r
        else if between 241 243 c then coerceFrom [c] 3 128 191 r
        else if between 244 244 c then coerceFrom [c] 3 128 143 r
        else replacements 1 (coerceFrom [] 0 0 0 r) in
      match need with
      | O => fresh_start
      | S n =>
          if between lo hi c then
            match n with
            | O => foldr String (String c (coerceFrom [] 0 0 0 r)) pending
            | S _ => coerceFrom (pending ++ [c]) n 128 191 r
            end
          else replacements (length pending) fresh_start
      end
  end.

Definition toValidUTF8 (s : string) : string := coerceFrom [] 0 0 0 s.

(** A string the encoder writes unchanged. *)
Definition validUTF8 (s : string) : Prop := toValidUTF8 s = s.

(** ** JSON documents *)

(** A number literal, by the Go value that was written: the decimal
    digits of an integer, or the shortest decimal that reads back as
    the given float64. *)
Inductive number :=
  | NumInt (z : Z)
  | NumFloat (f : float64).

Inductive json :=
  | JNull
  | JBool (b : bool)
  | JNumber (n : number)
  | JString (s : string)
  | JArray (l : list json)
  | JObject (members : list (string * json)).

Definition finite (f : float64) : bool :=
  match f with
  | S754_zero _ | S754_finite _ _ _ => true
  | _ => false
  end.

(** [strconv.ParseFloat] on a literal: integers round to the nearest
    binary64 (Go's integers are within 64 bits, so the result is
    finite). *)
Definition parseFloat (n : number) : float64 :=
  match n with
  | NumInt z => binary_normalize 53 1024 z 0 false
  | NumFloat f => f
  end.

(** ** Encoding *)

(** Values the encoder accepts: NaN and the infinities are rejected
    with an [UnsupportedValueError]. *)
Fixpoint supported (a : any) : bool :=
  match a with
  | AFloat64 f => finite f
  | ASlice (Some l) => forallb supported l
  | AMap (Some m) => map_fold (λ _ v acc, supported v && acc) true m
  | _ => true
  end.

(** Members are listed in the order of [map_to_list]; the encoder sorts
    them by key, which no decoder depends on. *)
Fixpoint marshalAny (a : any) : json :=
  match a with
  | ANil => JNull
  | ABool b => JBool b
  | AInt z => JNumber (NumInt z)
  | AFloat64 f => JNumber (NumFloat f)
  | AString s => JString (toValidUTF8 s)
  | ASlice None => JNull
  | ASlice (Some l) => JArray (map marshalAny l)
  | AMap None => JNull
  | AMap (Some m) =>
      JObject (map (λ kv, (toValidUTF8 kv.1, kv.2))
                   (map_to_list (marshalAny <$> m)))
  end.

Definition marshalMap (m : option mapobj) : json := marshalAny (AMap m).

Definition marshalHeaders (m : option (gmap string string)) : json :=
  match m with
  | None => JNull
  | Some m =>
      JObject (map (λ kv, (toValidUTF8 kv.1, JString (toValidUTF8 kv.2)))
                   (map_to_list m))
  end.

Definition marshalBytes (b : option (list byte)) : json :=
  match b with
  | None => JNull
  | Some bs => JString (b64encode bs)
  end.

Abbreviation Context := (MessageContext (option mapobj)).
Abbreviation Request := (ConnectorOperationRequest (option mapobj)).

Definition marshalContext (c : Context) : json :=
  JObject [("message_id", JString (toValidUTF8 (MessageID c)));
           ("payload", marshalBytes (Payload c));
           ("properties", marshalMap (Properties c));
           ("headers", marshalHeaders (Headers c))].

Definition marshalRequest (r : Request) : json :=
  JObject [("connector_name", JString (toValidUTF8 (ConnectorName r)));
           ("operation_name", JString (toValidUTF8 (OperationName r)));
           ("connector_config", marshalMap (ConnectorConfig r));
           ("operation_params", marshalMap (OperationParams r));
           ("message_context_in", marshalContext (MessageContextIn r))].

Definition supportedRequest (r : Request) : bool :=
  supported (AMap (ConnectorConfig r)) && supported (AMap (OperationParams r))
  && supported (AMap (Properties (MessageContextIn r))).

(** [encoder.Encode(req)]: the document, or an error. *)
Definition EncodeRequest (r : Request) : option json :=
  if supportedRequest r then Some (marshalRequest r) else None.

(** ** Decoding *)

(** The decoder is modelled on the documents the encoder writes.  There
    it agrees with the library; elsewhere the library accepts more: a
    member name that matches a field up to letter case, line breaks
    inside a base64 string, and an array of numbers for a byte slice.
    The theorems apply the decoder to encoder output only. *)

(** Into [interface{}]: numbers become float64, objects
    [map[string]interface{}], arrays [[]interface{}]; of two members
    with one name the later one stays. *)
Fixpoint unmarshalAny (j : json) : any :=
  match j with
  | JNull => ANil
  | JBool b => ABool b
  | JNumber n => AFloat64 (parseFloat n)
  | JString s => AString s
  | JArray l => ASlice (Some (map unmarshalAny l))
  | JObject l =>
      AMap (Some (foldl (λ m kv, <[kv.1 := unmarshalAny kv.2]> m) ∅ l))
  end.

(** Into a field of the given type, [cur] being its current value.
    [null] sets a map or a slice to nil and leaves other kinds as they
    are; a document of the wrong kind is an error. *)
Definition decodeString (cur : string) (j : json) : option string :=
  match j with
  | JNull => Some cur
  | JString s => Some s
  | _ => None
  end.

(** A byte slice is read from a base64 string. *)
Definition decodeBytes (cur : option (list byte)) (j : json)
  : option (option (list byte)) :=
  match j with
  | JNull => Some None
  | JString s => Some <$> b64decode s
  | _ => None
  end.

Definition decodeMap (cur : option mapobj) (j : json) : option (option mapobj) :=
  match j with
  | JNull => Some None
  | JObject l =>
      Some (Some (foldl (λ m kv, <[kv.1 := unmarshalAny kv.2]> m) (default ∅ cur) l))
  | _ => None
  end.

Definition decodeHeaders (cur : option (gmap string string)) (j : json)
  : option (option (gmap string string)) :=
  match j with
  | JNull => Some None
  | JObject l =>
      Some <$> foldl (λ acc kv, m ← acc; v ← decodeString "" kv.2;
                                Some (<[kv.1 := v]> m))
                     (Some (default ∅ cur)) l
  | _ => None
  end.

Definition decodeContextMember (acc : option Context) (kv : string * json)
  : option Context :=
  c ← acc;
  if decide (kv.1 = "message_id") then
    v ← decodeString (MessageID c) kv.2;
    Some (mkMessageContext v (Payload c) (Properties c) (Headers c))
  else if decide (kv.1 = "payload") then
    v ← decodeBytes (Payload c) kv.2;
    Some (mkMessageContext (MessageID c) v (Properties c) (Headers c))
  else if decide (kv.1 = "properties") then
    v ← decodeMap (Properties c) kv.2;
    Some (mkMessageContext (MessageID c) (Payload c) v (Headers c))
  else if decide (kv.1 = "headers") then
    v ← decodeHeaders (Headers c) kv.2;
    Some (mkMessageContext (MessageID c) (Payload c) (Properties c) v)
  else Some c.

Definition decodeContext (cur : Context) (j : json) : option Context :=
  match j with
  | JNull => Some cur
  | JObject l => foldl decodeContextMember (Some cur) l
  | _ => None
  end.

Definition decodeRequestMember (acc : option Request) (kv : string * json)
  : option Request :=
  r ← acc;
  if decide (kv.1 = "connector_name") then
    v ← decodeString (ConnectorName r) kv.2;
    Some (mkRequest v (OperationName r) (ConnectorConfig r) (OperationParams r)
                    (MessageContextIn r))
  else if decide (kv.1 = "operation_name") then
    v ← decodeString (OperationName r) kv.2;
    Some (mkRequest (ConnectorName r) v (ConnectorConfig r) (OperationParams r)
                    (MessageContextIn r))
  else if decide (kv.1 = "connector_config") then
    v ← decodeMap (ConnectorConfig r) kv.2;
    Some (mkRequest (ConnectorName r) (OperationName r) v (OperationParams r)
                    (MessageContextIn r))
  else if decide (kv.1 = "operation_params") then
    v ← decodeMap (OperationParams r) kv.2;
    Some (mkRequest (ConnectorName r) (OperationName r) (ConnectorConfig r) v
                    (MessageContextIn r))
  else if decide (kv.1 = "message_context_in") then
    v ← decodeContext (MessageContextIn r) kv.2;
    Some (mkRequest (ConnectorName r) (OperationName r) (ConnectorConfig r)
                    (OperationParams r) v)
  else Some r.

Definition zeroRequest : Request :=
  mkRequest "" "" None None (zeroContext None).

(** [var req ConnectorOperationRequest; decoder.Decode(&req)]. *)
Definition DecodeRequest (j : json) : option Request :=
  match j with
  | JNull => Some zeroRequest
  | JObject l => foldl decodeRequestMember (Some zeroRequest) l
  | _ => None
  end.

(** ** Values that JSON carries unchanged *)

(** The dynamic values a decoder can produce, with well-formed text:
    nil, booleans, finite float64, strings, non-nil [[]interface{}] and
    non-nil [map[string]interface{}] of such values. *)
Fixpoint native (a : any) : Prop :=
  match a with
  | ANil | ABool _ => True
  | AInt _ => False
  | AFloat64 f => finite f = true
  | AString s => validUTF8 s
  | ASlice None => False
  | ASlice (Some l) => foldr (λ v acc, native v ∧ acc) True l
  | AMap None => False
  | AMap (Some m) => map_fold (λ k v acc, validUTF8 k ∧ native v ∧ acc) True m
  end.

Definition nativeMap (m : option mapobj) : Prop :=
  match m with
  | None => True
  | Some m => native (AMap (Some m))
  end.

Definition nativeHeaders (m : option (gmap string string)) : Prop :=
  match m with
  | None => True
  | Some m => map_Forall (λ k v, validUTF8 k ∧ validUTF8 v) m
  end.

Definition nativeRequest (r : Request) : Prop :=
  validUTF8 (ConnectorName r) ∧ validUTF8 (OperationName r) ∧
  nativeMap (ConnectorConfig r) ∧ nativeMap (OperationParams r) ∧
  validUTF8 (MessageID (MessageContextIn r)) ∧
  nativeMap (Properties (MessageContextIn r)) ∧
  nativeHeaders (Headers (MessageContextIn r)).

End Wire.

(* ===================================================================== *)
(** * Statements about the file worker *)
(* ===================================================================== *)

Module FileConnectorSpec.
Import Go protocol FileConnector.

(** The keys the two operations write into [Properties]. *)
Definition writtenKeys : list string :=
  ["file.write.path"; "file.write.status"; "file.read.path"].

(** What a successful operation does to the store, by the request's
    [Properties] reference. *)
Definition frameOf (h h' : heap) (props : mapref) (out : mapref) : Prop :=
  match props with
  | None =>
      (∀ l, l ∈ dom h → h' !! l = h !! l) ∧
      (∃ l, out = Some l ∧ h !! l = None)
  | Some l =>
      out = Some l ∧
      (∀ l', l' ≠ l → h' !! l' = h !! l') ∧
      (∀ k, k ∉ writtenKeys → index h' (Some l) k = index h (Some l) k)
  end.

(** The request's input context denotes the same value after the
    operation as before it. *)
Definition inputPreserved (fs : FileSystem) (h : heap) (req : Request) : Prop :=
  loadContext (dispatch fs h req).2 (MessageContextIn req)
  = loadContext h (MessageContextIn req).

(** ** Sample inputs *)

(** [filepath.Join] on the clean relative paths used in the samples. *)
Definition joinSlash (dir file : string) : string := dir +:+ "/" +:+ file.

(** A file system where every call succeeds and reads return "hi", and
    one where no file can be read. *)
Definition fsOk : FileSystem :=
  mkFileSystem (λ _, None) (λ _ _, None)
               (λ _, inr (String.list_byte_of_string "hi")) joinSlash.

Definition fsMissing : FileSystem :=
  mkFileSystem (λ _, None) (λ _ _, None)
               (λ _, inl "no such file or directory") joinSlash.

(** A worker store holding the decoded maps of a [create] request. *)
Definition sampleHeap : heap :=
  {[ 1%positive := {[ "filename" := AString "t.txt"; "content" := AString "hi" ]};
     2%positive := {[ "baseDirectory" := AString "data" ]};
     3%positive := {[ "flowName" := AString "fileCreateFlow" ]} ]}.

Definition sampleContext : MessageContext mapref :=
  mkMessageContext "m-1" (Some []) (Some 3%positive) None.

Definition sampleCreate : Request :=
  mkRequest "F" "create" (Some 2%positive) (Some 1%positive) sampleContext.

Definition sampleRead : Request :=
  mkRequest "F" "read" (Some 2%positive) (Some 1%positive) sampleContext.

End FileConnectorSpec.

(* ===================================================================== *)
(** * Statements about the connector manager *)
(* ===================================================================== *)

Module ManagerSpec.
Import Go protocol Manager.

(** ** The definition store *)

(** The definition a directory entry yields, if any: the entry must be a
    [.json] file that can be read and parsed. *)
Definition parseFile (ld : Loader) (definitionsDir fileName : string)
  : option (ConnectorDefinition (option mapobj)) :=
  if decide (Ext fileName = ".json") then
    match ReadFile ld (LJoin ld definitionsDir fileName) with
    | inr data =>
        match Unmarshal ld data with
        | inr d => Some d
        | inl _ => None
        end
    | inl _ => None
    end
  else None.

(** The successfully parsed definitions, in loading order. *)
Definition parsedDefinitions (ld : Loader) (definitionsDir : string)
    (files : list string) : list (ConnectorDefinition (option mapobj)) :=
  omap (parseFile ld definitionsDir) files.

(** The last definition of a list that carries the name [n]. *)
Definition lastNamed (n : string) (ds : list (ConnectorDefinition (option mapobj)))
  : option (ConnectorDefinition (option mapobj)) :=
  last (filter (λ d, Name d = n) ds).

(** A [.json] record that is unreadable or unparsable. *)
Definition malformed (ld : Loader) (definitionsDir fileName : string) : bool :=
  bool_decide (Ext fileName = ".json")
  && match parseFile ld definitionsDir fileName with
     | None => true
     | Some _ => false
     end.

Definition isWarning (l : logline) : bool :=
  match l with
  | WarnRead _ _ | WarnParse _ _ => true
  | Loaded _ => false
  end.

(** What the loading loop maintains: configuration maps of stored
    definitions are allocated, each name maps to the last definition
    parsed under it, and there is one warning per malformed record. *)
Definition loaded (ld : Loader) (dir : string) (files : list string)
    (acc : loading) : Prop :=
  let '(defs, h, log) := acc in
  (∀ n d l, defs !! n = Some d → DefaultConfig d = Some l → l ∈ dom h) ∧
  (∀ n, loadDefinition h <$> defs !! n = lastNamed n (parsedDefinitions ld dir files)) ∧
  length (filter (λ l, isWarning l = true) log)
  = length (filter (λ f, malformed ld dir f = true) files).

(** ** The effective configuration *)

(** Override entries over the defaults; a nil override leaves the
    defaults as they are. *)
Definition effectiveConfig (defaults override : option mapobj) : option mapobj :=
  match override with
  | None => defaults
  | Some o => Some (o ∪ default ∅ defaults)
  end.

(** ** Causes reported by a failed [Invoke] *)


(** ** Sample inputs *)

(** A definitions directory with two good records sharing the name [F],
    an unparsable record, an unreadable one and a file that is no record. *)
Definition defA : ConnectorDefinition (option mapobj) :=
  mkDefinition "F" "file/worker" 9091 (Some {[ "baseDirectory" := AString "/a" ]}).

Definition defB : ConnectorDefinition (option mapobj) :=
  mkDefinition "F" "file/worker2" 9092 None.

Definition sampleLoader : Loader :=
  mkLoader
    (λ _, inr ["a.json"; "bad.json"; "notes.txt"; "b.json"; "locked.json"])
    (λ path,
       if decide (path = "defs/a.json") then inr (String.list_byte_of_string "A")
       else if decide (path = "defs/b.json") then inr (String.list_byte_of_string "B")
       else if decide (path = "defs/bad.json") then inr (String.list_byte_of_string "{")
       else inl "permission denied")
    (λ data,
       if decide (String.string_of_list_byte data = "A") then inr defA
       else if decide (String.string_of_list_byte data = "B") then inr defB
       else inl "unexpected end of JSON input")
    FileConnectorSpec.joinSlash.

(** A definitions directory holding the one record of [F]. *)
Definition recordLoader : Loader :=
  mkLoader (λ _, inr ["f.json"])
           (λ _, inr (String.list_byte_of_string "A"))
           (λ _, inr defA)
           FileConnectorSpec.joinSlash.

(** The maps a caller passes as override and as parameters. *)
Definition callerOverride : mapobj :=
  {[ "baseDirectory" := AString "/b"; "x" := AString "y" ]}.

Definition callerParams : mapobj :=
  {[ "filename" := AString "t.txt"; "content" := AString "hi" ]}.

(** The host after loading that directory: [F] is defined with defaults
    [{"baseDirectory": "/a"}] (map 1); the store also holds the caller's
    override (map 2) and parameters (map 3). *)
Definition sampleDefinition : ConnectorDefinition mapref :=
  mkDefinition "F" "file/worker" 9091 (Some 1%positive).

Definition sampleMemory : heap :=
  {[ 1%positive := {[ "baseDirectory" := AString "/a" ]};
     2%positive := callerOverride;
     3%positive := callerParams ]}.

Definition sampleState : state :=
  mkState (mkManager {[ "F" := sampleDefinition ]} ∅ "connectors") sampleMemory [].

Definition callerContext : MessageContext mapref :=
  mkMessageContext "m-1" (Some (String.list_byte_of_string "data")) None None.

(** Every executable exists and starts with pid 4242. *)
Definition launcherOk : Launcher :=
  mkLauncher FileConnectorSpec.joinSlash (λ _, StatOk) (λ _ _, inr 4242%Z).

(** A worker that answers every request with a plain success. *)
Definition networkOk : Network :=
  mkNetwork (λ _, None) (λ _, None)
            (inr (mkResponse true (mkMessageContext "m-1" None None None) "")).

(** The same worker behind the encoder of the wire protocol. *)
Definition networkJson : Network :=
  mkNetwork (λ _, None)
            (λ req, match Wire.EncodeRequest req with
                    | Some _ => None
                    | None => Some "json: unsupported value"
                    end)
            (inr (mkResponse true (mkMessageContext "m-1" None None None) "")).

(** A port nobody listens on. *)
Definition networkRefused : Network :=
  mkNetwork (λ _, Some "connect: connection refused") (λ _, None)
            (inl "EOF").

Definition signalsOk : Signals := mkSignals (λ _, None).

End ManagerSpec.

(* ===================================================================== *)
(** * Statements about concurrent callers *)
(* ===================================================================== *)

Module ConcurrentSpec.
Import Go protocol Manager Concurrent.

Definition threadsSatisfy (P : nat → pc → Prop) (c : config) : Prop :=
  ∀ j p, threads c !! j = Some p → P j p.

(** The goroutines inside the locked section are exactly the writer. *)
Definition lockOwned (c : config) : Prop :=
  threadsSatisfy (λ j p, holdsLock p = true → writer c = Some j) c ∧
  (∀ i, writer c = Some i → ∃ p, threads c !! i = Some p ∧ holdsLock p = true).

Definition unhealthy (r : option RunningConnectorInstance) : Prop :=
  match r with
  | Some instance => stillRunning instance = false
  | None => True
  end.

(** Where a goroutine can be while nothing has been started yet. *)
Definition beforeSpawn (p : pc) : Prop :=
  match p with
  | Looked r => unhealthy r
  | Returning (inr _) | Done (inr _) => False
  | _ => True
  end.

(** Where a goroutine can be once [instance] has been started and
    recorded. *)
Definition afterSpawn (instance : RunningConnectorInstance) (p : pc) : Prop :=
  match p with
  | Looked (Some x) => stillRunning x = true → x = instance
  | Resolving | Launching _ _ => False
  | Returning (inr x) | Done (inr x) => x = instance
  | _ => True
  end.

Definition phase (connectorName : string) (s0 : state) (c : config) : Prop :=
  (spawnCount (shared c) = spawnCount s0 ∧
   noHealthyInstance (manager (shared c)) connectorName ∧
   threadsSatisfy (λ _, beforeSpawn) c)
  ∨ (∃ instance,
       spawnCount (shared c) = S (spawnCount s0) ∧
       runningInstances (manager (shared c)) !! connectorName = Some instance ∧
       stillRunning instance = true ∧
       threadsSatisfy (λ _, afterSpawn instance) c).

(** A caller whose launch succeeds never holds an error, and launches
    what the definition says. *)
Definition onCourse (connectorName : string) (cm0 : ConnectorManager)
    (os : Launcher) (p : pc) : Prop :=
  match p with
  | Returning (inl _) | Done (inl _) => False
  | Launching def executablePath =>
      connectorDefinitions cm0 !! connectorName = Some def ∧
      locateExecutable os (Join os (connectorsBaseDir cm0)
                                (ExecutablePathRelativeToConnectorsDir def))
      = inr executablePath
  | _ => True
  end.

Definition resolved (connectorName : string) (cm0 : ConnectorManager)
    (oss : list Launcher) (c : config) : Prop :=
  threadsSatisfy
    (λ j p, ∀ os, oss !! j = Some os → launchable cm0 connectorName os →
                  onCourse connectorName cm0 os p) c.

Definition staticPart (s0 : state) (c : config) : Prop :=
  connectorDefinitions (manager (shared c)) = connectorDefinitions (manager s0) ∧
  connectorsBaseDir (manager (shared c)) = connectorsBaseDir (manager s0).

Definition invariant (connectorName : string) (oss : list Launcher)
    (s0 : state) (c : config) : Prop :=
  length (threads c) = length oss ∧
  staticPart s0 c ∧ lockOwned c ∧ phase connectorName s0 c ∧
  resolved connectorName (manager s0) oss c.

(** A host where the executable is found only under its [.exe] name. *)
Definition launcherExe : Launcher :=
  mkLauncher FileConnectorSpec.joinSlash
             (λ p, if decide (p = "connectors/file/worker") then StatNotExist else StatOk)
             (λ _ _, inr 4343%Z).

End ConcurrentSpec.

(* ===================================================================== *)
(** * Statements about the wire encoding *)
(* ===================================================================== *)

Module WireSpec.
Import Go protocol Wire.

(** Number of constructors of a value, for induction under slices and
    maps. *)
Fixpoint anySize (a : any) : nat :=
  match a with
  | ASlice (Some l) => S (list_sum (map anySize l))
  | AMap (Some m) => S (map_fold (λ _ v acc, anySize v + acc) 0 m)%nat
  | _ => 1
  end.

(** Encoding then decoding gives the request back. *)
Definition roundTrips (r : Request) : Prop :=
  EncodeRequest r ≫= DecodeRequest = Some r.

(** A [create] request as the sample host sends it, and the same with an
    integer among the parameters. *)
Definition sampleRequest : Request :=
  mkRequest "F" "create"
            (Some {[ "baseDirectory" := AString "./data" ]})
            (Some {[ "filename" := AString "t.txt"; "content" := AString "hi";
                     "tags" := ASlice (Some [AString "a"; ABool true; ANil]);
                     "meta" := AMap (Some {[ "ratio" := AFloat64 (S754_zero false) ]}) ]})
            (mkMessageContext "m-1" (Some (String.list_byte_of_string "<a/>"))
                              None (Some {[ "X-Request-ID" := "123" ]})).

Definition countedRequest : Request :=
  mkRequest "F" "create" None (Some {[ "count" := AInt 5 ]}) (zeroContext None).

End WireSpec.

(* ===================================================================== *)
(** * The response on the wire, and the worker's connection handler *)
(* ===================================================================== *)

Module WireResponse.
Import Go protocol Wire.

Abbreviation Response := (ConnectorOperationResponse (option mapobj)).

(** [error_message] carries [omitempty]: an empty message is left out. *)
Definition marshalResponse (r : Response) : json :=
  JObject ([("success", JBool (Success r));
            ("message_context_out", marshalContext (MessageContextOut r))]
           ++ (if decide (ErrorMessage r = "") then []
               else [("error_message", JString (toValidUTF8 (ErrorMessage r)))])).

Definition supportedResponse (r : Response) : bool :=
  supported (AMap (Properties (MessageContextOut r))).

(** [encoder.Encode(resp)]: the document, or an error. *)
Definition EncodeResponse (r : Response) : option json :=
  if supportedResponse r then Some (marshalResponse r) else None.

Definition decodeBool (cur : bool) (j : json) : option bool :=
  match j with
  | JNull => Some cur
  | JBool b => Some b
  | _ => None
  end.

Definition decodeResponseMember (acc : option Response) (kv : string * json)
  : option Response :=
  r ← acc;
  if decide (kv.1 = "success") then
    v ← decodeBool (Success r) kv.2;
    Some (mkResponse v (MessageContextOut r) (ErrorMessage r))
  else if decide (kv.1 = "message_context_out") then
    v ← decodeContext (MessageContextOut r) kv.2;
    Some (mkResponse (Success r) v (ErrorMessage r))
  else if decide (kv.1 = "error_message") then
    v ← decodeString (ErrorMessage r) kv.2;
    Some (mkResponse (Success r) (MessageContextOut r) v)
  else Some r.

Definition zeroResponse : Response := mkResponse false (zeroContext None) "".

(** [var resp ConnectorOperationResponse; decoder.Decode(&resp)],
    modelled like [DecodeRequest] on the documents the encoder writes. *)
Definition DecodeResponse (j : json) : option Response :=
  match j with
  | JNull => Some zeroResponse
  | JObject l => foldl decodeResponseMember (Some zeroResponse) l
  | _ => None
  end.

(** A response whose text is well formed and whose properties are values
    JSON carries unchanged. *)
Definition nativeResponse (r : Response) : Prop :=
  validUTF8 (ErrorMessage r) ∧
  validUTF8 (MessageID (MessageContextOut r)) ∧
  nativeMap (Properties (MessageContextOut r)) ∧
  nativeHeaders (Headers (MessageContextOut r)).

End WireResponse.

Module FileConnectorServer.
Import Go protocol FileConnector Wire WireResponse.

(** A decoded request is built from newly allocated maps. *)
Definition storeRequest (h : heap) (r : Wire.Request) : FileConnector.Request * heap :=
  let '(cfg, h) := Manager.store h (ConnectorConfig r) in
  let '(params, h) := Manager.store h (OperationParams r) in
  let c := MessageContextIn r in
  let '(props, h) := Manager.store h (Properties c) in
  (mkRequest (ConnectorName r) (OperationName r) cfg params
             (mkMessageContext (MessageID c) (Payload c) props (Headers c)), h).

(** [decoder.Decode(&req)] on a connection that carries a document the
    manager's encoder wrote: what arrives is either no document at all
    (a read or syntax error) or a document, which may still not fit the
    struct; [mismatch] is the text of that error. *)
Definition decodeRequest (mismatch : error) (received : error + json)
  : error + Wire.Request :=
  match received with
  | inl err => inl err
  | inr doc =>
      match DecodeRequest doc with
      | Some r => inr r
      | None => inl mismatch
      end
  end.

(** [handleConnection], given the outcome [decoded] of
    [decoder.Decode(&req)]: the document handed to the encoder, [None]
    when the encoder rejects the response (the error is only logged). *)
Definition handleConnection (fs : FileSystem) (decoded : error + Wire.Request)
  : option json :=
  match decoded with
  | inl err =>
      EncodeResponse
        (mkResponse false (zeroContext None) ("Failed to decode request: " +:+ err))
  | inr r =>
      let '(req, h) := storeRequest ∅ r in
      let '(resp, h) := dispatch fs h req in
      EncodeResponse (loadResponse h resp)
  end.

End FileConnectorServer.

(* ===================================================================== *)
(** * Further statements about the file worker *)
(* ===================================================================== *)

Module FileConnectorMore.
Import Go protocol FileConnector.

(** The directory an operation works in: [baseDirectory] of the
    configuration when it is a non-empty string, the current directory
    otherwise. *)
Definition baseDirectoryOf (h : heap) (req : Request) : string :=
  let baseDir := (as_string (index h (ConnectorConfig req) "baseDirectory")).1 in
  if decide (baseDir = "") then "." else baseDir.

Definition withConfig (req : Request) (cfg : mapref) : Request :=
  mkRequest (ConnectorName req) (OperationName req) cfg (OperationParams req)
            (MessageContextIn req).

(** The business reasons for which an operation fails: a parameter that
    is missing or not a string, a file-system call that returns an
    error, or an operation name the worker does not know. *)
Definition businessFailure (fs : FileSystem) (h : heap) (req : Request) : Prop :=
  let filename := as_string (index h (OperationParams req) "filename") in
  let content := as_string (index h (OperationParams req) "content") in
  let dir := baseDirectoryOf h req in
  (OperationName req = "create" ∧
   (filename.2 = false ∨ content.2 = false ∨
    is_Some (MkdirAll fs dir) ∨
    is_Some (WriteFile fs (Join fs dir filename.1)
                       (String.list_byte_of_string content.1))))
  ∨ (OperationName req = "read" ∧
     (filename.2 = false ∨
      ∃ err, ReadFile fs (Join fs dir filename.1) = inl err))
  ∨ (OperationName req ≠ "create" ∧ OperationName req ≠ "read").

End FileConnectorMore.

(* ===================================================================== *)
(** * Further statements about the connector manager *)
(* ===================================================================== *)

Module ManagerMore.
Import Go protocol Manager.

(** Every tracked instance was started for the definition stored under
    its name, listens on that definition's port, and has a started
    process that has not been waited for. *)
Definition wellTracked (cm : ConnectorManager) : Prop :=
  ∀ n i, runningInstances cm !! n = Some i →
    connectorDefinitions cm !! n = Some (Definition_ i) ∧
    Port i = DefaultPort (Definition_ i) ∧
    ∃ c pid, Cmd i = Some c ∧ Process c = Some pid ∧ ProcessState c = None ∧
             Args c = ["-port=" +:+ itoa (Port i)].

(** The configuration maps of the definitions are allocated and no two
    names share one. *)
Definition separateConfigs (cm : ConnectorManager) (h : heap) : Prop :=
  (∀ n d l, connectorDefinitions cm !! n = Some d → DefaultConfig d = Some l →
            l ∈ dom h) ∧
  (∀ n1 n2 d1 d2 l, n1 ≠ n2 →
     connectorDefinitions cm !! n1 = Some d1 →
     connectorDefinitions cm !! n2 = Some d2 →
     DefaultConfig d1 = Some l → DefaultConfig d2 ≠ Some l).

(** What the loading loop maintains with respect to the store [h0] it
    started from: the maps of [h0] are as they were, and the
    configuration maps of the loaded definitions are new and pairwise
    distinct. *)
Definition loadedApart (h0 : heap) (acc : loading) : Prop :=
  let '(defs, h, _) := acc in
  (∀ l, l ∈ dom h0 → h !! l = h0 !! l) ∧
  (∀ n d l, defs !! n = Some d → DefaultConfig d = Some l →
            l ∈ dom h ∧ l ∉ dom h0) ∧
  (∀ n1 n2 d1 d2 l, n1 ≠ n2 → defs !! n1 = Some d1 → defs !! n2 = Some d2 →
     DefaultConfig d1 = Some l → DefaultConfig d2 ≠ Some l).

(** The calls a host makes on a manager, and their effect in order. *)
Inductive call :=
  | CallInvoke (os : Launcher) (net : Network)
               (connectorName operationName : string)
               (connectorConfigOverride operationParams : mapref)
               (msgCtxIn : MessageContext mapref)
  | CallShutdownAll (sg : Signals).

Definition perform (s : state) (c : call) : state :=
  match c with
  | CallInvoke os net n op ov ps ctx => (Invoke os net s n op ov ps ctx).2
  | CallShutdownAll sg => ShutdownAll sg s
  end.

Definition session (s : state) (calls : list call) : state := foldl perform s calls.

(** The call passes a non-nil override. *)
Definition overrides (c : call) : bool :=
  match c with
  | CallInvoke _ _ _ _ (Some _) _ _ => true
  | _ => false
  end.

Definition isInvoke (c : call) : bool :=
  match c with CallInvoke _ _ _ _ _ _ _ => true | CallShutdownAll _ => false end.

(** The processes started, in order: path, arguments, pid. *)
Definition started (t : list event) : list (string * list string * Z) :=
  omap (λ e, match e with EvStart p a pid => Some (p, a, pid) | _ => None end) t.

Definition interrupted (t : list event) : list Z :=
  omap (λ e, match e with EvSignalInterrupt pid => Some pid | _ => None end) t.

Definition killed (t : list event) : list Z :=
  omap (λ e, match e with EvKill pid => Some pid | _ => None end) t.

Definition waited (t : list event) : list Z :=
  omap (λ e, match e with EvWait pid => Some pid | _ => None end) t.

(** The processes of the tracked instances, in the order of the loop. *)
Definition trackedPids (cm : ConnectorManager) : list Z :=
  omap (λ kv : string * RunningConnectorInstance, c ← Cmd kv.2; Process c)
       (map_to_list (runningInstances cm)).

(** The request [Invoke] builds for an instance (lines 169-185), as the
    value handed to the encoder. *)
Definition requestFor (h : heap) (instance : RunningConnectorInstance)
    (connectorName operationName : string)
    (connectorConfigOverride operationParams : mapref)
    (msgCtxIn : MessageContext mapref) : ConnectorOperationRequest (option mapobj) :=
  let '(cfg, h') := mergeConfig h (DefaultConfig (Definition_ instance))
                                connectorConfigOverride in
  loadRequest h' (mkRequest connectorName operationName cfg operationParams msgCtxIn).

End ManagerMore.

Module ConcurrentMore.
Import Go protocol Manager Concurrent ConcurrentSpec.

(** Where a caller can be while a healthy [instance] is recorded: it
    has not looked yet, it has found the instance, or it has returned
    it. *)
Definition onFastPath (instance : RunningConnectorInstance) (p : pc) : Prop :=
  match p with
  | AtEntry => True
  | Looked r => r = Some instance
  | Done r => r = inr instance
  | _ => False
  end.

(** Nothing is written and nobody holds the write lock. *)
Definition readOnly (s0 : state) (instance : RunningConnectorInstance)
    (c : config) : Prop :=
  shared c = s0 ∧ writer c = None ∧ threadsSatisfy (λ _, onFastPath instance) c.

End ConcurrentMore.

Module Samples.
Import Go protocol Manager ManagerSpec ManagerMore.

(** The worker store with a second configuration map that names the
    same directory, and one that names the current directory. *)
Definition widerHeap : heap :=
  <[4%positive := {[ "baseDirectory" := AString "data"; "mode" := AString "0644" ]}]>
    (<[5%positive := {[ "baseDirectory" := AString "." ]}]> FileConnectorSpec.sampleHeap).

(** A [read] request without parameters, and one without configuration. *)
Definition bareRead : FileConnector.Request :=
  mkRequest "F" "read" (Some 2%positive) None FileConnectorSpec.sampleContext.

Definition unconfiguredRead : FileConnector.Request :=
  mkRequest "F" "read" None (Some 1%positive) FileConnectorSpec.sampleContext.

(** What the worker answers to a successful [create]. *)
Definition sampleResponse : WireResponse.Response :=
  mkResponse true
    (mkMessageContext "m-1" (Some (String.list_byte_of_string "<a/>"))
       (Some {[ "file.write.status" := AString "success" ]})
       (Some {[ "X-Request-ID" := "123" ]}))
    "".

(** The sample host once the worker of [F] runs. *)
Definition sampleInstance : RunningConnectorInstance :=
  mkInstance sampleDefinition
             (Some (mkCmd "connectors/file/worker" ["-port=9091"] (Some 4242%Z) None))
             9091.

Definition trackedState : state :=
  mkState (mkManager {[ "F" := sampleDefinition ]} {[ "F" := sampleInstance ]}
                     "connectors")
          sampleMemory
          [EvStart "connectors/file/worker" ["-port=9091"] 4242].

(** A [create] with an override, then a [read] that cannot connect. *)
Definition sampleCalls : list call :=
  [CallInvoke launcherOk networkOk "F" "create"
              (Some 2%positive) (Some 3%positive) callerContext;
   CallInvoke launcherOk networkRefused "F" "read"
              None (Some 3%positive) callerContext].

(** Calls without override, with a shutdown in between. *)
Definition plainCalls : list call :=
  [CallInvoke launcherOk networkOk "F" "read"
              None (Some 3%positive) callerContext;
   CallShutdownAll signalsOk;
   CallInvoke launcherOk networkRefused "F" "create"
              None (Some 3%positive) callerContext].

(** The request the sample host builds for that [create], and a
    connection behind which the file worker answers it. *)
Definition sampleSent : ConnectorOperationRequest (option mapobj) :=
  requestFor sampleMemory sampleInstance "F" "create"
             (Some 2%positive) (Some 3%positive) callerContext.

Definition workerNetwork (fs : FileConnector.FileSystem) : Network :=
  mkNetwork (λ _, None)
            (λ req, match Wire.EncodeRequest req with
                    | Some _ => None
                    | None => Some "json: unsupported value"
                    end)
            (match (Wire.EncodeRequest sampleSent
                    ≫= λ doc, FileConnectorServer.handleConnection fs
                                (FileConnectorServer.decodeRequest
                                   "cannot unmarshal" (inr doc)))
                   ≫= WireResponse.DecodeResponse with
             | Some r => inr r
             | None => inl "EOF"
             end).

End Samples.

(* ===================================================================== *)
(** * Properties of the map store *)
(* ===================================================================== *)

Module GoFacts.
Import Go.

Lemma assign_other h l k v l' : l' ≠ l → assign h l k v !! l' = h !! l'.
Proof. intros Hne. unfold assign. by rewrite lookup_insert_ne. Qed.

Lemma deref_assign h l k v :
  deref (assign h l k v) (Some l) = <[k := v]> (deref h (Some l)).
Proof. unfold assign, deref. by rewrite lookup_insert_eq. Qed.

Lemma assign_index_ne h l k v k' :
  k' ≠ k → index (assign h l k v) (Some l) k' = index h (Some l) k'.
Proof.
  intros Hne. unfold index. rewrite deref_assign. by rewrite lookup_insert_ne.
Qed.

Lemma assign_index_eq h l k v : index (assign h l k v) (Some l) k = Some v.
Proof. unfold index. rewrite deref_assign. by rewrite lookup_insert_eq. Qed.

Lemma make_fresh h : h !! (make h).1 = None.
Proof.
  cbn. apply not_elem_of_dom. apply is_fresh.
Qed.

Lemma make_keeps h l : l ∈ dom h → (make h).2 !! l = h !! l.
Proof.
  intros Hl. cbn. apply lookup_insert_ne. intros <-. by apply (is_fresh (dom h)).
Qed.

(** The loop [for k, v := range src { dst[k] = v }] leaves in [dst] the
    entries of [src] over what [dst] held. *)
Lemma deref_assign_all (src : list (string * any)) h dst :
  deref (assign_all h dst src) (Some dst)
  = foldl (λ m kv, <[kv.1 := kv.2]> m) (deref h (Some dst)) src.
Proof.
  unfold assign_all.
  revert h. induction src as [|[k v] src IH]; intros h; cbn [foldl]; [done|].
  rewrite IH. by rewrite deref_assign.
Qed.

Lemma assign_all_other (src : list (string * any)) h dst l :
  l ≠ dst → assign_all h dst src !! l = h !! l.
Proof.
  intros Hne. unfold assign_all.
  revert h. induction src as [|[k v] src IH]; intros h; cbn [foldl]; [done|].
  rewrite IH. by apply assign_other.
Qed.

Lemma foldl_insert_lookup {A} (l : list (string * A)) (m : gmap string A) k :
  NoDup l.*1 →
  foldl (λ m kv, <[kv.1 := kv.2]> m) m l !! k
  = match list_to_map (M := gmap string A) l !! k with
    | Some v => Some v
    | None => m !! k
    end.
Proof.
  revert m. induction l as [|[k' v] l IH]; intros m Hnd; [done|].
  rewrite fmap_cons in Hnd. apply NoDup_cons in Hnd as [Hk' Hnd].
  cbn [foldl list_to_map foldr curry fst snd]. rewrite IH by done.
  destruct (decide (k' = k)) as [->|Hne].
  - rewrite (not_elem_of_list_to_map_1 l k Hk'). by rewrite !lookup_insert_eq.
  - by rewrite !lookup_insert_ne.
Qed.

Lemma foldl_insert_map_to_list {A} (src m : gmap string A) k :
  foldl (λ m kv, <[kv.1 := kv.2]> m) m (map_to_list src) !! k
  = match src !! k with
    | Some v => Some v
    | None => m !! k
    end.
Proof.
  rewrite foldl_insert_lookup by apply NoDup_fst_map_to_list.
  by rewrite list_to_map_to_list.
Qed.

End GoFacts.

(* ===================================================================== *)
(** * Properties of the file worker *)
(* ===================================================================== *)

Module FileConnectorFacts.
Import Go protocol FileConnector FileConnectorSpec FileConnectorMore GoFacts.

(** A literal prefix makes a message non-empty. *)
Local Ltac nonempty := cbn; discriminate.

(** Failure branches of [createFile]: nothing is written and the input
    context is handed back. *)
Lemma createFile_failure fs h req :
  Success (createFile fs h req).1 = false →
  ErrorMessage (createFile fs h req).1 ≠ "" ∧
  MessageContextOut (createFile fs h req).1 = MessageContextIn req ∧
  (createFile fs h req).2 = h.
Proof.
  unfold createFile.
  destruct (as_string (index h (OperationParams req) "filename")) as [filename okFile].
  destruct (as_string (index h (OperationParams req) "content")) as [content okContent].
  destruct (negb okFile || negb okContent); [cbn; intros _; split_and!; done|].
  cbv zeta.
  destruct (MkdirAll fs _) as [err|]; [cbn; intros _; split_and!; done|].
  destruct (WriteFile fs _ _) as [err|]; [cbn; intros _; split_and!; done|].
  destruct (Properties (MessageContextIn req)); cbn; discriminate.
Qed.

Lemma readFile_failure fs h req :
  Success (readFile fs h req).1 = false →
  ErrorMessage (readFile fs h req).1 ≠ "" ∧
  MessageContextOut (readFile fs h req).1 = MessageContextIn req ∧
  (readFile fs h req).2 = h.
Proof.
  unfold readFile.
  destruct (as_string (index h (OperationParams req) "filename")) as [filename okFile].
  destruct (negb okFile); [cbn; intros _; split_and!; done|].
  cbv zeta.
  destruct (ReadFile fs _) as [err|data]; [cbn; intros _; split_and!; done|].
  cbn. destruct (Properties (MessageContextIn req)); cbn; discriminate.
Qed.

Lemma dispatch_failure fs h req :
  Success (dispatch fs h req).1 = false →
  ErrorMessage (dispatch fs h req).1 ≠ "" ∧
  MessageContextOut (dispatch fs h req).1 = MessageContextIn req ∧
  (dispatch fs h req).2 = h.
Proof.
  unfold dispatch.
  destruct (decide (OperationName req = "create")); [apply createFile_failure|].
  destruct (decide (OperationName req = "read")); [apply readFile_failure|].
  cbn. intros _. split_and!; done.
Qed.

Lemma createFile_success fs h req :
  Success (createFile fs h req).1 = true →
  frameOf h (createFile fs h req).2 (Properties (MessageContextIn req))
          (Properties (MessageContextOut (createFile fs h req).1)).
Proof.
  unfold createFile.
  destruct (as_string (index h (OperationParams req) "filename")) as [filename okFile].
  destruct (as_string (index h (OperationParams req) "content")) as [content okContent].
  destruct (negb okFile || negb okContent); [cbn; discriminate|].
  cbv zeta.
  destruct (MkdirAll fs _) as [err|]; [cbn; discriminate|].
  destruct (WriteFile fs _ _) as [err|]; [cbn; discriminate|].
  intros _. destruct (Properties (MessageContextIn req)) as [l|] eqn:Hp; cbn.
  - split; [done|]. split.
    + intros l' Hne. by rewrite !assign_other.
    + intros k Hk. rewrite !assign_index_ne; [done|..];
        intros ->; apply Hk; unfold writtenKeys; set_solver.
  - split.
    + intros l Hl. rewrite !assign_other.
      * by apply (make_keeps h).
      * intros ->. by apply (is_fresh (dom h)).
      * intros ->. by apply (is_fresh (dom h)).
    + eexists; split; [done|]. apply (make_fresh h).
Qed.

Lemma readFile_success fs h req :
  Success (readFile fs h req).1 = true →
  frameOf h (readFile fs h req).2 (Properties (MessageContextIn req))
          (Properties (MessageContextOut (readFile fs h req).1)).
Proof.
  unfold readFile.
  destruct (as_string (index h (OperationParams req) "filename")) as [filename okFile].
  destruct (negb okFile); [cbn; discriminate|].
  cbv zeta.
  destruct (ReadFile fs _) as [err|data]; [cbn; discriminate|].
  intros _. cbn. destruct (Properties (MessageContextIn req)) as [l|] eqn:Hp; cbn.
  - split; [done|]. split.
    + intros l' Hne. by rewrite !assign_other.
    + intros k Hk. rewrite !assign_index_ne; [done|..];
        intros ->; apply Hk; unfold writtenKeys; set_solver.
  - split.
    + intros l Hl. rewrite !assign_other.
      * by apply (make_keeps h).
      * intros ->. by apply (is_fresh (dom h)).
    + eexists; split; [done|]. apply (make_fresh h).
Qed.

Lemma dispatch_success fs h req :
  Success (dispatch fs h req).1 = true →
  frameOf h (dispatch fs h req).2 (Properties (MessageContextIn req))
          (Properties (MessageContextOut (dispatch fs h req).1)).
Proof.
  unfold dispatch.
  destruct (decide (OperationName req = "create")); [apply createFile_success|].
  destruct (decide (OperationName req = "read")); [apply readFile_success|].
  cbn. discriminate.
Qed.

(** Whatever the outcome, the message id and the headers come back as
    they went in. *)
Lemma dispatch_scalars fs h req :
  MessageID (MessageContextOut (dispatch fs h req).1) = MessageID (MessageContextIn req) ∧
  Headers (MessageContextOut (dispatch fs h req).1) = Headers (MessageContextIn req).
Proof.
  unfold dispatch, createFile, readFile.
  repeat first
    [ progress cbn
    | match goal with
      | |- context [if ?c then _ else _] => destruct c
      | |- context [let '(_, _) := ?p in _] => destruct p
      | |- context [match ?x with _ => _ end] => destruct x
      end ]; done.
Qed.

(** Each business reason makes the operation fail. *)
Lemma businessFailure_fails fs h req :
  businessFailure fs h req → Success (dispatch fs h req).1 = false.
Proof.
  unfold businessFailure, baseDirectoryOf, dispatch. cbv zeta.
  intros [[Hop Hcause]|[[Hop Hcause]|[Hc Hr]]].
  - rewrite decide_True by done. unfold createFile.
    destruct (as_string (index h (OperationParams req) "filename")) as [filename okFile].
    destruct (as_string (index h (OperationParams req) "content")) as [content okContent].
    cbn [fst snd] in Hcause.
    destruct okFile; [|done]. destruct okContent; [|done]. cbn [negb orb]. cbv zeta.
    destruct Hcause as [Hf|[Hf|[[err Hmk]|[err Hwr]]]]; [done|done| |].
    + by rewrite Hmk.
    + destruct (MkdirAll fs _); [done|]. by rewrite Hwr.
  - rewrite decide_False by (rewrite Hop; discriminate).
    rewrite decide_True by done. unfold readFile.
    destruct (as_string (index h (OperationParams req) "filename")) as [filename okFile].
    cbn [fst snd] in Hcause.
    destruct okFile; [|done]. cbn [negb]. cbv zeta.
    destruct Hcause as [Hf|[err Hrd]]; [done|]. by rewrite Hrd.
  - by rewrite !decide_False.
Qed.

(** C6.  When a worker operation fails for a business reason (a
    parameter that is missing or not a string, a file-system call that
    returns an error, an operation name the worker does not know), the
    response has [Success = false], a non-empty [ErrorMessage], and its
    [MessageContextOut] is the request's [MessageContextIn], field for
    field: same fields, and the same value once the map references are
    followed through the (unchanged) store. *)
Theorem business_failure_echoes_context fs h req :
  businessFailure fs h req →
  Success (dispatch fs h req).1 = false ∧
  ErrorMessage (dispatch fs h req).1 ≠ "" ∧
  MessageContextOut (dispatch fs h req).1 = MessageContextIn req ∧
  loadContext (dispatch fs h req).2 (MessageContextOut (dispatch fs h req).1)
  = loadContext h (MessageContextIn req).
Proof.
  intros Hcause. pose proof (businessFailure_fails fs h req Hcause) as Hfail.
  destruct (dispatch_failure fs h req Hfail) as (Hmsg & Hctx & Hh).
  split_and!; [done..|]. by rewrite Hctx, Hh.
Qed.

(** The business reasons are the only failures. *)
Lemma failure_has_business_reason fs h req :
  Success (dispatch fs h req).1 = false → businessFailure fs h req.
Proof.
  unfold businessFailure, baseDirectoryOf, dispatch. cbv zeta.
  destruct (decide (OperationName req = "create")) as [Hc|Hc].
  - intros Hfail. left. split; [done|]. revert Hfail. unfold createFile.
    destruct (as_string (index h (OperationParams req) "filename")) as [filename okFile].
    destruct (as_string (index h (OperationParams req) "content")) as [content okContent].
    cbn [fst snd]. destruct okFile; [|by left]. destruct okContent; [|by right; left].
    cbn [negb orb]. cbv zeta.
    destruct (MkdirAll fs _) as [err|]; [by right; right; left; eexists|].
    destruct (WriteFile fs _ _) as [err|]; [by right; right; right; eexists|].
    destruct (Properties (MessageContextIn req)); cbn; discriminate.
  - destruct (decide (OperationName req = "read")) as [Hr|Hr].
    + intros Hfail. right. left. split; [done|]. revert Hfail. unfold readFile.
      destruct (as_string (index h (OperationParams req) "filename")) as [filename okFile].
      cbn [fst snd]. destruct okFile; [|by left]. cbn [negb]. cbv zeta.
      destruct (ReadFile fs _) as [err|data]; [by right; eexists|].
      cbn. destruct (Properties (MessageContextIn req)); cbn; discriminate.
    + intros _. right. right. done.
Qed.

Lemma business_failure_echoes_context_witness :
  businessFailure fsMissing sampleHeap sampleRead ∧
  Success (dispatch fsMissing sampleHeap sampleRead).1 = false ∧
  ErrorMessage (dispatch fsMissing sampleHeap sampleRead).1 ≠ "" ∧
  MessageContextOut (dispatch fsMissing sampleHeap sampleRead).1
  = MessageContextIn sampleRead ∧
  loadContext (dispatch fsMissing sampleHeap sampleRead).2
              (MessageContextOut (dispatch fsMissing sampleHeap sampleRead).1)
  = loadContext sampleHeap (MessageContextIn sampleRead).
Proof.
  assert (Hcause : businessFailure fsMissing sampleHeap sampleRead).
  { right. left. split; [reflexivity|]. right. eexists. vm_compute. reflexivity. }
  split; [exact Hcause|].
  apply (business_failure_echoes_context fsMissing sampleHeap sampleRead). exact Hcause.
Defined.

(** C4, as stated, fails: a successful [create] on a request whose
    [Properties] map is not nil writes the two [file.write.*] keys into
    that very map, so the request's input context no longer denotes the
    value it had, and the response shares the map with the request. *)
Lemma create_writes_into_request :
  ¬ inputPreserved fsOk sampleHeap sampleCreate ∧
  Properties (MessageContextOut (dispatch fsOk sampleHeap sampleCreate).1)
  = Properties (MessageContextIn sampleCreate) ∧
  index (dispatch fsOk sampleHeap sampleCreate).2
        (Properties (MessageContextIn sampleCreate)) "file.write.path"
  = Some (AString "data/t.txt") ∧
  index sampleHeap (Properties (MessageContextIn sampleCreate)) "file.write.path"
  = None.
Proof.
  split_and!; [|vm_compute; reflexivity..].
  unfold inputPreserved. intros Heq.
  apply (f_equal (λ c, m ← Properties c; m !! "file.write.path")) in Heq.
  vm_compute in Heq. discriminate.
Qed.

(** C4, amended.  A worker operation leaves the request's input context
    untouched on every failure branch (unknown operation included) and
    whenever the request's [Properties] is nil, in which case the
    response carries a newly made map and no existing map changes.  On a
    success with a non-nil [Properties], the response shares that map
    with the request; the operation writes into it in place, changing
    only the keys [file.write.path], [file.write.status] and
    [file.read.path], and no other map of the store.  The message id and
    the headers always come back as they went in. *)
Theorem worker_context_frame fs h req :
  let r := dispatch fs h req in
  (Success r.1 = false ∨ Properties (MessageContextIn req) = None
     → inputPreserved fs h req) ∧
  (Success r.1 = false → r.2 = h ∧ MessageContextOut r.1 = MessageContextIn req) ∧
  (Success r.1 = true →
     frameOf h r.2 (Properties (MessageContextIn req))
             (Properties (MessageContextOut r.1))) ∧
  MessageID (MessageContextOut r.1) = MessageID (MessageContextIn req) ∧
  Headers (MessageContextOut r.1) = Headers (MessageContextIn req).
Proof.
  cbv zeta. split_and!.
  - intros [Hfail|Hnil].
    + unfold inputPreserved.
      destruct (dispatch_failure fs h req Hfail) as (_ & _ & ->). done.
    + unfold inputPreserved, loadContext. by rewrite Hnil.
  - intros Hfail. destruct (dispatch_failure fs h req Hfail) as (_ & ? & ?). done.
  - apply dispatch_success.
  - apply dispatch_scalars.
  - apply dispatch_scalars.
Qed.

End FileConnectorFacts.

(* ===================================================================== *)
(** * Properties of the connector manager *)
(* ===================================================================== *)

Module ManagerFacts.
Import Go protocol Manager ManagerSpec GoFacts.

(** ** The definition store *)

Lemma lastNamed_snoc n ds d :
  lastNamed n (ds ++ [d]) = if decide (Name d = n) then Some d else lastNamed n ds.
Proof.
  unfold lastNamed. rewrite filter_app, filter_cons, filter_nil.
  destruct (decide (Name d = n)).
  - by rewrite last_snoc.
  - by rewrite app_nil_r.
Qed.

Lemma load_store_other h v l :
  l ∈ dom h → load (store h v).2 (Some l) = load h (Some l).
Proof.
  intros Hl. destruct v as [m|]; cbn; [|done].
  rewrite lookup_insert_ne; [done|]. intros <-. by apply (is_fresh (dom h)).
Qed.

Lemma load_store h v : load (store h v).2 (store h v).1 = v.
Proof.
  destruct v as [m|]; cbn; [|done]. by rewrite lookup_insert_eq.
Qed.

Lemma store_dom h v l : l ∈ dom h → l ∈ dom (store h v).2.
Proof.
  destruct v as [m|]; cbn; [|done]. rewrite dom_insert. set_solver.
Qed.

Lemma store_ref_dom h v l : (store h v).1 = Some l → l ∈ dom (store h v).2.
Proof.
  destruct v as [m|]; cbn; [|done]. intros [= <-]. rewrite dom_insert. set_solver.
Qed.

(** A directory entry that yields no definition adds at most a warning,
    and exactly one when it is a malformed record. *)
Lemma loadFile_skipped ld dir defs h log f :
  parseFile ld dir f = None →
  ∃ w, loadFile ld dir (defs, h, log) f = (defs, h, log ++ w) ∧
       length (filter (λ l, isWarning l = true) w)
       = (if malformed ld dir f then 1 else 0)%nat.
Proof.
  unfold malformed, parseFile, loadFile.
  destruct (decide (Ext f = ".json")) as [Hext|Hext].
  - rewrite (bool_decide_eq_true_2 _ Hext). cbn [andb].
    destruct (ReadFile ld (LJoin ld dir f)) as [err|data].
    { intros _. by eexists [_]. }
    destruct (Unmarshal ld data) as [err|d]; [|discriminate].
    intros _. by eexists [_].
  - rewrite (bool_decide_eq_false_2 _ Hext). intros _. exists [].
    by rewrite app_nil_r.
Qed.

(** A parsed record is stored under its name, its configuration map
    newly allocated. *)
Lemma loadFile_parsed ld dir defs h log f d :
  parseFile ld dir f = Some d →
  loadFile ld dir (defs, h, log) f
  = (<[Name d := mkDefinition (Name d) (ExecutablePathRelativeToConnectorsDir d)
                   (DefaultPort d) (store h (DefaultConfig d)).1]> defs,
     (store h (DefaultConfig d)).2, log ++ [Loaded (Name d)]) ∧
  malformed ld dir f = false.
Proof.
  unfold malformed, parseFile, loadFile.
  destruct (decide (Ext f = ".json")) as [Hext|Hext]; [|discriminate].
  destruct (ReadFile ld (LJoin ld dir f)) as [err|data]; [discriminate|].
  destruct (Unmarshal ld data) as [err|d']; [discriminate|].
  intros [= ->]. destruct (store h (DefaultConfig d)) as [cfg h'].
  split; [done|]. by rewrite andb_false_r.
Qed.

Lemma parsedDefinitions_snoc ld dir files f :
  parsedDefinitions ld dir (files ++ [f])
  = parsedDefinitions ld dir files
    ++ match parseFile ld dir f with Some d => [d] | None => [] end.
Proof.
  unfold parsedDefinitions. rewrite omap_app. f_equal.
Qed.

Lemma loadFile_loaded ld dir files acc f :
  loaded ld dir files acc → loaded ld dir (files ++ [f]) (loadFile ld dir acc f).
Proof.
  destruct acc as [[defs h] log]. intros (Hdom & Hlook & Hwarn).
  destruct (parseFile ld dir f) as [d|] eqn:Hp.
  - destruct (loadFile_parsed ld dir defs h log f d Hp) as [-> Hmal].
    unfold loaded. rewrite parsedDefinitions_snoc, Hp.
    split_and!.
    + intros n d' l Hn Hl. destruct (decide (Name d = n)) as [<-|Hne].
      * rewrite lookup_insert_eq in Hn. injection Hn as <-. cbn in Hl.
        by apply store_ref_dom.
      * rewrite lookup_insert_ne in Hn by done. apply store_dom. by eapply Hdom.
    + intros n. rewrite lastNamed_snoc.
      destruct (decide (Name d = n)) as [<-|Hne].
      * rewrite lookup_insert_eq. cbn. unfold loadDefinition. cbn.
        rewrite load_store. by destruct d.
      * rewrite lookup_insert_ne by done. rewrite <- Hlook.
        destruct (defs !! n) as [d'|] eqn:Hd'; cbn; [|done].
        f_equal. unfold loadDefinition. f_equal.
        destruct (DefaultConfig d') as [l|] eqn:Hl; [|done].
        apply load_store_other. by eapply Hdom.
    + rewrite !filter_app, !length_app, Hwarn.
      rewrite (filter_cons_False _ f) by (rewrite Hmal; discriminate).
      rewrite filter_cons_False by (cbn; discriminate). done.
  - destruct (loadFile_skipped ld dir defs h log f Hp) as (w & -> & Hw).
    unfold loaded. rewrite parsedDefinitions_snoc, Hp.
    rewrite app_nil_r. split_and!; [done..|].
    rewrite !filter_app, !length_app, Hwarn, Hw.
    destruct (malformed ld dir f) eqn:Hmal.
    + by rewrite (filter_cons_True _ f).
    + by rewrite (filter_cons_False _ f) by (rewrite Hmal; discriminate).
Qed.

Lemma foldl_loadFile_loaded ld dir h files :
  loaded ld dir files (foldl (loadFile ld dir) (∅, h, []) files).
Proof.
  induction files as [|f files IH] using rev_ind.
  - cbn. split_and!; [|done..]. intros n d l Hn. by rewrite lookup_empty in Hn.
  - rewrite foldl_snoc. by apply loadFile_loaded.
Qed.

(** C7.  Given the listing of the definitions directory,
    [NewConnectorManager] returns a manager (never an error) whatever
    the records contain: each unreadable or unparsable [.json] record is
    skipped with exactly one warning, and the table maps every name to
    the last successfully parsed definition carrying it and holds nothing
    else, so it is empty when no record parses.  The result is a function
    of the listing, hence the same for the same ordering. *)
Theorem NewConnectorManager_loads_parsed ld h definitionsDir connectorsBaseDir files :
  ReadDir ld definitionsDir = inr files →
  ∃ cm h' log,
    NewConnectorManager ld h definitionsDir connectorsBaseDir = inr (cm, h', log) ∧
    (∀ n, loadDefinition h' <$> connectorDefinitions cm !! n
          = lastNamed n (parsedDefinitions ld definitionsDir files)) ∧
    (parsedDefinitions ld definitionsDir files = [] → connectorDefinitions cm = ∅) ∧
    runningInstances cm = ∅ ∧
    length (filter (λ l, isWarning l = true) log)
    = length (filter (λ f, malformed ld definitionsDir f = true) files).
Proof.
  intros Hdir. unfold NewConnectorManager. rewrite Hdir.
  pose proof (foldl_loadFile_loaded ld definitionsDir h files) as Hinv.
  destruct (foldl (loadFile ld definitionsDir) (∅, h, []) files) as [[defs h'] log].
  destruct Hinv as (_ & Hlook & Hwarn).
  eexists _, _, _. split; [reflexivity|]. cbn. split_and!; [done| |done..].
  intros Hnone. apply map_eq. intros n. rewrite lookup_empty.
  specialize (Hlook n). rewrite Hnone in Hlook.
  by destruct (defs !! n).
Qed.

Lemma NewConnectorManager_loads_parsed_witness :
  ReadDir sampleLoader "defs"
  = inr ["a.json"; "bad.json"; "notes.txt"; "b.json"; "locked.json"] ∧
  ∃ cm h' log,
    NewConnectorManager sampleLoader ∅ "defs" "connectors" = inr (cm, h', log) ∧
    (∀ n, loadDefinition h' <$> connectorDefinitions cm !! n
          = lastNamed n (parsedDefinitions sampleLoader "defs"
              ["a.json"; "bad.json"; "notes.txt"; "b.json"; "locked.json"])) ∧
    (parsedDefinitions sampleLoader "defs"
       ["a.json"; "bad.json"; "notes.txt"; "b.json"; "locked.json"] = []
     → connectorDefinitions cm = ∅) ∧
    runningInstances cm = ∅ ∧
    length (filter (λ l, isWarning l = true) log)
    = length (filter (λ f, malformed sampleLoader "defs" f = true)
                ["a.json"; "bad.json"; "notes.txt"; "b.json"; "locked.json"]).
Proof.
  split; [reflexivity|].
  apply (NewConnectorManager_loads_parsed sampleLoader ∅ "defs" "connectors").
  reflexivity.
Defined.

(** On the sample directory: the two good records share the name [F] and
    the later one is kept; the two malformed records are reported. *)
Example NewConnectorManager_sample :
  match NewConnectorManager sampleLoader ∅ "defs" "connectors" with
  | inr (cm, h', log) =>
      loadDefinition h' <$> connectorDefinitions cm !! "F" = Some defB ∧
      size (connectorDefinitions cm) = 1%nat ∧
      log = [Loaded "F"; WarnParse "defs/bad.json" "unexpected end of JSON input";
             Loaded "F"; WarnRead "defs/locked.json" "permission denied"]
  | inl _ => False
  end.
Proof. vm_compute. split_and!; reflexivity. Qed.

(** An unreadable directory is the only failure of the load. *)
Lemma NewConnectorManager_no_directory ld h definitionsDir connectorsBaseDir err :
  ReadDir ld definitionsDir = inl err →
  NewConnectorManager ld h definitionsDir connectorsBaseDir
  = inl ("failed to read connector definitions directory '"
           +:+ definitionsDir +:+ "': " +:+ err).
Proof. intros Hdir. unfold NewConnectorManager. by rewrite Hdir. Qed.

(** ** The supervisor *)

Lemma exitedOrNil_stillRunning i : exitedOrNil i = negb (stillRunning i).
Proof.
  unfold exitedOrNil, stillRunning.
  destruct (Cmd i) as [c|]; [|done].
  destruct (ProcessState c) as [ps|]; [|done]. by rewrite negb_involutive.
Qed.

(** A healthy recorded instance is returned as it is. *)
Lemma getOrStartInstance_healthy os s connectorName instance :
  runningInstances (manager s) !! connectorName = Some instance →
  stillRunning instance = true →
  getOrStartInstance os s connectorName = (inr instance, s).
Proof.
  intros Hin Hrun. unfold getOrStartInstance.
  rewrite Hin, exitedOrNil_stillRunning, Hrun. done.
Qed.

(** A returned instance is the one recorded under the name and is
    running; the definitions and the store are as before. *)
Lemma getOrStartInstance_inr os s connectorName instance s1 :
  getOrStartInstance os s connectorName = (inr instance, s1) →
  runningInstances (manager s1) !! connectorName = Some instance ∧
  stillRunning instance = true ∧
  connectorDefinitions (manager s1) = connectorDefinitions (manager s) ∧
  memory s1 = memory s.
Proof.
  unfold getOrStartInstance.
  destruct (runningInstances (manager s) !! connectorName) as [i0|] eqn:Hin.
  - rewrite exitedOrNil_stillRunning.
    destruct (stillRunning i0) eqn:Hrun; cbn.
    { intros [= <- <-]. done. }
    unfold startLocked. rewrite Hin, Hrun.
    destruct (connectorDefinitions (manager s) !! connectorName) as [def|]; [|discriminate].
    destruct (locateExecutable _ _) as [err|path]; [discriminate|].
    destruct (Start os path _) as [err|pid]; [discriminate|].
    intros [= <- <-]. cbn. by rewrite lookup_insert_eq.
  - unfold startLocked. rewrite Hin.
    destruct (connectorDefinitions (manager s) !! connectorName) as [def|]; [|discriminate].
    destruct (locateExecutable _ _) as [err|path]; [discriminate|].
    destruct (Start os path _) as [err|pid]; [discriminate|].
    intros [= <- <-]. cbn. by rewrite lookup_insert_eq.
Qed.

(** A failed resolution or start changes nothing and reports a cause. *)
Lemma getOrStartInstance_inl os s connectorName err s1 :
  getOrStartInstance os s connectorName = (inl err, s1) →
  s1 = s ∧ err ≠ "".
Proof.
  unfold getOrStartInstance, startLocked.
  destruct (runningInstances (manager s) !! connectorName) as [i0|] eqn:Hin.
  - rewrite exitedOrNil_stillRunning.
    destruct (stillRunning i0) eqn:Hrun; cbn; [discriminate|].
    destruct (connectorDefinitions (manager s) !! connectorName) as [def|].
    2:{ intros [= <- <-]. done. }
    unfold locateExecutable.
    destruct (Stat os _).
    + destruct (Start os _ _) as [e|pid]; [|discriminate]. intros [= <- <-]. done.
    + destruct (Stat os _).
      * destruct (Start os _ _) as [e|pid]; [|discriminate]. intros [= <- <-]. done.
      * intros [= <- <-]. done.
      * intros [= <- <-]. done.
    + destruct (Start os _ _) as [e|pid]; [|discriminate]. intros [= <- <-]. done.
  - destruct (connectorDefinitions (manager s) !! connectorName) as [def|].
    2:{ intros [= <- <-]. done. }
    unfold locateExecutable.
    destruct (Stat os _).
    + destruct (Start os _ _) as [e|pid]; [|discriminate]. intros [= <- <-]. done.
    + destruct (Stat os _).
      * destruct (Start os _ _) as [e|pid]; [|discriminate]. intros [= <- <-]. done.
      * intros [= <- <-]. done.
      * intros [= <- <-]. done.
    + destruct (Start os _ _) as [e|pid]; [|discriminate]. intros [= <- <-]. done.
Qed.

(** ** Invoke *)

Lemma deref_make_other h o : deref (make h).2 (Some o) = deref h (Some o).
Proof.
  unfold deref, make. cbn. destruct (decide (fresh (dom h) = o)) as [<-|Hne].
  - rewrite lookup_insert_eq. cbn.
    by rewrite (not_elem_of_dom_1 h (fresh (dom h)) (is_fresh (dom h))).
  - by rewrite lookup_insert_ne.
Qed.

Lemma load_deref h r : default ∅ (load h r) = deref h r.
Proof. by destruct r. Qed.

(** The merge of lines 169-177 yields the override entries over the
    defaults. *)
Lemma mergeConfig_effective h defaults override :
  load (mergeConfig h defaults override).2 (mergeConfig h defaults override).1
  = effectiveConfig (load h defaults) (load h override).
Proof.
  unfold mergeConfig, effectiveConfig.
  destruct override as [o|]; [|done].
  change (load h (Some o)) with (Some (deref h (Some o))).
  rewrite load_deref.
  destruct defaults as [l|].
  - cbn [fst snd]. unfold load at 1. f_equal.
    change (default ∅ (assign_all h l (map_to_list (deref h (Some o))) !! l))
      with (deref (assign_all h l (map_to_list (deref h (Some o)))) (Some l)).
    rewrite deref_assign_all. apply map_eq. intros k.
    rewrite foldl_insert_map_to_list, lookup_union.
    generalize (deref h (Some o) !! k), (deref h (Some l) !! k).
    intros [x|] [y|]; reflexivity.
  - destruct (make h) as [l h1] eqn:Hmk.
    assert (Hl : l = (make h).1) by (by rewrite Hmk).
    assert (Hh1 : h1 = (make h).2) by (by rewrite Hmk).
    cbn [fst snd]. unfold load at 1. f_equal.
    change (default ∅ (assign_all h1 l (map_to_list (deref h1 (Some o))) !! l))
      with (deref (assign_all h1 l (map_to_list (deref h1 (Some o)))) (Some l)).
    rewrite deref_assign_all. apply map_eq. intros k.
    rewrite foldl_insert_map_to_list, lookup_union. subst h1.
    rewrite deref_make_other.
    replace (deref (make h).2 (Some l)) with (∅ : mapobj).
    2:{ subst l. unfold deref, make. cbn. by rewrite lookup_insert_eq. }
    cbn [deref]. rewrite lookup_empty. generalize (deref h (Some o) !! k).
    intros [x|]; reflexivity.
Qed.

Lemma effectiveConfig_lookup defaults override k :
  default ∅ (effectiveConfig defaults override) !! k
  = match default ∅ override !! k with
    | Some v => Some v
    | None => default ∅ defaults !! k
    end.
Proof.
  unfold effectiveConfig. destruct override as [o|]; cbn.
  - rewrite lookup_union. generalize (o !! k), (default ∅ defaults !! k).
    intros [x|] [y|]; reflexivity.
  - by rewrite lookup_empty.
Qed.





(** A parameter the encoder rejects (an infinity) fails the call at the
    encode step, after the configuration has been merged. *)
Example Invoke_encode_failure :
  let h := <[ 4%positive := {[ "ratio" := AFloat64 (S754_infinity false) ]} ]>
             sampleMemory in
  (Invoke launcherOk networkJson
          (mkState (manager sampleState) h []) "F" "create" None
          (Some 4%positive) callerContext).1
  = (failure "failed to send request to connector 'F': json: unsupported value",
     Some "json: unsupported value").
Proof. reflexivity. Qed.

(** The sample host is what [NewConnectorManager] builds from the
    directory holding the record of [F], once the caller has made its
    override and parameter maps. *)
Example sampleState_loaded :
  ∃ h1 h2,
    NewConnectorManager recordLoader ∅ "defs" "connectors"
    = inr (manager sampleState, h1, [Loaded "F"]) ∧
    store h1 (Some callerOverride) = (Some 2%positive, h2) ∧
    store h2 (Some callerParams) = (Some 3%positive, memory sampleState).
Proof.
  exists {[ 1%positive := {[ "baseDirectory" := AString "/a" ]} ]},
         {[ 1%positive := {[ "baseDirectory" := AString "/a" ]};
            2%positive := callerOverride ]}.
  split_and!; reflexivity.
Qed.

(** C2: the code at the failing input.  On the host just loaded, one
    [Invoke] with an override rewrites the [DefaultConfig] of the
    definition of [F] stored in the table, and the next call, made
    without override, sends the overridden values. *)
Theorem Invoke_override_rewrites_definition :
  let s1 := (Invoke launcherOk networkOk sampleState "F" "create"
                    (Some 2%positive) (Some 3%positive) callerContext).2 in
  let s2 := (Invoke launcherOk networkOk s1 "F" "read"
                    None (Some 3%positive) callerContext).2 in
  loadDefinition (memory sampleState)
    <$> connectorDefinitions (manager sampleState) !! "F"
  = Some (mkDefinition "F" "file/worker" 9091
            (Some {[ "baseDirectory" := AString "/a" ]})) ∧
  loadDefinition (memory s1) <$> connectorDefinitions (manager s1) !! "F"
  = Some (mkDefinition "F" "file/worker" 9091
            (Some {[ "baseDirectory" := AString "/b"; "x" := AString "y" ]})) ∧
  (ConnectorConfig <$> (last (trace s2) ≫=
      λ e, match e with EvEncode req => Some req | _ => None end))
  = Some (Some {[ "baseDirectory" := AString "/b"; "x" := AString "y" ]}).
Proof.
  cbv zeta. split_and!; reflexivity.
Qed.

(** Without an override [Invoke] writes to no existing map, so every
    stored definition denotes what it did. *)
Lemma Invoke_without_override_keeps_store os net s connectorName operationName
    params ctx l :
  l ∈ dom (memory s) →
  memory (Invoke os net s connectorName operationName None params ctx).2 !! l
  = memory s !! l.
Proof.
  intros Hl. unfold Invoke.
  destruct (getOrStartInstance os s connectorName) as [[err|instance] s1] eqn:Hget.
  { by destruct (getOrStartInstance_inl _ _ _ _ _ Hget) as [-> _]. }
  destruct (getOrStartInstance_inr _ _ _ _ _ Hget) as (_ & _ & _ & Hmem).
  destruct (DialTimeout net _); [by rewrite <- Hmem|].
  cbn [mergeConfig].
  destruct (Encode net _); [by rewrite <- Hmem|].
  destruct (Decode net) as [err|r]; [by rewrite <- Hmem|].
  unfold storeResponse. cbn [memory].
  destruct (store (memory s1) _) as [props h] eqn:Hst. cbn [memory snd].
  assert (h = (store (memory s1) (Properties (MessageContextOut r))).2) as ->
    by (by rewrite Hst).
  rewrite Hmem in *. clear Hst.
  destruct (Properties (MessageContextOut r)) as [m|]; cbn; [|done].
  apply lookup_insert_ne. intros <-. by apply (is_fresh (dom (memory s))).
Qed.

(** Within one call, the request [Invoke] encodes carries, as
    [ConnectorConfig], the override entries over what the map of the
    instance's defaults holds when the call is made: each key of the
    override maps to the override's value and each key found only in
    that map to the value it holds there; with a nil override the map
    goes out as it is. *)
Lemma Invoke_sends_effective_config os net s connectorName operationName
    override params ctx instance s1 :
  getOrStartInstance os s connectorName = (inr instance, s1) →
  DialTimeout net ("127.0.0.1:" +:+ itoa (Port instance)) = None →
  let defaults := DefaultConfig (Definition_ instance) in
  (∃ req,
     trace (Invoke os net s connectorName operationName override params ctx).2
     = trace s1 ++ [EvEncode req] ∧
     ConnectorConfig req
     = effectiveConfig (load (memory s1) defaults) (load (memory s1) override) ∧
     ∀ k, default ∅ (ConnectorConfig req) !! k
          = match index (memory s1) override k with
            | Some v => Some v
            | None => index (memory s1) defaults k
            end) ∧
  effectiveConfig (Some {[ "baseDirectory" := AString "/a" ]})
                  (Some {[ "baseDirectory" := AString "/b"; "x" := AString "y" ]})
  = Some {[ "baseDirectory" := AString "/b"; "x" := AString "y" ]}.
Proof.
  intros Hget Hdial. cbv zeta. split; [|vm_compute; reflexivity].
  unfold Invoke. rewrite Hget, Hdial.
  pose proof (mergeConfig_effective (memory s1)
                (DefaultConfig (Definition_ instance)) override) as Hmerge.
  destruct (mergeConfig _ _ _) as [cfg h]. cbn [fst snd] in Hmerge.
  exists (loadRequest h (mkRequest connectorName operationName cfg params ctx)).
  split_and!.
  - destruct (Encode net _); [done|].
    destruct (Decode net) as [err|r]; [done|].
    by destruct (storeResponse _ r).
  - exact Hmerge.
  - intros k. cbn [loadRequest ConnectorConfig]. rewrite Hmerge.
    rewrite effectiveConfig_lookup. unfold index. by rewrite !load_deref.
Qed.

Lemma Invoke_sends_effective_config_witness :
  getOrStartInstance launcherOk sampleState "F"
  = (inr (mkInstance sampleDefinition
            (Some (mkCmd "connectors/file/worker" ["-port=9091"] (Some 4242%Z) None))
            9091),
     mkState (mkManager {[ "F" := sampleDefinition ]}
                {[ "F" := mkInstance sampleDefinition
                     (Some (mkCmd "connectors/file/worker" ["-port=9091"]
                                  (Some 4242%Z) None)) 9091 ]}
                "connectors")
             sampleMemory
             [EvStart "connectors/file/worker" ["-port=9091"] 4242]) ∧
  ∃ req,
    ConnectorConfig req
    = Some {[ "baseDirectory" := AString "/b"; "x" := AString "y" ]} ∧
    last (trace (Invoke launcherOk networkOk sampleState "F" "create"
                        (Some 2%positive) (Some 3%positive) callerContext).2)
    = Some (EvEncode req).
Proof.
  assert (Hget : getOrStartInstance launcherOk sampleState "F"
    = (inr (mkInstance sampleDefinition
              (Some (mkCmd "connectors/file/worker" ["-port=9091"] (Some 4242%Z) None))
              9091),
       mkState (mkManager {[ "F" := sampleDefinition ]}
                  {[ "F" := mkInstance sampleDefinition
                       (Some (mkCmd "connectors/file/worker" ["-port=9091"]
                                    (Some 4242%Z) None)) 9091 ]}
                  "connectors")
               sampleMemory
               [EvStart "connectors/file/worker" ["-port=9091"] 4242]))
    by (vm_compute; reflexivity).
  split; [exact Hget|].
  destruct (Invoke_sends_effective_config launcherOk networkOk sampleState
              "F" "create" (Some 2%positive) (Some 3%positive) callerContext
              _ _ Hget eq_refl) as [(req & Htrace & Hcfg & _) _].
  exists req. split.
  - rewrite Hcfg. vm_compute. reflexivity.
  - rewrite Htrace. apply last_snoc.
Defined.

(** After the merge of an override that holds [v] under [k], the
    defaults' map holds it too, whatever the exchange then does. *)
Lemma Invoke_leaves_override os net s connectorName operationName o params ctx
    instance s0 l k v :
  getOrStartInstance os s connectorName = (inr instance, s0) →
  DialTimeout net ("127.0.0.1:" +:+ itoa (Port instance)) = None →
  DefaultConfig (Definition_ instance) = Some l →
  index (memory s) (Some o) k = Some v →
  let s1 := (Invoke os net s connectorName operationName (Some o) params ctx).2 in
  manager s1 = manager s0 ∧ index (memory s1) (Some l) k = Some v.
Proof.
  intros Hget Hdial Hl Hk. cbv zeta.
  destruct (getOrStartInstance_inr _ _ _ _ _ Hget) as (_ & _ & _ & Hmem).
  unfold Invoke. rewrite Hget, Hdial, Hl. unfold mergeConfig. rewrite Hmem.
  assert (Hh1 : index (assign_all (memory s) l (map_to_list (deref (memory s) (Some o))))
                      (Some l) k = Some v).
  { unfold index. rewrite deref_assign_all, foldl_insert_map_to_list.
    unfold index in Hk. by rewrite Hk. }
  revert Hh1. generalize (assign_all (memory s) l (map_to_list (deref (memory s) (Some o)))).
  intros h1 Hh1.
  destruct (Encode net _); [done|].
  destruct (Decode net) as [err|r]; [done|].
  cbn [memory manager trace]. unfold storeResponse.
  destruct (Properties (MessageContextOut r)) as [m|]; cbn; [|done].
  split; [done|]. unfold index, deref in *.
  rewrite lookup_insert_ne; [done|].
  intros <-. rewrite (not_elem_of_dom_1 h1 _ (is_fresh (dom h1))) in Hh1.
  cbn in Hh1. by rewrite lookup_empty in Hh1.
Qed.

(** C3: the code at the failing inputs.  The configuration sent is not
    always the definition's default configuration under the override of
    the call: once a call has been made with an override that holds [v]
    under [k], where the defaults held something else or nothing, a
    later call for the same connector made without override still sends
    [v] under [k], so what it sends is not the default configuration
    (as it stood before the first call) under a nil override. *)
Theorem Invoke_sends_earlier_override
    os net os' net' s connectorName operationName operationName' o params params'
    ctx ctx' instance s0 l k v :
  getOrStartInstance os s connectorName = (inr instance, s0) →
  DialTimeout net ("127.0.0.1:" +:+ itoa (Port instance)) = None →
  DialTimeout net' ("127.0.0.1:" +:+ itoa (Port instance)) = None →
  DefaultConfig (Definition_ instance) = Some l →
  index (memory s) (Some o) k = Some v →
  index (memory s) (Some l) k ≠ Some v →
  let s1 := (Invoke os net s connectorName operationName (Some o) params ctx).2 in
  let s2 := (Invoke os' net' s1 connectorName operationName' None params' ctx').2 in
  let defaultConfig := load (memory s) (Some l) in
  ∃ req,
    trace s2 = trace s1 ++ [EvEncode req] ∧
    default ∅ (ConnectorConfig req) !! k = Some v ∧
    default ∅ (effectiveConfig defaultConfig None) !! k ≠ Some v ∧
    ConnectorConfig req ≠ effectiveConfig defaultConfig None.
Proof.
  intros Hget Hdial Hdial' Hl Hk Hne. cbv zeta.
  destruct (Invoke_leaves_override os net s connectorName operationName o params ctx
              instance s0 l k v Hget Hdial Hl Hk) as [Hm Hk1].
  destruct (getOrStartInstance_inr _ _ _ _ _ Hget) as (Hin & Hrun & _ & _).
  set (s1 := (Invoke os net s connectorName operationName (Some o) params ctx).2) in *.
  assert (Hget' : getOrStartInstance os' s1 connectorName = (inr instance, s1)).
  { apply getOrStartInstance_healthy; [by rewrite Hm|done]. }
  assert (Hclaimed : default ∅ (effectiveConfig (load (memory s) (Some l)) None) !! k
                     ≠ Some v).
  { exact Hne. }
  unfold Invoke at 1. rewrite Hget', Hdial', Hl. cbn [mergeConfig].
  eexists. split; [|split; [|split; [exact Hclaimed|]]].
  - destruct (Encode net' _); [reflexivity|].
    destruct (Decode net') as [err|r]; [reflexivity|].
    by destruct (storeResponse _ r).
  - exact Hk1.
  - intros Heq. apply Hclaimed. rewrite <- Heq. exact Hk1.
Qed.

Lemma Invoke_sends_earlier_override_witness :
  let s1 := (Invoke launcherOk networkOk sampleState "F" "create"
                    (Some 2%positive) (Some 3%positive) callerContext).2 in
  let s2 := (Invoke launcherOk networkOk s1 "F" "read"
                    None (Some 3%positive) callerContext).2 in
  load (memory sampleState) (Some 1%positive)
  = Some {[ "baseDirectory" := AString "/a" ]} ∧
  ∃ req,
    trace s2 = trace s1 ++ [EvEncode req] ∧
    default ∅ (ConnectorConfig req) !! "baseDirectory" = Some (AString "/b") ∧
    default ∅ (effectiveConfig (load (memory sampleState) (Some 1%positive)) None)
      !! "baseDirectory" ≠ Some (AString "/b") ∧
    ConnectorConfig req
    ≠ effectiveConfig (load (memory sampleState) (Some 1%positive)) None.
Proof.
  cbv zeta. split; [reflexivity|].
  apply (Invoke_sends_earlier_override launcherOk networkOk launcherOk networkOk
           sampleState "F" "create" "read" 2%positive (Some 3%positive)
           (Some 3%positive) callerContext callerContext
           (mkInstance sampleDefinition
              (Some (mkCmd "connectors/file/worker" ["-port=9091"] (Some 4242%Z) None))
              9091)
           (mkState (mkManager {[ "F" := sampleDefinition ]}
                  {[ "F" := mkInstance sampleDefinition
                       (Some (mkCmd "connectors/file/worker" ["-port=9091"]
                                    (Some 4242%Z) None)) 9091 ]}
                  "connectors")
               sampleMemory
               [EvStart "connectors/file/worker" ["-port=9091"] 4242])
           1%positive "baseDirectory" (AString "/b")).
  - vm_compute. reflexivity.
  - reflexivity.
  - reflexivity.
  - reflexivity.
  - vm_compute. reflexivity.
  - vm_compute. discriminate.
Defined.



(** ** ShutdownAll *)

(** C9.  [ShutdownAll] is total, returns no error, and leaves no tracked
    instance whatever the outcome of the signals; the definitions and the
    store are as before.  A second call finds nothing to terminate: it
    performs no action at all and again leaves no tracked instance. *)
Theorem ShutdownAll_idempotent sg sg' s :
  runningInstances (manager (ShutdownAll sg s)) = ∅ ∧
  connectorDefinitions (manager (ShutdownAll sg s)) = connectorDefinitions (manager s) ∧
  ShutdownAll sg' (ShutdownAll sg s) = ShutdownAll sg s ∧
  runningInstances (manager (ShutdownAll sg' (ShutdownAll sg s))) = ∅.
Proof.
  unfold ShutdownAll. cbn. rewrite map_to_list_empty. cbn. done.
Qed.

(** On a host with one running worker: the first call interrupts it and
    waits for it, the second does nothing. *)
Example ShutdownAll_sample :
  let s1 := (Invoke launcherOk networkOk sampleState "F" "create" None
                    (Some 3%positive) callerContext).2 in
  size (runningInstances (manager s1)) = 1%nat ∧
  trace (ShutdownAll signalsOk s1)
  = trace s1 ++ [EvSignalInterrupt 4242; EvWait 4242] ∧
  trace (ShutdownAll signalsOk (ShutdownAll signalsOk s1))
  = trace (ShutdownAll signalsOk s1).
Proof. vm_compute. split_and!; reflexivity. Qed.

End ManagerFacts.

(* ===================================================================== *)
(** * Properties of concurrent callers of getOrStartInstance *)
(* ===================================================================== *)

Module ConcurrentFacts.
Import Go protocol Manager ManagerSpec Concurrent ConcurrentSpec ManagerFacts.

Section callers.
Context (connectorName : string) (oss : list Launcher) (s0 : state).

Lemma threadsSatisfy_insert (P : nat → pc → Prop) sh w sh' w' ts i p' :
  threadsSatisfy P (mkConfig sh w ts) → P i p' →
  threadsSatisfy P (mkConfig sh' w' (<[i := p']> ts)).
Proof.
  unfold threadsSatisfy. cbn. intros Hall Hp j p Hj.
  apply list_lookup_insert_Some in Hj as [(-> & <- & _)|(_ & Hj)]; eauto.
Qed.

Lemma threadsSatisfy_mono (P Q : nat → pc → Prop) c :
  (∀ j p, threads c !! j = Some p → P j p → Q j p) →
  threadsSatisfy P c → threadsSatisfy Q c.
Proof. unfold threadsSatisfy. eauto. Qed.

Lemma spawnCount_start sh cm path args pid :
  spawnCount (mkState cm (memory sh) (trace sh ++ [EvStart path args pid]))
  = S (spawnCount sh).
Proof.
  unfold spawnCount. cbn [trace]. rewrite filter_app, length_app.
  rewrite filter_cons_True by done. rewrite filter_nil. cbn. lia.
Qed.

Lemma work_insert ts i p p' :
  ts !! i = Some p → (remaining p' < remaining p)%nat →
  (list_sum (remaining <$> <[i := p']> ts) < list_sum (remaining <$> ts))%nat.
Proof.
  revert i. induction ts as [|q ts IH]; intros [|i] Hi Hlt; try done.
  - injection Hi as ->. cbn. lia.
  - specialize (IH i Hi Hlt).
    change (remaining q + list_sum (remaining <$> <[i := p']> ts)
            < remaining q + list_sum (remaining <$> ts))%nat.
    lia.
Qed.


(** A move that stays on the same side of the lock. *)
Lemma lockOwned_same sh sh' w ts i p p' :
  ts !! i = Some p → holdsLock p' = holdsLock p →
  lockOwned (mkConfig sh w ts) → lockOwned (mkConfig sh' w (<[i := p']> ts)).
Proof.
  intros Hi Hsame [Hheld Hwriter]. split.
  - eapply threadsSatisfy_insert; [exact Hheld|]. cbn. rewrite Hsame.
    exact (Hheld i p Hi).
  - cbn in *. intros j Hj. destruct (Hwriter j Hj) as (q & Hq & Hhold).
    destruct (decide (i = j)) as [->|Hne].
    + exists p'. rewrite list_lookup_insert_eq by (by eapply lookup_lt_Some).
      split; [done|]. rewrite Hsame. congruence.
    + exists q. by rewrite list_lookup_insert_ne.
Qed.

Lemma lockOwned_acquire sh ts i p :
  ts !! i = Some p →
  lockOwned (mkConfig sh None ts) →
  lockOwned (mkConfig sh (Some i) (<[i := Rechecking]> ts)).
Proof.
  intros Hi [Hheld _]. split.
  - intros j q Hj. cbn in *. intros Hhold.
    apply list_lookup_insert_Some in Hj as [(-> & _ & _)|(_ & Hj)]; [done|].
    by specialize (Hheld j q Hj Hhold).
  - cbn. intros j [= <-]. exists Rechecking.
    rewrite list_lookup_insert_eq by (by eapply lookup_lt_Some). done.
Qed.

Lemma lockOwned_release sh w ts i r :
  ts !! i = Some (Returning r) →
  lockOwned (mkConfig sh w ts) →
  lockOwned (mkConfig sh None (<[i := Done r]> ts)).
Proof.
  intros Hi [Hheld _]. split; [|done].
  intros j q Hj. cbn in *. intros Hhold.
  apply list_lookup_insert_Some in Hj as [(-> & <- & _)|(Hne & Hj)]; [done|].
  pose proof (Hheld j q Hj Hhold) as Hwj.
  pose proof (Hheld i _ Hi eq_refl) as Hwi. congruence.
Qed.

(** A move that leaves the shared state alone. *)
Lemma phase_move sh w w' ts i p p' :
  ts !! i = Some p →
  (noHealthyInstance (manager sh) connectorName → beforeSpawn p → beforeSpawn p') →
  (∀ instance, runningInstances (manager sh) !! connectorName = Some instance →
               stillRunning instance = true →
               afterSpawn instance p → afterSpawn instance p') →
  phase connectorName s0 (mkConfig sh w ts) →
  phase connectorName s0 (mkConfig sh w' (<[i := p']> ts)).
Proof.
  intros Hi HA HB [(Hcount & Hnone & Hall)|(instance & Hcount & Hin & Hrun & Hall)].
  - left. split_and!; [done..|].
    eapply threadsSatisfy_insert; [exact Hall|]. apply HA; [done|]. exact (Hall i p Hi).
  - right. exists instance. split_and!; [done..|].
    eapply threadsSatisfy_insert; [exact Hall|]. apply (HB instance); [done..|].
    exact (Hall i p Hi).
Qed.

Lemma resolved_move sh sh' w w' ts i os p p' :
  oss !! i = Some os → ts !! i = Some p →
  (launchable (manager s0) connectorName os →
   onCourse connectorName (manager s0) os p →
   onCourse connectorName (manager s0) os p') →
  resolved connectorName (manager s0) oss (mkConfig sh w ts) →
  resolved connectorName (manager s0) oss (mkConfig sh' w' (<[i := p']> ts)).
Proof.
  intros Hos Hi Hmove Hres.
  eapply threadsSatisfy_insert; [exact Hres|]. cbn.
  intros os' Hos' Hl. rewrite Hos in Hos'. injection Hos' as <-.
  apply Hmove; [done|]. exact (Hres i p Hi os Hos Hl).
Qed.

(** The launch itself: the first one recorded ends the phase in which
    nothing was started; there is no second one. *)
Lemma phase_launch sh w ts i def path args pid :
  ts !! i = Some (Launching def path) →
  lockOwned (mkConfig sh w ts) →
  phase connectorName s0 (mkConfig sh w ts) →
  let cmd := mkCmd path args (Some pid) None in
  let newInstance := mkInstance def (Some cmd) (DefaultPort def) in
  phase connectorName s0
    (mkConfig
       (mkState (set_runningInstances (manager sh)
                   (<[connectorName := newInstance]> (runningInstances (manager sh))))
                (memory sh) (trace sh ++ [EvStart path args pid]))
       w (<[i := Returning (inr newInstance)]> ts)).
Proof.
  intros Hi [Hheld _] [(Hcount & Hnone & Hall)|(instance & _ & _ & _ & Hall)].
  2:{ destruct (Hall i _ Hi). }
  cbv zeta. right. eexists. split_and!.
  - cbn [shared] in *. rewrite spawnCount_start. by rewrite Hcount.
  - cbn. by rewrite lookup_insert_eq.
  - done.
  - intros j q Hj. cbn in Hj.
    apply list_lookup_insert_Some in Hj as [(-> & <- & _)|(Hne & Hj)]; [done|].
    pose proof (Hall j q Hj) as Hq. cbn in Hq.
    pose proof (Hheld j q Hj) as Hlq. pose proof (Hheld i _ Hi eq_refl) as Hli.
    cbn in Hlq, Hli.
    destruct q as [ | [x|] | | | | | [|] | [|] ]; cbn in *; try done;
      try (specialize (Hlq eq_refl); congruence).
    intros Hx. congruence.
Qed.

Local Ltac open_invariant :=
  unfold invariant, staticPart, set_pc, set_runningInstances;
  cbn [threads shared writer manager memory trace connectorDefinitions
       connectorsBaseDir];
  split_and!; [by rewrite length_insert|done|done|..].

(** One move keeps the invariant. *)
Lemma step_invariant os i c c' :
  oss !! i = Some os →
  invariant connectorName oss s0 c →
  step connectorName os i c = Some c' →
  invariant connectorName oss s0 c'.
Proof.
  intros Hos (Hlen & [Hdefs Hbase] & Hlock & Hphase & Hres) Hstep.
  destruct c as [sh w ts]. unfold step in Hstep. cbn [threads shared writer] in *.
  destruct (ts !! i) as [p|] eqn:Hi; [|discriminate].
  destruct p as [ | r | | | | def path | r | r ].
  - (* line 77: the read under RLock *)
    destruct w; [discriminate|]. injection Hstep as <-. open_invariant.
    + by eapply lockOwned_same.
    + eapply phase_move; [exact Hi| | |exact Hphase].
      * intros Hnone _. exact Hnone.
      * intros instance Hin _ _. rewrite Hin. done.
    + eapply resolved_move; [exact Hos|exact Hi| |exact Hres]. done.
  - (* line 81: the health check on what was read *)
    assert (∃ p', c' = set_pc (mkConfig sh w ts) i p' ∧
                  (p' = WantLock ∨
                   ∃ x, r = Some x ∧ stillRunning x = true ∧ p' = Done (inr x)))
      as (p' & -> & Hp').
    { destruct r as [x|]; [|injection Hstep as <-; eauto].
      rewrite exitedOrNil_stillRunning in Hstep.
      destruct (stillRunning x) eqn:Hx; injection Hstep as <-; eauto 10. }
    open_invariant.
    + eapply lockOwned_same; [exact Hi| |exact Hlock].
      by destruct Hp' as [->|(x & _ & _ & ->)].
    + eapply phase_move; [exact Hi| | |exact Hphase].
      * intros _ Hr. destruct Hp' as [->|(x & -> & Hx & ->)]; [done|].
        cbn in Hr. congruence.
      * intros instance _ _ Hr. destruct Hp' as [->|(x & -> & Hx & ->)]; [done|].
        cbn in *. auto.
    + eapply resolved_move; [exact Hos|exact Hi| |exact Hres].
      intros _ _. by destruct Hp' as [->|(x & _ & _ & ->)].
  - (* line 92: Lock *)
    destruct w; [discriminate|]. injection Hstep as <-. open_invariant.
    + by eapply lockOwned_acquire.
    + eapply phase_move; [exact Hi| | |exact Hphase]; done.
    + eapply resolved_move; [exact Hos|exact Hi| |exact Hres]. done.
  - (* line 96: the re-check *)
    assert (∃ p', c' = set_pc (mkConfig sh w ts) i p' ∧
                  ((p' = Resolving ∧ noHealthyInstance (manager sh) connectorName) ∨
                   ∃ x, runningInstances (manager sh) !! connectorName = Some x ∧
                        stillRunning x = true ∧ p' = Returning (inr x)))
      as (p' & -> & Hp').
    { unfold noHealthyInstance.
      destruct (runningInstances (manager sh) !! connectorName) as [x|];
        [|injection Hstep as <-; eauto].
      destruct (stillRunning x) eqn:Hx; injection Hstep as <-; eauto 10. }
    open_invariant.
    + eapply lockOwned_same; [exact Hi| |exact Hlock].
      by destruct Hp' as [[-> _]|(x & _ & _ & ->)].
    + eapply phase_move; [exact Hi| | |exact Hphase].
      * intros Hnone _. destruct Hp' as [[-> _]|(x & Hin & Hx & ->)]; [done|].
        unfold noHealthyInstance in Hnone. rewrite Hin in Hnone. congruence.
      * intros instance Hin Hrun _.
        destruct Hp' as [[-> Hnone]|(x & Hin' & Hx & ->)].
        -- unfold noHealthyInstance in Hnone. rewrite Hin in Hnone. congruence.
        -- cbn. congruence.
    + eapply resolved_move; [exact Hos|exact Hi| |exact Hres].
      intros _ _. by destruct Hp' as [[-> _]|(x & _ & _ & ->)].
  - (* line 101: definition and executable *)
    rewrite Hdefs, Hbase in Hstep.
    destruct (connectorDefinitions (manager s0) !! connectorName) as [def|] eqn:Hdef.
    + destruct (locateExecutable os _) as [err|path] eqn:Hloc;
        injection Hstep as <-; open_invariant.
      * by eapply lockOwned_same.
      * eapply phase_move; [exact Hi| | |exact Hphase]; done.
      * eapply resolved_move; [exact Hos|exact Hi| |exact Hres].
        intros (def' & path' & pid & Hd & Hl & _) _. congruence.
      * by eapply lockOwned_same.
      * eapply phase_move; [exact Hi| | |exact Hphase]; done.
      * eapply resolved_move; [exact Hos|exact Hi| |exact Hres]. intros _ _. done.
    + injection Hstep as <-. open_invariant.
      * by eapply lockOwned_same.
      * eapply phase_move; [exact Hi| | |exact Hphase]; done.
      * eapply resolved_move; [exact Hos|exact Hi| |exact Hres].
        intros (def' & path' & pid & Hd & _) _. congruence.
  - (* line 118: Start, and the record of the new instance *)
    destruct (Start os path _) as [err|pid] eqn:Hstart; injection Hstep as <-.
    + open_invariant.
      * by eapply lockOwned_same.
      * eapply phase_move; [exact Hi| | |exact Hphase]; done.
      * eapply resolved_move; [exact Hos|exact Hi| |exact Hres].
        intros (def' & path' & pid & Hd & Hl & Hs) [Hd' Hl'].
        assert (def' = def) as -> by congruence.
        assert (path' = path) as -> by congruence. congruence.
    + open_invariant.
      * by eapply lockOwned_same.
      * by apply phase_launch.
      * eapply resolved_move; [exact Hos|exact Hi| |exact Hres]. done.
  - (* the deferred Unlock *)
    injection Hstep as <-. open_invariant.
    + by eapply lockOwned_release.
    + eapply phase_move; [exact Hi| | |exact Hphase]; done.
    + eapply resolved_move; [exact Hos|exact Hi| |exact Hres]. done.
  - discriminate.
Qed.

Lemma initial_invariant :
  noHealthyInstance (manager s0) connectorName →
  invariant connectorName oss s0 (initial s0 (length oss)).
Proof.
  intros Hnone. unfold invariant, initial, staticPart, lockOwned, phase, resolved,
    threadsSatisfy. cbn [threads shared writer].
  split_and!; [by rewrite length_replicate|done|done| |done| |].
  - intros j p Hj. apply lookup_replicate in Hj as [-> _]. done.
  - left. split_and!; [done..|].
    intros j p Hj. apply lookup_replicate in Hj as [-> _]. done.
  - intros j p Hj. apply lookup_replicate in Hj as [-> _]. done.
Qed.

Lemma turn_invariant c i :
  invariant connectorName oss s0 c →
  invariant connectorName oss s0 (turn connectorName oss c i).
Proof.
  intros Hinv. unfold turn. destruct (oss !! i) as [os|] eqn:Hos; [|done].
  destruct (step connectorName os i c) as [c'|] eqn:Hstep; [|done].
  cbn. by eapply step_invariant.
Qed.

Lemma run_invariant schedule c :
  invariant connectorName oss s0 c →
  invariant connectorName oss s0 (run connectorName oss c schedule).
Proof.
  revert c. induction schedule as [|i schedule IH]; intros c Hinv; [done|].
  cbn. apply IH. by apply turn_invariant.
Qed.

(** Whatever the interleaving and the outcomes of the launches, at most
    one worker is started. *)
Lemma no_duplicate_spawn c :
  invariant connectorName oss s0 c →
  (spawnCount (shared c) ≤ S (spawnCount s0))%nat.
Proof.
  intros (_ & _ & _ & [(-> & _)|(instance & -> & _)] & _); lia.
Qed.

Lemma allDone_lookup c j p :
  allDone c = true → threads c !! j = Some p → ∃ r, p = Done r.
Proof.
  unfold allDone. intros Hall Hj.
  apply Is_true_true, forallb_True in Hall.
  rewrite Forall_lookup in Hall. specialize (Hall j p Hj).
  destruct p; try done. eauto.
Qed.

(** Once every caller has returned, and every launch succeeds: one
    worker was started and every caller holds the recorded instance. *)
Lemma allDone_one_spawn c :
  invariant connectorName oss s0 c →
  oss ≠ [] →
  Forall (launchable (manager s0) connectorName) oss →
  allDone c = true →
  ∃ instance,
    spawnCount (shared c) = S (spawnCount s0) ∧
    runningInstances (manager (shared c)) !! connectorName = Some instance ∧
    threads c = replicate (length oss) (Done (inr instance)).
Proof.
  intros (Hlen & _ & _ & Hphase & Hres) Hne Hlaunch Hdone.
  assert (Hreturned : ∀ j p, threads c !! j = Some p → ∃ x, p = Done (inr x)).
  { intros j p Hj. destruct (allDone_lookup c j p Hdone Hj) as [r ->].
    destruct (lookup_lt_is_Some_2 oss j) as [os Hos].
    { rewrite <- Hlen. by eapply lookup_lt_Some. }
    pose proof (Hres j _ Hj os Hos) as Hc.
    destruct r as [err|x]; [|eauto].
    destruct Hc. eapply Forall_forall; [exact Hlaunch|].
    by eapply list_elem_of_lookup_2. }
  destruct Hphase as [(_ & _ & Hall)|(instance & Hcount & Hin & _ & Hall)].
  - destruct (lookup_lt_is_Some_2 (threads c) 0) as [p Hp].
    { rewrite Hlen. destruct oss; [done|cbn; lia]. }
    destruct (Hreturned 0%nat p Hp) as [x ->]. destruct (Hall _ _ Hp).
  - exists instance. split_and!; [done..|].
    symmetry. apply replicate_as_Forall. split; [done|].
    apply Forall_lookup. intros j p Hj.
    destruct (Hreturned j p Hj) as [x ->].
    pose proof (Hall _ _ Hj) as Hx. cbn in Hx. by subst x.
Qed.

(** ** Progress *)

Lemma step_work os i c c' :
  step connectorName os i c = Some c' → (work c' < work c)%nat.
Proof.
  unfold step, work. destruct c as [sh w ts]. cbn [threads shared writer].
  destruct (ts !! i) as [p|] eqn:Hi; [|discriminate].
  intros Hstep.
  assert (∃ p', threads c' = <[i := p']> ts ∧ (remaining p' < remaining p)%nat)
    as (p' & -> & Hlt); [|by eapply work_insert].
  destruct p as [ | r | | | | def path | r | r ]; unfold set_pc in Hstep;
    repeat match goal with
           | H : context [match ?x with _ => _ end] |- _ => destruct x
           end;
    try discriminate; injection Hstep as <-; cbn; eexists; split; try done; cbn; lia.
Qed.

Lemma not_allDone c :
  allDone c = false → ∃ j p, threads c !! j = Some p ∧ isDone p = false.
Proof.
  unfold allDone. induction (threads c) as [|q ts IH]; cbn; [discriminate|].
  destruct (isDone q) eqn:Hq; cbn.
  - intros Hts. destruct (IH Hts) as (j & p & Hj & Hp). by exists (S j), p.
  - intros _. by exists 0%nat, q.
Qed.

(** No deadlock: while a caller has not returned, someone can move. *)
Lemma someone_moves c :
  invariant connectorName oss s0 c →
  allDone c = false →
  ∃ i os, oss !! i = Some os ∧ is_Some (step connectorName os i c).
Proof.
  intros (Hlen & _ & [Hheld Hwriter] & _ & _) Hnot.
  assert (Hlauncher : ∀ j p, threads c !! j = Some p → ∃ os, oss !! j = Some os).
  { intros j p Hj. apply lookup_lt_is_Some_2. rewrite <- Hlen.
    by eapply lookup_lt_Some. }
  destruct (writer c) as [i|] eqn:Hw.
  - destruct (Hwriter i eq_refl) as (p & Hi & Hhold).
    destruct (Hlauncher i p Hi) as [os Hos]. exists i, os. split; [done|].
    unfold step. rewrite Hi.
    destruct p; try discriminate;
      repeat match goal with
             | |- context [match ?x with _ => _ end] => destruct x
             end; eauto.
  - destruct (not_allDone c Hnot) as (j & p & Hj & Hp).
    destruct (Hlauncher j p Hj) as [os Hos]. exists j, os. split; [done|].
    pose proof (Hheld j p Hj) as Hhold. cbn in Hhold.
    unfold step. rewrite Hj, Hw.
    destruct p; try discriminate; try (specialize (Hhold eq_refl); discriminate);
      repeat match goal with
             | |- context [match ?x with _ => _ end] => destruct x
             end; eauto.
Qed.

(** Every run can be brought to the end, in at most [work c] moves. *)
Lemma completes k c :
  (work c ≤ k)%nat →
  invariant connectorName oss s0 c →
  ∃ more, (length more ≤ k)%nat ∧ allDone (run connectorName oss c more) = true.
Proof.
  revert c. induction k as [|k IH]; intros c Hk Hinv.
  - destruct (allDone c) eqn:Hdone; [by exists []|].
    destruct (someone_moves c Hinv Hdone) as (i & os & Hos & [c' Hstep]).
    pose proof (step_work os i c c' Hstep). lia.
  - destruct (allDone c) eqn:Hdone; [exists []; split; [cbn; lia|done]|].
    destruct (someone_moves c Hinv Hdone) as (i & os & Hos & [c' Hstep]).
    pose proof (step_work os i c c' Hstep) as Hlt.
    destruct (IH c') as (more & Hlen & Hall); [lia|by eapply step_invariant|].
    exists (i :: more). split; [cbn; lia|].
    cbn. unfold turn. by rewrite Hos, Hstep.
Qed.

End callers.

Lemma run_moved connectorName os c c' schedule :
  step connectorName os 0 c = Some c' →
  run connectorName [os] c (0%nat :: schedule) = run connectorName [os] c' schedule.
Proof. intros Hstep. unfold run. cbn. unfold turn. cbn. by rewrite Hstep. Qed.

Lemma run_returned connectorName os sh w r schedule :
  run connectorName [os] (mkConfig sh w [Done r]) schedule = mkConfig sh w [Done r].
Proof. induction schedule as [|[|i] schedule IH]; [done|exact IH|exact IH]. Qed.

(** A caller running alone goes through the program points in order and
    ends with the result and the state of [getOrStartInstance]. *)
Lemma single_caller_agrees connectorName os s :
  let c := run connectorName [os] (initial s 1) (replicate 7 0%nat) in
  threads c = [Done (getOrStartInstance os s connectorName).1] ∧
  writer c = None ∧
  shared c = (getOrStartInstance os s connectorName).2.
Proof.
  cbv zeta. unfold initial. cbn [replicate].
  unfold getOrStartInstance, startLocked.
  assert (Hslow : ∀ r,
    unhealthy r →
    runningInstances (manager s) !! connectorName = r →
    let c := run connectorName [os]
               (mkConfig s None [Looked r]) (replicate 6 0%nat) in
    let res :=
      match connectorDefinitions (manager s) !! connectorName with
      | Some def =>
          match locateExecutable os
                  (Join os (connectorsBaseDir (manager s))
                        (ExecutablePathRelativeToConnectorsDir def)) with
          | inl err => (inl err, s)
          | inr executablePath =>
              match Start os executablePath ["-port=" +:+ itoa (DefaultPort def)] with
              | inl err =>
                  (inl ("failed to start connector '" +:+ connectorName
                          +:+ "': " +:+ err), s)
              | inr pid =>
                  let cmd := mkCmd executablePath
                               ["-port=" +:+ itoa (DefaultPort def)] (Some pid) None in
                  let newInstance := mkInstance def (Some cmd) (DefaultPort def) in
                  (inr newInstance,
                   mkState
                     (set_runningInstances (manager s)
                        (<[connectorName := newInstance]>
                           (runningInstances (manager s))))
                     (memory s)
                     (trace s ++ [EvStart executablePath
                                    ["-port=" +:+ itoa (DefaultPort def)] pid]))
              end
          end
      | None =>
          (inl ("connector definition for '" +:+ connectorName +:+ "' not found"), s)
      end in
    threads c = [Done res.1] ∧ writer c = None ∧ shared c = res.2).
  { intros r Hr Hin. cbv zeta. cbn [replicate].
    erewrite run_moved.
    2:{ unfold step. cbn [threads lookup list_lookup].
        destruct r as [x|]; [|reflexivity].
        rewrite exitedOrNil_stillRunning. cbn in Hr. rewrite Hr. reflexivity. }
    erewrite run_moved by reflexivity.
    unfold set_pc; cbn [threads shared writer insert list_insert].
    erewrite run_moved.
    2:{ unfold step. cbn [threads shared lookup list_lookup]. rewrite Hin.
        destruct r as [x|]; [|reflexivity]. cbn in Hr. rewrite Hr. reflexivity. }
    unfold set_pc; cbn [threads shared writer insert list_insert].
    destruct (connectorDefinitions (manager s) !! connectorName) as [def|] eqn:Hdef.
    2:{ erewrite run_moved
          by (unfold step; cbn [threads shared lookup list_lookup];
              rewrite Hdef; reflexivity).
        erewrite run_moved by reflexivity.
        unfold set_pc; cbn [threads shared writer insert list_insert].
        rewrite run_returned. done. }
    destruct (locateExecutable os _) as [err|path] eqn:Hloc.
    { erewrite run_moved
        by (unfold step; cbn [threads shared lookup list_lookup];
            rewrite Hdef, Hloc; reflexivity).
      erewrite run_moved by reflexivity.
      unfold set_pc; cbn [threads shared writer insert list_insert].
      rewrite run_returned. done. }
    erewrite run_moved
      by (unfold step; cbn [threads shared lookup list_lookup];
          rewrite Hdef, Hloc; reflexivity).
    unfold set_pc; cbn [threads shared writer insert list_insert].
    destruct (Start os path _) as [err|pid] eqn:Hstart.
    - erewrite run_moved
        by (unfold step; cbn [threads shared lookup list_lookup];
            rewrite Hstart; reflexivity).
      erewrite run_moved by reflexivity.
      unfold set_pc; cbn [threads shared writer insert list_insert].
      rewrite run_returned. done.
    - erewrite run_moved
        by (unfold step; cbn [threads shared lookup list_lookup];
            rewrite Hstart; reflexivity).
      erewrite run_moved by reflexivity.
      unfold set_pc; cbn [threads shared writer insert list_insert].
      rewrite run_returned. done. }
  erewrite run_moved by reflexivity.
  unfold set_pc; cbn [threads shared writer insert list_insert].
  destruct (runningInstances (manager s) !! connectorName) as [i0|] eqn:Hin.
  - rewrite exitedOrNil_stillRunning.
    destruct (stillRunning i0) eqn:Hrun; cbn [negb].
    + erewrite run_moved
        by (unfold step; cbn; rewrite exitedOrNil_stillRunning, Hrun; reflexivity).
      unfold set_pc; cbn [threads shared writer insert list_insert].
      rewrite run_returned. done.
    + apply (Hslow (Some i0)); done.
  - apply (Hslow None); done.
Qed.

(** C10.  Two callers run [getOrStartInstance] for one connector name
    while no healthy instance is recorded and the launch succeeds for
    either of them.  Under every interleaving of their moves: at no
    moment has more than one worker been started; once both have
    returned exactly one was started, and both hold the instance that is
    recorded under the name (the later one found it at the re-check under
    the lock); and the run can always be brought to that end, so the
    lock never leaves a caller stuck. *)
Theorem concurrent_callers_spawn_once connectorName os1 os2 s0 schedule :
  noHealthyInstance (manager s0) connectorName →
  launchable (manager s0) connectorName os1 →
  launchable (manager s0) connectorName os2 →
  let c := run connectorName [os1; os2] (initial s0 2) schedule in
  (spawnCount (shared c) ≤ S (spawnCount s0))%nat ∧
  (allDone c = true →
     ∃ instance,
       spawnCount (shared c) = S (spawnCount s0) ∧
       threads c = [Done (inr instance); Done (inr instance)] ∧
       runningInstances (manager (shared c)) !! connectorName = Some instance) ∧
  (∃ more, (length more ≤ work c)%nat ∧
           allDone (run connectorName [os1; os2] c more) = true).
Proof.
  intros Hnone H1 H2. cbv zeta.
  pose proof (run_invariant connectorName [os1; os2] s0 schedule _
                (initial_invariant connectorName [os1; os2] s0 Hnone)) as Hinv.
  cbn [length] in Hinv. split_and!.
  - by eapply no_duplicate_spawn.
  - intros Hdone.
    destruct (allDone_one_spawn connectorName [os1; os2] s0 _ Hinv)
      as (instance & Hcount & Hin & Hts); [done|by repeat constructor|done|].
    exists instance. done.
  - by eapply completes.
Qed.

Lemma concurrent_callers_spawn_once_witness :
  let c := run "F" [launcherOk; launcherExe] (initial sampleState 2)
               [0; 1; 0; 1; 1; 0; 1; 1; 1; 1; 1; 0; 0; 0; 0]%nat in
  allDone c = true ∧
  (spawnCount (shared c) ≤ S (spawnCount sampleState))%nat ∧
  (allDone c = true →
     ∃ instance,
       spawnCount (shared c) = S (spawnCount sampleState) ∧
       threads c = [Done (inr instance); Done (inr instance)] ∧
       runningInstances (manager (shared c)) !! "F" = Some instance) ∧
  (∃ more, (length more ≤ work c)%nat ∧
           allDone (run "F" [launcherOk; launcherExe] c more) = true).
Proof.
  cbv zeta. split; [vm_compute; reflexivity|].
  apply (concurrent_callers_spawn_once "F" launcherOk launcherExe sampleState).
  - vm_compute. exact I.
  - eexists _, _, _. split_and!; vm_compute; reflexivity.
  - eexists _, _, _. split_and!; vm_compute; reflexivity.
Defined.

End ConcurrentFacts.

(* ===================================================================== *)
(** * Properties of the wire encoding *)
(* ===================================================================== *)

Module WireFacts.
Import Go protocol Wire WireSpec GoFacts.

(** ** Base64 *)

Lemma b64val_b64char n : (n < 64)%N → b64val (b64char n) = Some n.
Proof.
  intros Hn. unfold b64val, b64char.
  rewrite <- (N2Nat.id n) at 2. assert (N.to_nat n < 64)%nat as Hk by lia.
  clear Hn. generalize dependent (N.to_nat n). clear n. intros k Hk.
  do 64 (destruct k as [|k]; [vm_compute; reflexivity|]). lia.
Qed.

Lemma b64char_not_pad n : (n < 64)%N → b64char n ≠ pad.
Proof.
  intros Hn. unfold b64char.
  assert (N.to_nat n < 64)%nat as Hk by lia.
  clear Hn. generalize dependent (N.to_nat n). clear n. intros k Hk.
  do 64 (destruct k as [|k]; [vm_compute; discriminate|]). lia.
Qed.

Lemma sextet_bound g i : (sextet g i < 64)%N.
Proof. unfold sextet. apply N.mod_lt. discriminate. Qed.

Lemma group_bound a b c : (group a b c < 16777216)%N.
Proof.
  unfold group.
  pose proof (Byte.to_N_bounded a). pose proof (Byte.to_N_bounded b).
  pose proof (Byte.to_N_bounded c). lia.
Qed.

Lemma ungroup_sextets g :
  (g < 16777216)%N →
  ungroup (sextet g 0) (sextet g 1) (sextet g 2) (sextet g 3) = g.
Proof.
  intros Hg. unfold ungroup, sextet.
  change (64 ^ (3 - 0))%N with 262144%N. change (64 ^ (3 - 1))%N with 4096%N.
  change (64 ^ (3 - 2))%N with 64%N. change (64 ^ (3 - 3))%N with 1%N.
  zify. Z.to_euclidean_division_equations. lia.
Qed.

Local Ltac pow_consts :=
  change (64 ^ (3 - 0))%N with 262144%N in *; change (64 ^ (3 - 1))%N with 4096%N in *;
  change (64 ^ (3 - 2))%N with 64%N in *; change (64 ^ (3 - 3))%N with 1%N in *;
  change (256 ^ (2 - 0))%N with 65536%N in *; change (256 ^ (2 - 1))%N with 256%N in *;
  change (256 ^ (2 - 2))%N with 1%N in *.

Lemma octets_group a b c :
  octet (group a b c) 0 = Some a ∧ octet (group a b c) 1 = Some b ∧
  octet (group a b c) 2 = Some c.
Proof.
  unfold octet, group. pow_consts.
  pose proof (Byte.to_N_bounded a). pose proof (Byte.to_N_bounded b).
  pose proof (Byte.to_N_bounded c).
  replace ((_ / 65536) mod 256)%N with (Byte.to_N a)
    by (zify; Z.to_euclidean_division_equations; lia).
  replace ((_ / 256) mod 256)%N with (Byte.to_N b)
    by (zify; Z.to_euclidean_division_equations; lia).
  replace ((_ / 1) mod 256)%N with (Byte.to_N c)
    by (zify; Z.to_euclidean_division_equations; lia).
  by rewrite !Byte.of_to_N.
Qed.

(** The last quantum of one byte: two characters and two pads. *)
Lemma octet_one a :
  let g := group a "000"%byte "000"%byte in
  octet (ungroup (sextet g 0) (sextet g 1) 0 0) 0 = Some a.
Proof.
  cbv zeta. unfold octet, ungroup, sextet, group. pow_consts.
  change (Byte.to_N "000") with 0%N.
  pose proof (Byte.to_N_bounded a).
  replace ((_ / 65536) mod 256)%N with (Byte.to_N a)
    by (zify; Z.to_euclidean_division_equations; lia).
  by rewrite Byte.of_to_N.
Qed.

(** The last quantum of two bytes: three characters and one pad. *)
Lemma octet_two a b :
  let g := group a b "000"%byte in
  let u := ungroup (sextet g 0) (sextet g 1) (sextet g 2) 0 in
  octet u 0 = Some a ∧ octet u 1 = Some b.
Proof.
  cbv zeta. unfold octet, ungroup, sextet, group. pow_consts.
  change (Byte.to_N "000") with 0%N.
  pose proof (Byte.to_N_bounded a). pose proof (Byte.to_N_bounded b).
  replace ((_ / 65536) mod 256)%N with (Byte.to_N a)
    by (zify; Z.to_euclidean_division_equations; lia).
  replace ((_ / 256) mod 256)%N with (Byte.to_N b)
    by (zify; Z.to_euclidean_division_equations; lia).
  by rewrite !Byte.of_to_N.
Qed.

Lemma bytes_ind3 (P : list byte → Prop) :
  P [] → (∀ a, P [a]) → (∀ a b, P [a; b]) →
  (∀ a b c rest, P rest → P (a :: b :: c :: rest)) →
  ∀ bs, P bs.
Proof.
  intros H0 H1 H2 H3.
  refine (fix go bs :=
            match bs with
            | [] => H0
            | [a] => H1 a
            | [a; b] => H2 a b
            | a :: b :: c :: rest => H3 a b c rest (go rest)
            end).
Qed.

(** Decoding undoes encoding, for every byte sequence (the empty one
    included). *)
Lemma b64decode_b64encode bs : b64decode (b64encode bs) = Some bs.
Proof.
  induction bs as [|a|a b|a b c rest IH] using bytes_ind3.
  - done.
  - cbn [b64encode b64decode].
    rewrite bool_decide_eq_true_2 by done.
    rewrite !b64val_b64char by apply sextet_bound. cbn [mbind option_bind].
    by rewrite octet_one.
  - cbn [b64encode b64decode].
    rewrite bool_decide_eq_false_2
      by (intros [Hp _]; by apply b64char_not_pad in Hp; [|apply sextet_bound]).
    rewrite bool_decide_eq_true_2 by done.
    rewrite !b64val_b64char by apply sextet_bound. cbn [mbind option_bind].
    destruct (octet_two a b) as [-> ->]. done.
  - cbn [b64encode b64decode].
    rewrite bool_decide_eq_false_2
      by (intros [Hp _]; by apply b64char_not_pad in Hp; [|apply sextet_bound]).
    rewrite bool_decide_eq_false_2
      by (intros [Hp _]; by apply b64char_not_pad in Hp; [|apply sextet_bound]).
    rewrite !b64val_b64char by apply sextet_bound. cbn [mbind option_bind].
    rewrite ungroup_sextets by apply group_bound.
    destruct (octets_group a b c) as (-> & -> & ->). cbn [mbind option_bind].
    by rewrite IH.
Qed.

(** ** Dynamic values *)

Lemma anySize_slice l x : x ∈ l → (anySize x < anySize (ASlice (Some l)))%nat.
Proof.
  cbn [anySize]. intros Hx. apply Nat.lt_succ_r.
  induction l as [|y l IH]; [by apply elem_of_nil in Hx|].
  change (anySize x ≤ anySize y + list_sum (map anySize l))%nat.
  apply elem_of_cons in Hx as [->|Hx]; [lia|]. specialize (IH Hx). lia.
Qed.

Lemma anySize_map (m : gmap string any) k v :
  m !! k = Some v → (anySize v < anySize (AMap (Some m)))%nat.
Proof.
  cbn [anySize]. intros Hk. apply Nat.lt_succ_r. revert k v Hk.
  apply (map_fold_weak_ind
           (λ r (m : gmap string any), ∀ k v, m !! k = Some v → (anySize v ≤ r)%nat)).
  - intros k v Hk. by rewrite lookup_empty in Hk.
  - intros i x m' r Hi IH k v Hk.
    destruct (decide (i = k)) as [->|Hne].
    + rewrite lookup_insert_eq in Hk. injection Hk as ->. lia.
    + rewrite lookup_insert_ne in Hk by done. specialize (IH k v Hk). lia.
Qed.

(** Induction on a dynamic value, through slices and maps. *)
Lemma any_induction (P : any → Prop) :
  P ANil → (∀ b, P (ABool b)) → (∀ z, P (AInt z)) → (∀ f, P (AFloat64 f)) →
  (∀ s, P (AString s)) →
  P (ASlice None) → (∀ l, Forall P l → P (ASlice (Some l))) →
  P (AMap None) → (∀ m, map_Forall (λ _, P) m → P (AMap (Some m))) →
  ∀ a, P a.
Proof.
  intros Hnil Hbool Hint Hfloat Hstr Hsnil Hslice Hmnil Hmap a.
  remember (anySize a) as n eqn:Hn. revert a Hn.
  induction (lt_wf n) as [n _ IH]. intros a ->.
  destruct a as [ | b | z | f | s | [l|] | [m|] ]; auto.
  - apply Hslice. apply Forall_forall. intros x Hx.
    eapply IH; [|reflexivity]. by apply anySize_slice.
  - apply Hmap. intros k v Hk.
    eapply IH; [|reflexivity]. by eapply anySize_map.
Qed.

Lemma native_slice l :
  native (ASlice (Some l)) ↔ Forall native l.
Proof.
  cbn [native]. induction l as [|x l IH]; cbn [foldr].
  - split; [constructor|done].
  - rewrite Forall_cons. by rewrite IH.
Qed.

Lemma native_map (m : gmap string any) :
  native (AMap (Some m)) ↔ map_Forall (λ k v, validUTF8 k ∧ native v) m.
Proof.
  cbn [native].
  apply (map_fold_weak_ind
           (λ (r : Prop) (m : gmap string any),
              r ↔ map_Forall (λ k v, validUTF8 k ∧ native v) m)).
  - split; [intros _; apply map_Forall_empty|done].
  - intros i x m' r Hi IH. rewrite map_Forall_insert by done. rewrite IH. tauto.
Qed.

Lemma supported_slice l :
  supported (ASlice (Some l)) = true ↔ Forall (λ x, supported x = true) l.
Proof.
  cbn [supported]. induction l as [|x l IH]; cbn [forallb].
  - split; [constructor|done].
  - rewrite Forall_cons, andb_true_iff. by rewrite IH.
Qed.

Lemma supported_map (m : gmap string any) :
  supported (AMap (Some m)) = true ↔ map_Forall (λ _ v, supported v = true) m.
Proof.
  cbn [supported].
  apply (map_fold_weak_ind
           (λ (r : bool) (m : gmap string any),
              r = true ↔ map_Forall (λ _ v, supported v = true) m)).
  - split; [intros _; apply map_Forall_empty|done].
  - intros i x m' r Hi IH. rewrite map_Forall_insert by done.
    rewrite andb_true_iff, IH. tauto.
Qed.

(** The encoder accepts every native value. *)
Lemma native_supported a : native a → supported a = true.
Proof.
  induction a as [ | b | z | f | s | | l IH | | m IH ] using any_induction;
    try done.
  - rewrite native_slice, supported_slice. intros Hl.
    rewrite Forall_forall in IH, Hl |- *. auto.
  - rewrite native_map, supported_map. intros Hm k v Hk.
    apply (IH k v Hk). by destruct (Hm k v Hk).
Qed.

Lemma foldl_ext_in {A B} (f g : A → B → A) (l : list B) a :
  (∀ acc x, x ∈ l → f acc x = g acc x) → foldl f a l = foldl g a l.
Proof.
  revert a. induction l as [|x l IH]; intros a Hfg; [done|]. cbn.
  rewrite Hfg by left. apply IH. intros acc y Hy. apply Hfg. by right.
Qed.

Lemma foldl_insert_to_list {A} (m : gmap string A) :
  foldl (λ acc kv, <[kv.1 := kv.2]> acc) ∅ (map_to_list m) = m.
Proof.
  apply map_eq. intros k. rewrite foldl_insert_map_to_list, lookup_empty.
  by destruct (m !! k).
Qed.

(** Decoding into [interface{}] undoes the encoding of a native value. *)
Lemma unmarshalAny_marshalAny a : native a → unmarshalAny (marshalAny a) = a.
Proof.
  induction a as [ | b | z | f | s | | l IH | | m IH ] using any_induction;
    try done.
  - cbn. intros ->. done.
  - rewrite native_slice. intros Hl. cbn [marshalAny unmarshalAny].
    do 2 f_equal. change (map ?f ?x) with (f <$> x).
    rewrite <- list_fmap_compose. rewrite <- (list_fmap_id l) at 2.
    apply Forall_fmap_ext_1. rewrite Forall_forall in IH, Hl |- *.
    intros x Hx. cbn. auto.
  - rewrite native_map. intros Hm. cbn [marshalAny unmarshalAny]. do 2 f_equal.
    change (map ?f ?x) with (f <$> x).
    rewrite map_to_list_fmap, !foldl_fmap.
    rewrite <- (foldl_insert_to_list m) at 2.
    apply foldl_ext_in. intros acc [k v] Hkv.
    cbn -[toValidUTF8 marshalAny unmarshalAny].
    apply elem_of_map_to_list in Hkv.
    destruct (Hm k v Hkv) as [Hk Hv]. rewrite Hk. by rewrite (IH k v Hkv Hv).
Qed.

(** ** Struct fields *)

Lemma decodeMap_marshalMap m :
  nativeMap m → decodeMap None (marshalMap m) = Some m.
Proof.
  destruct m as [m|]; [|done]. intros Hm.
  pose proof (unmarshalAny_marshalAny (AMap (Some m)) Hm) as Hrt.
  unfold marshalMap. cbn [marshalAny unmarshalAny] in *.
  injection Hrt as Hrt. cbn [decodeMap default from_option]. by rewrite Hrt.
Qed.

Lemma foldl_decodeHeaders (l : list (string * string)) (m : gmap string string) :
  foldl (λ acc kv, m ← acc; v ← decodeString "" kv.2; Some (<[kv.1 := v]> m))
        (Some m)
        ((λ kv, (toValidUTF8 kv.1, JString (toValidUTF8 kv.2))) <$> l)
  = Some (foldl (λ acc kv, <[toValidUTF8 kv.1 := toValidUTF8 kv.2]> acc) m l).
Proof.
  revert m. induction l as [|[k v] l IH]; intros m; [done|].
  cbn [fmap list_fmap foldl]. cbn [mbind option_bind decodeString fst snd].
  apply IH.
Qed.

Lemma decodeHeaders_marshalHeaders hs :
  nativeHeaders hs → decodeHeaders None (marshalHeaders hs) = Some hs.
Proof.
  destruct hs as [m|]; [|done]. intros Hm.
  cbn [marshalHeaders decodeHeaders default from_option].
  change (map ?f ?x) with (f <$> x). rewrite foldl_decodeHeaders.
  cbn [fmap option_fmap option_map]. do 2 f_equal.
  rewrite <- (foldl_insert_to_list m) at 2.
  apply foldl_ext_in. intros acc [k v] Hkv. cbn [fst snd].
  apply elem_of_map_to_list in Hkv. destruct (Hm k v Hkv) as [-> ->]. done.
Qed.

Lemma decodeBytes_marshalBytes cur b :
  decodeBytes cur (marshalBytes b) = Some b.
Proof.
  destruct b as [bs|]; [|done]. cbn [marshalBytes decodeBytes].
  by rewrite b64decode_b64encode.
Qed.

Lemma decodeContext_marshalContext c :
  validUTF8 (MessageID c) → nativeMap (Properties c) → nativeHeaders (Headers c) →
  decodeContext (zeroContext None) (marshalContext c) = Some c.
Proof.
  intros Hid Hprops Hhdrs. destruct c as [id payload props hdrs]. cbn in Hid, Hprops, Hhdrs.
  unfold marshalContext, decodeContext, zeroContext.
  cbn [foldl MessageID Payload Properties Headers].
  unfold decodeContextMember at 4.
  cbn [mbind option_bind fst snd MessageID Payload Properties Headers].
  rewrite decide_True by done. cbn [decodeString mbind option_bind]. rewrite Hid.
  unfold decodeContextMember at 3.
  cbn [mbind option_bind fst snd MessageID Payload Properties Headers].
  rewrite decide_False by done. rewrite decide_True by done.
  rewrite decodeBytes_marshalBytes. cbn [mbind option_bind].
  unfold decodeContextMember at 2.
  cbn [mbind option_bind fst snd MessageID Payload Properties Headers].
  rewrite !decide_False by done. rewrite decide_True by done.
  rewrite decodeMap_marshalMap by done. cbn [mbind option_bind].
  unfold decodeContextMember.
  cbn [mbind option_bind fst snd MessageID Payload Properties Headers].
  rewrite !decide_False by done. rewrite decide_True by done.
  rewrite decodeHeaders_marshalHeaders by done. done.
Qed.

Lemma DecodeRequest_marshalRequest r :
  nativeRequest r → DecodeRequest (marshalRequest r) = Some r.
Proof.
  intros (Hcn & Hop & Hcfg & Hparams & Hid & Hprops & Hhdrs).
  destruct r as [cn op cfg params ctx]. cbn in Hcn, Hop, Hcfg, Hparams, Hid, Hprops, Hhdrs.
  unfold marshalRequest, DecodeRequest, zeroRequest.
  cbn [foldl ConnectorName OperationName ConnectorConfig OperationParams
       MessageContextIn].
  unfold decodeRequestMember at 5.
  cbn [mbind option_bind fst snd ConnectorName OperationName ConnectorConfig
       OperationParams MessageContextIn].
  rewrite decide_True by done. cbn [decodeString mbind option_bind]. rewrite Hcn.
  unfold decodeRequestMember at 4.
  cbn [mbind option_bind fst snd ConnectorName OperationName ConnectorConfig
       OperationParams MessageContextIn].
  rewrite decide_False by done. rewrite decide_True by done.
  cbn [decodeString mbind option_bind]. rewrite Hop.
  unfold decodeRequestMember at 3.
  cbn [mbind option_bind fst snd ConnectorName OperationName ConnectorConfig
       OperationParams MessageContextIn].
  rewrite !decide_False by done. rewrite decide_True by done.
  rewrite decodeMap_marshalMap by done. cbn [mbind option_bind].
  unfold decodeRequestMember at 2.
  cbn [mbind option_bind fst snd ConnectorName OperationName ConnectorConfig
       OperationParams MessageContextIn].
  rewrite !decide_False by done. rewrite decide_True by done.
  rewrite decodeMap_marshalMap by done. cbn [mbind option_bind].
  unfold decodeRequestMember.
  cbn [mbind option_bind fst snd ConnectorName OperationName ConnectorConfig
       OperationParams MessageContextIn].
  rewrite !decide_False by done. rewrite decide_True by done.
  rewrite decodeContext_marshalContext by done. done.
Qed.

Lemma native_supportedRequest r : nativeRequest r → supportedRequest r = true.
Proof.
  intros (_ & _ & Hcfg & Hparams & _ & Hprops & _). unfold supportedRequest.
  assert (Hmap : ∀ m, nativeMap m → supported (AMap m) = true).
  { intros [m|] Hm; [|done]. by apply native_supported. }
  by rewrite !Hmap.
Qed.

(** C5, as stated, fails: an integer among the operation parameters is
    written as a JSON number and decoded, the target being
    [interface{}], as a float64; the decoded request differs from the
    one that was encoded. *)
Lemma integer_parameter_decodes_as_float :
  EncodeRequest countedRequest ≫= DecodeRequest
  = Some (mkRequest "F" "create" None
            (Some {[ "count" := AFloat64 (S754_finite false 5629499534213120 (-50)) ]})
            (zeroContext None)) ∧
  ¬ roundTrips countedRequest.
Proof.
  split; [vm_compute; reflexivity|].
  unfold roundTrips. intros Heq.
  apply (f_equal (λ o, r ← o; m ← OperationParams r; m !! "count")) in Heq.
  vm_compute in Heq. discriminate.
Qed.

(** C5, amended.  A request round-trips when its strings and map keys
    are valid UTF-8 and the values under [interface{}] are those JSON can
    carry: nil, booleans, finite float64, strings, and non-nil
    [[]interface{}] and [map[string]interface{}] of such values.  Then
    the encoder accepts the request and decoding its output gives the
    request back, with nil and empty maps, nil and empty payloads and
    absent fields preserved as they are. *)
Theorem native_request_round_trips r :
  nativeRequest r →
  EncodeRequest r = Some (marshalRequest r) ∧
  DecodeRequest (marshalRequest r) = Some r ∧
  roundTrips r.
Proof.
  intros Hr.
  assert (Henc : EncodeRequest r = Some (marshalRequest r)).
  { unfold EncodeRequest. by rewrite native_supportedRequest. }
  pose proof (DecodeRequest_marshalRequest r Hr) as Hdec.
  split_and!; [done..|]. unfold roundTrips. by rewrite Henc.
Qed.

Lemma sampleRequest_native : nativeRequest sampleRequest.
Proof.
  unfold nativeRequest, sampleRequest.
  cbn [ConnectorName OperationName ConnectorConfig OperationParams MessageContextIn
       MessageID Properties Headers nativeMap nativeHeaders].
  split_and!.
  - vm_compute. reflexivity.
  - vm_compute. reflexivity.
  - vm_compute. split_and!; done.
  - vm_compute. split_and!; done.
  - vm_compute. reflexivity.
  - done.
  - apply map_Forall_singleton. split; vm_compute; reflexivity.
Qed.

Lemma native_request_round_trips_witness :
  nativeRequest sampleRequest ∧
  EncodeRequest sampleRequest = Some (marshalRequest sampleRequest) ∧
  DecodeRequest (marshalRequest sampleRequest) = Some sampleRequest ∧
  roundTrips sampleRequest.
Proof.
  split; [exact sampleRequest_native|].
  apply (native_request_round_trips sampleRequest). exact sampleRequest_native.
Defined.

(** Nil and empty maps and payloads are told apart by the encoding and
    come back as they were. *)
Example nil_and_empty_round_trip :
  roundTrips zeroRequest ∧
  roundTrips (mkRequest "" "" (Some ∅) (Some ∅)
                        (mkMessageContext "" (Some []) (Some ∅) (Some ∅))) ∧
  marshalMap None = JNull ∧ marshalMap (Some ∅) = JObject [] ∧
  marshalBytes None = JNull ∧ marshalBytes (Some []) = JString "".
Proof. vm_compute. split_and!; reflexivity. Qed.

(** A string that is not valid UTF-8 is not preserved either. *)
Example ill_formed_text_is_replaced :
  toValidUTF8 (String (ascii_of_N 255) "") ≠ String (ascii_of_N 255) "" ∧
  ¬ roundTrips (mkRequest (String (ascii_of_N 255) "") "" None None (zeroContext None)).
Proof.
  split; [vm_compute; discriminate|].
  unfold roundTrips. intros Heq.
  apply (f_equal (λ o, ConnectorName <$> o)) in Heq. vm_compute in Heq. discriminate.
Qed.

End WireFacts.

(* ===================================================================== *)
(** * Further properties of the file worker *)
(* ===================================================================== *)

Module FileConnectorExtra.
Import Go protocol FileConnector FileConnectorSpec FileConnectorMore GoFacts Samples.

Lemma index_made h k : index (make h).2 (Some (make h).1) k = None.
Proof. unfold index, deref, make. cbn. by rewrite lookup_insert_eq. Qed.

(** X1.  A [create] whose two parameters are strings and whose directory
    and file can be written succeeds with an empty error message; the
    message id, payload and headers are those of the request; the
    properties hold the path written ([baseDirectory] joined with the
    file name) under [file.write.path] and ["success"] under
    [file.write.status], and every other property is as it came in. *)
Theorem createFile_success_effect fs h req filename content :
  index h (OperationParams req) "filename" = Some (AString filename) →
  index h (OperationParams req) "content" = Some (AString content) →
  MkdirAll fs (baseDirectoryOf h req) = None →
  WriteFile fs (Join fs (baseDirectoryOf h req) filename)
            (String.list_byte_of_string content) = None →
  let resp := (createFile fs h req).1 in
  let h' := (createFile fs h req).2 in
  let out := MessageContextOut resp in
  Success resp = true ∧ ErrorMessage resp = "" ∧
  MessageID out = MessageID (MessageContextIn req) ∧
  Payload out = Payload (MessageContextIn req) ∧
  Headers out = Headers (MessageContextIn req) ∧
  index h' (Properties out) "file.write.path"
  = Some (AString (Join fs (baseDirectoryOf h req) filename)) ∧
  index h' (Properties out) "file.write.status" = Some (AString "success") ∧
  ∀ k, k ≠ "file.write.path" → k ≠ "file.write.status" →
       index h' (Properties out) k = index h (Properties (MessageContextIn req)) k.
Proof.
  intros Hfile Hcontent Hmk Hwr. unfold baseDirectoryOf in *. cbv zeta in *.
  unfold createFile. rewrite Hfile, Hcontent. cbn [as_string negb orb].
  cbv zeta. rewrite Hmk, Hwr.
  destruct (Properties (MessageContextIn req)) as [l|] eqn:Hp; cbn [fst snd];
    cbn [Success ErrorMessage MessageContextOut set_Properties MessageID Payload
         Headers Properties].
  - split_and!; try done.
    + rewrite assign_index_ne by done. apply assign_index_eq.
    + apply assign_index_eq.
    + intros k Hk1 Hk2. by rewrite !assign_index_ne.
  - destruct (make h) as [l h1] eqn:Hmake.
    cbn [Success ErrorMessage MessageContextOut set_Properties MessageID Payload
         Headers Properties fst snd].
    split_and!; try done.
    + rewrite assign_index_ne by done. apply assign_index_eq.
    + apply assign_index_eq.
    + intros k Hk1 Hk2. rewrite !assign_index_ne by done.
      pose proof (index_made h k) as Hm. rewrite Hmake in Hm. cbn in Hm.
      rewrite Hm. done.
Qed.

(** X2.  A [read] whose file name is a string and whose file can be read
    succeeds: the payload is the content of the file, the path read is
    recorded under [file.read.path], and the message id, the headers and
    every other property are as they came in. *)
Theorem readFile_success_effect fs h req filename data :
  index h (OperationParams req) "filename" = Some (AString filename) →
  ReadFile fs (Join fs (baseDirectoryOf h req) filename) = inr data →
  let resp := (readFile fs h req).1 in
  let h' := (readFile fs h req).2 in
  let out := MessageContextOut resp in
  Success resp = true ∧ ErrorMessage resp = "" ∧
  Payload out = Some data ∧
  MessageID out = MessageID (MessageContextIn req) ∧
  Headers out = Headers (MessageContextIn req) ∧
  index h' (Properties out) "file.read.path"
  = Some (AString (Join fs (baseDirectoryOf h req) filename)) ∧
  ∀ k, k ≠ "file.read.path" →
       index h' (Properties out) k = index h (Properties (MessageContextIn req)) k.
Proof.
  intros Hfile Hrd. unfold baseDirectoryOf in *. cbv zeta in *.
  unfold readFile. rewrite Hfile. cbn [as_string negb].
  cbv zeta. rewrite Hrd.
  cbn [set_Payload Properties].
  destruct (Properties (MessageContextIn req)) as [l|] eqn:Hp; cbn [fst snd];
    cbn [Success ErrorMessage MessageContextOut set_Properties set_Payload MessageID
         Payload Headers Properties].
  - split_and!; try done.
    + apply assign_index_eq.
    + intros k Hk. by rewrite assign_index_ne.
  - destruct (make h) as [l h1] eqn:Hmake.
    cbn [Success ErrorMessage MessageContextOut set_Properties set_Payload MessageID
         Payload Headers Properties fst snd].
    split_and!; try done.
    + apply assign_index_eq.
    + intros k Hk. rewrite assign_index_ne by done.
      pose proof (index_made h k) as Hm. rewrite Hmake in Hm. cbn in Hm.
      rewrite Hm. done.
Qed.

Lemma as_string_cases v :
  (∃ s, v = Some (AString s) ∧ as_string v = (s, true)) ∨ as_string v = ("", false).
Proof. destruct v as [[]|]; cbn; eauto. Qed.

(** X3.  The worker reports success in exactly two situations: a
    [create] with string parameters whose directory creation and write
    both succeed, or a [read] with a string file name whose file can be
    read.  Every other operation name, parameter shape or file-system
    error gives [Success = false]. *)
Theorem dispatch_success_iff fs h req :
  Success (dispatch fs h req).1 = true ↔
  (OperationName req = "create" ∧
   ∃ filename content,
     index h (OperationParams req) "filename" = Some (AString filename) ∧
     index h (OperationParams req) "content" = Some (AString content) ∧
     MkdirAll fs (baseDirectoryOf h req) = None ∧
     WriteFile fs (Join fs (baseDirectoryOf h req) filename)
               (String.list_byte_of_string content) = None)
  ∨ (OperationName req = "read" ∧
     ∃ filename data,
       index h (OperationParams req) "filename" = Some (AString filename) ∧
       ReadFile fs (Join fs (baseDirectoryOf h req) filename) = inr data).
Proof.
  unfold dispatch.
  destruct (decide (OperationName req = "create")) as [Hc|Hc].
  - split.
    + intros Hs. left. split; [done|]. revert Hs. unfold createFile, baseDirectoryOf.
      destruct (as_string_cases (index h (OperationParams req) "filename"))
        as [(filename & Hf & ->)| ->];
        destruct (as_string_cases (index h (OperationParams req) "content"))
        as [(content & Hct & ->)| ->]; try (cbn; discriminate).
      cbn [negb orb]. cbv zeta.
      destruct (MkdirAll fs _) eqn:Hmk; [cbn; discriminate|].
      destruct (WriteFile fs _ _) eqn:Hwr; [cbn; discriminate|].
      intros _. exists filename, content. done.
    + intros [(_ & filename & content & Hf & Hct & Hmk & Hwr)|[Hr _]].
      * unfold createFile. rewrite Hf, Hct. cbn [as_string negb orb]. cbv zeta.
        unfold baseDirectoryOf in Hmk, Hwr. cbv zeta in Hmk, Hwr. rewrite Hmk, Hwr.
        by destruct (Properties (MessageContextIn req)).
      * rewrite Hc in Hr. discriminate.
  - destruct (decide (OperationName req = "read")) as [Hr|Hr].
    + split.
      * intros Hs. right. split; [done|]. revert Hs. unfold readFile, baseDirectoryOf.
        destruct (as_string_cases (index h (OperationParams req) "filename"))
          as [(filename & Hf & ->)| ->]; [|cbn; discriminate].
        cbn [negb]. cbv zeta.
        destruct (ReadFile fs _) as [err|data] eqn:Hrd; [cbn; discriminate|].
        intros _. exists filename, data. done.
      * intros [[Hc' _]|(_ & filename & data & Hf & Hrd)]; [done|].
        unfold readFile. rewrite Hf. cbn [as_string negb]. cbv zeta.
        unfold baseDirectoryOf in Hrd. cbv zeta in Hrd. rewrite Hrd.
        cbn [set_Payload Properties].
        by destruct (Properties (MessageContextIn req)).
    + split; [cbn; discriminate|]. intros [[? _]|[? _]]; done.
Qed.

(** X4.  A request whose parameters are missing or are not strings is
    rejected before the file system is consulted: the answer is the same
    on every file system, it is a failure, and the store is unchanged. *)
Theorem invalid_request_touches_no_file fs fs' h req :
  (OperationName req = "create" →
     (as_string (index h (OperationParams req) "filename")).2 = false ∨
     (as_string (index h (OperationParams req) "content")).2 = false) →
  (OperationName req = "read" →
     (as_string (index h (OperationParams req) "filename")).2 = false) →
  dispatch fs h req = dispatch fs' h req ∧
  Success (dispatch fs h req).1 = false ∧
  (dispatch fs h req).2 = h.
Proof.
  intros Hc Hr. unfold dispatch.
  destruct (decide (OperationName req = "create")) as [Hc'|Hc'].
  - specialize (Hc Hc'). unfold createFile.
    destruct (as_string (index h (OperationParams req) "filename")) as [f okf].
    destruct (as_string (index h (OperationParams req) "content")) as [c okc].
    cbn in Hc. destruct Hc as [-> | ->]; cbn; [done|].
    rewrite orb_true_r. done.
  - destruct (decide (OperationName req = "read")) as [Hr'|Hr']; [|done].
    specialize (Hr Hr'). unfold readFile.
    destruct (as_string (index h (OperationParams req) "filename")) as [f okf].
    cbn in Hr. subst okf. done.
Qed.

(** X5.  The connector configuration reaches the operations through
    its [baseDirectory] entry only: two configurations that name the
    same directory give the same answer and the same store. *)
Theorem config_matters_only_through_baseDirectory fs h req cfg :
  baseDirectoryOf h (withConfig req cfg) = baseDirectoryOf h req →
  dispatch fs h (withConfig req cfg) = dispatch fs h req.
Proof.
  unfold baseDirectoryOf, withConfig, dispatch, createFile, readFile.
  cbn [ConnectorConfig OperationName OperationParams MessageContextIn].
  intros ->. done.
Qed.

(** X6.  A configuration that is nil, has no [baseDirectory], has one
    that is not a string, or has the empty string, means the current
    directory: the worker behaves as under a configuration with
    [baseDirectory = "."]. *)
Theorem missing_baseDirectory_means_current_directory fs h req cfg :
  (∀ s, index h (ConnectorConfig req) "baseDirectory" = Some (AString s) → s = "") →
  index h cfg "baseDirectory" = Some (AString ".") →
  baseDirectoryOf h req = "." ∧
  dispatch fs h (withConfig req cfg) = dispatch fs h req.
Proof.
  intros Hnone Hdot.
  assert (Hbase : baseDirectoryOf h req = ".").
  { unfold baseDirectoryOf. cbv zeta.
    destruct (as_string_cases (index h (ConnectorConfig req) "baseDirectory"))
      as [(s & Hs & ->)| ->]; [|done].
    cbn [fst]. by rewrite (Hnone s Hs). }
  split; [exact Hbase|].
  unfold dispatch, createFile, readFile, withConfig.
  cbn [ConnectorConfig OperationName OperationParams MessageContextIn].
  rewrite Hdot. cbn [as_string fst].
  assert (Hreq : (as_string (index h (ConnectorConfig req) "baseDirectory")).1 = "").
  { destruct (as_string_cases (index h (ConnectorConfig req) "baseDirectory"))
      as [(s & Hs & ->)| ->]; [|done].
    cbn [fst]. exact (Hnone s Hs). }
  rewrite Hreq.
  destruct (decide ("." = "")) as [Hd|_]; [discriminate Hd|].
  destruct (decide ("" = "")) as [_|Hd]; [|done].
  done.
Qed.

Lemma createFile_success_effect_witness :
  let resp := (createFile fsOk sampleHeap sampleCreate).1 in
  let h' := (createFile fsOk sampleHeap sampleCreate).2 in
  Success resp = true ∧
  index h' (Properties (MessageContextOut resp)) "file.write.path"
  = Some (AString (Join fsOk (baseDirectoryOf sampleHeap sampleCreate) "t.txt")) ∧
  index h' (Properties (MessageContextOut resp)) "flowName"
  = index sampleHeap (Properties (MessageContextIn sampleCreate)) "flowName".
Proof.
  cbv zeta.
  destruct (createFile_success_effect fsOk sampleHeap sampleCreate "t.txt" "hi")
    as (Hs & _ & _ & _ & _ & Hpath & _ & Hrest); [vm_compute; reflexivity..|].
  split; [exact Hs|]. split; [exact Hpath|]. apply Hrest; discriminate.
Defined.

Lemma readFile_success_effect_witness :
  let resp := (readFile fsOk sampleHeap sampleRead).1 in
  Success resp = true ∧
  Payload (MessageContextOut resp) = Some (String.list_byte_of_string "hi").
Proof.
  cbv zeta.
  destruct (readFile_success_effect fsOk sampleHeap sampleRead "t.txt"
              (String.list_byte_of_string "hi"))
    as (Hs & _ & Hp & _); [vm_compute; reflexivity..|].
  split; [exact Hs|exact Hp].
Defined.

Lemma invalid_request_touches_no_file_witness :
  dispatch fsOk sampleHeap bareRead = dispatch fsMissing sampleHeap bareRead ∧
  Success (dispatch fsOk sampleHeap bareRead).1 = false ∧
  (dispatch fsOk sampleHeap bareRead).2 = sampleHeap.
Proof.
  apply (invalid_request_touches_no_file fsOk fsMissing sampleHeap bareRead).
  - intros Hop. vm_compute in Hop. discriminate.
  - intros _. vm_compute. reflexivity.
Defined.

Lemma config_matters_only_through_baseDirectory_witness :
  baseDirectoryOf widerHeap (withConfig sampleCreate (Some 4%positive))
  = baseDirectoryOf widerHeap sampleCreate ∧
  dispatch fsOk widerHeap (withConfig sampleCreate (Some 4%positive))
  = dispatch fsOk widerHeap sampleCreate.
Proof.
  split; [vm_compute; reflexivity|].
  apply (config_matters_only_through_baseDirectory fsOk widerHeap sampleCreate).
  vm_compute. reflexivity.
Defined.

Lemma missing_baseDirectory_means_current_directory_witness :
  baseDirectoryOf widerHeap unconfiguredRead = "." ∧
  dispatch fsOk widerHeap (withConfig unconfiguredRead (Some 5%positive))
  = dispatch fsOk widerHeap unconfiguredRead.
Proof.
  apply (missing_baseDirectory_means_current_directory fsOk widerHeap unconfiguredRead).
  - intros s Hs. vm_compute in Hs. discriminate.
  - vm_compute. reflexivity.
Defined.

End FileConnectorExtra.

(* ===================================================================== *)
(** * The response on the wire and the worker's connection handler *)
(* ===================================================================== *)

Module WireResponseFacts.
Import Go protocol FileConnector FileConnectorSpec GoFacts.
Import Wire WireSpec WireFacts WireResponse FileConnectorServer ManagerFacts Samples.

Lemma toValidUTF8_ascii c r :
  between 0 127 c = true → toValidUTF8 (String c r) = String c (toValidUTF8 r).
Proof. unfold toValidUTF8. cbn [coerceFrom]. by intros ->. Qed.

Lemma DecodeResponse_marshalResponse r :
  nativeResponse r → DecodeResponse (marshalResponse r) = Some r.
Proof.
  intros (Hmsg & Hid & Hprops & Hhdrs).
  destruct r as [ok ctx msg]. cbn in Hmsg, Hid, Hprops, Hhdrs.
  unfold marshalResponse, DecodeResponse, zeroResponse.
  cbn [Success MessageContextOut ErrorMessage app].
  destruct (decide (msg = "")) as [->|Hne].
  - cbn [app foldl].
    unfold decodeResponseMember at 2.
    cbn [mbind option_bind fst snd Success MessageContextOut ErrorMessage].
    rewrite decide_True by done. cbn [decodeBool mbind option_bind].
    unfold decodeResponseMember.
    cbn [mbind option_bind fst snd Success MessageContextOut ErrorMessage].
    rewrite decide_False by done. rewrite decide_True by done.
    rewrite decodeContext_marshalContext by done. done.
  - cbn [app foldl].
    unfold decodeResponseMember at 3.
    cbn [mbind option_bind fst snd Success MessageContextOut ErrorMessage].
    rewrite decide_True by done. cbn [decodeBool mbind option_bind].
    unfold decodeResponseMember at 2.
    cbn [mbind option_bind fst snd Success MessageContextOut ErrorMessage].
    rewrite decide_False by done. rewrite decide_True by done.
    rewrite decodeContext_marshalContext by done. cbn [mbind option_bind].
    unfold decodeResponseMember.
    cbn [mbind option_bind fst snd Success MessageContextOut ErrorMessage].
    rewrite !decide_False by done. rewrite decide_True by done.
    cbn [decodeString mbind option_bind]. by rewrite Hmsg.
Qed.

Lemma native_supportedResponse r : nativeResponse r → supportedResponse r = true.
Proof.
  intros (_ & _ & Hprops & _). unfold supportedResponse.
  destruct (Properties (MessageContextOut r)) as [m|]; [|done].
  by apply native_supported.
Qed.

(** X7.  A response whose text is well-formed UTF-8 and whose properties
    hold JSON-native values is accepted by the encoder and decodes to
    itself; and [error_message], which carries [omitempty], is left out
    of the document when the message is empty. *)
Theorem native_response_round_trips r :
  nativeResponse r →
  EncodeResponse r = Some (marshalResponse r) ∧
  DecodeResponse (marshalResponse r) = Some r ∧
  (ErrorMessage r = "" →
   ∀ l, marshalResponse r = JObject l → "error_message" ∉ l.*1).
Proof.
  intros Hr. split_and!.
  - unfold EncodeResponse. by rewrite native_supportedResponse.
  - by apply DecodeResponse_marshalResponse.
  - intros Hmsg l. unfold marshalResponse. rewrite Hmsg.
    rewrite decide_True by done. intros Heq. injection Heq as <-.
    cbn [app fmap list_fmap fst]. intros Hin.
    apply elem_of_cons in Hin as [Hin|Hin]; [discriminate Hin|].
    apply elem_of_cons in Hin as [Hin|Hin]; [discriminate Hin|].
    by apply elem_of_nil in Hin.
Qed.

(** The worker holds, after decoding, the value that was encoded. *)
Lemma loadRequest_storeRequest h r :
  loadRequest (storeRequest h r).2 (storeRequest h r).1 = r.
Proof.
  destruct r as [cn op cfg params [id payload props hdrs]].
  unfold storeRequest.
  cbn [ConnectorConfig OperationParams MessageContextIn Properties ConnectorName
       OperationName MessageID Payload Headers].
  destruct (Manager.store h cfg) as [rc h1] eqn:H1.
  destruct (Manager.store h1 params) as [rp h2] eqn:H2.
  destruct (Manager.store h2 props) as [rq h3] eqn:H3.
  cbn [fst snd]. unfold loadRequest, loadContext.
  cbn [ConnectorConfig OperationParams MessageContextIn Properties ConnectorName
       OperationName MessageID Payload Headers].
  assert (Hc1 : load h1 rc = cfg) by (pose proof (load_store h cfg); by rewrite H1 in *).
  assert (Hp2 : load h2 rp = params) by (pose proof (load_store h1 params); by rewrite H2 in *).
  assert (Hq3 : load h3 rq = props) by (pose proof (load_store h2 props); by rewrite H3 in *).
  assert (Hc2 : load h2 rc = cfg).
  { destruct rc as [l|]; [|by rewrite <- Hc1].
    rewrite <- Hc1. pose proof (load_store_other h1 params l) as Ho.
    rewrite H2 in Ho. apply Ho.
    pose proof (store_ref_dom h cfg l) as Hd. rewrite H1 in Hd. by apply Hd. }
  assert (Hc3 : load h3 rc = cfg).
  { destruct rc as [l|]; [|by rewrite <- Hc2].
    rewrite <- Hc2. pose proof (load_store_other h2 props l) as Ho.
    rewrite H3 in Ho. apply Ho.
    pose proof (store_dom h1 params l) as Hd'. rewrite H2 in Hd'. apply Hd'.
    pose proof (store_ref_dom h cfg l) as Hd. rewrite H1 in Hd. by apply Hd. }
  assert (Hp3 : load h3 rp = params).
  { destruct rp as [l|]; [|by rewrite <- Hp2].
    rewrite <- Hp2. pose proof (load_store_other h2 props l) as Ho.
    rewrite H3 in Ho. apply Ho.
    pose proof (store_ref_dom h1 params l) as Hd. rewrite H2 in Hd. by apply Hd. }
  by rewrite Hc3, Hp3, Hq3.
Qed.

Lemma toValidUTF8_ascii_prefix p e :
  forallb (between 0 127) (String.list_ascii_of_string p) = true →
  toValidUTF8 (p +:+ e) = p +:+ toValidUTF8 e.
Proof.
  induction p as [|c p IH]; [done|].
  cbn [String.list_ascii_of_string forallb]. intros Hall.
  apply andb_prop in Hall as [Hc Hp].
  change (String c p +:+ e) with (String c (p +:+ e)).
  rewrite toValidUTF8_ascii by done. rewrite IH by done. done.
Qed.

(** The encoder's pass over the message of a decode failure. *)
Lemma toValidUTF8_decode_prefix err :
  toValidUTF8 ("Failed to decode request: " +:+ err)
  = "Failed to decode request: " +:+ toValidUTF8 err.
Proof. by apply toValidUTF8_ascii_prefix. Qed.

(** X8.  When [decoder.Decode] returns an error, the worker calls no
    operation and touches no file: on every file system it sends the
    same document, which the manager decodes to a failure with a zero
    message context and the message [Failed to decode request: <error>]
    (the text of the error as the encoder writes it, which is the text
    itself when it is well-formed UTF-8). *)
Theorem undecodable_request_is_answered fs fs' err :
  ∃ doc,
    handleConnection fs (inl err) = Some doc ∧
    handleConnection fs' (inl err) = Some doc ∧
    DecodeResponse doc
    = Some (mkResponse false (zeroContext None)
                       ("Failed to decode request: " +:+ toValidUTF8 err)) ∧
    (validUTF8 err ↔
     DecodeResponse doc
     = Some (mkResponse false (zeroContext None)
                        ("Failed to decode request: " +:+ err))).
Proof.
  unfold handleConnection.
  assert (Hdec : DecodeResponse
            (marshalResponse
               (mkResponse false (zeroContext None)
                           ("Failed to decode request: " +:+ err)))
          = Some (mkResponse false (zeroContext None)
                             ("Failed to decode request: " +:+ toValidUTF8 err))).
  { rewrite <- toValidUTF8_decode_prefix.
    unfold marshalResponse, DecodeResponse, zeroResponse.
    cbn [Success MessageContextOut ErrorMessage].
    rewrite decide_False by (cbn [String.append]; discriminate).
    cbn [app foldl].
    unfold decodeResponseMember at 3.
    cbn [mbind option_bind fst snd Success MessageContextOut ErrorMessage].
    rewrite decide_True by done. cbn [decodeBool mbind option_bind].
    unfold decodeResponseMember at 2.
    cbn [mbind option_bind fst snd Success MessageContextOut ErrorMessage].
    rewrite decide_False by done. rewrite decide_True by done.
    rewrite decodeContext_marshalContext by (first [reflexivity|exact I]).
    cbn [mbind option_bind].
    unfold decodeResponseMember.
    cbn [mbind option_bind fst snd Success MessageContextOut ErrorMessage].
    rewrite !decide_False by done. rewrite decide_True by done.
    cbn [decodeString mbind option_bind]. done. }
  eexists. split; [reflexivity|]. split; [reflexivity|]. split; [exact Hdec|].
  rewrite Hdec. split.
  - intros Herr. unfold validUTF8 in Herr. by rewrite Herr.
  - intros Heq. injection Heq as Heq. unfold validUTF8.
    revert Heq. generalize (toValidUTF8 err). intros e.
    cbn [String.append]. intros Heq. by simplify_eq.
Qed.

(** What the worker sends for a well-formed request document. *)
Lemma handleConnection_marshalRequest fs mismatch r :
  nativeRequest r →
  handleConnection fs (decodeRequest mismatch (inr (marshalRequest r)))
  = EncodeResponse
      (loadResponse
         (dispatch fs (storeRequest ∅ r).2 (storeRequest ∅ r).1).2
         (dispatch fs (storeRequest ∅ r).2 (storeRequest ∅ r).1).1).
Proof.
  intros Hr. unfold handleConnection, decodeRequest.
  rewrite (DecodeRequest_marshalRequest r Hr).
  destruct (storeRequest ∅ r) as [req h]. cbn [fst snd].
  by destruct (dispatch fs h req).
Qed.

(** X9.  The worker operates on the value that was encoded: the request
    it holds after decoding denotes the request that was marshalled, the
    document it sends is the encoding of what the operation returns for
    it, and when that response is JSON-native the caller decodes exactly
    that response. *)
Theorem worker_answers_the_encoded_request fs mismatch r :
  nativeRequest r →
  let req := (storeRequest ∅ r).1 in
  let h := (storeRequest ∅ r).2 in
  let resp := loadResponse (dispatch fs h req).2 (dispatch fs h req).1 in
  loadRequest h req = r ∧
  handleConnection fs (decodeRequest mismatch (inr (marshalRequest r)))
  = EncodeResponse resp ∧
  (nativeResponse resp →
   handleConnection fs (decodeRequest mismatch (inr (marshalRequest r)))
     ≫= DecodeResponse = Some resp).
Proof.
  intros Hr. cbv zeta. split_and!.
  - apply loadRequest_storeRequest.
  - by apply handleConnection_marshalRequest.
  - intros Hresp. rewrite handleConnection_marshalRequest by done.
    unfold EncodeResponse. rewrite native_supportedResponse by done.
    cbn [mbind option_bind]. by apply DecodeResponse_marshalResponse.
Qed.

Lemma sampleResponse_native : nativeResponse sampleResponse.
Proof.
  unfold nativeResponse, sampleResponse.
  cbn [ErrorMessage MessageContextOut MessageID Properties Headers nativeMap
       nativeHeaders].
  split_and!.
  - vm_compute. reflexivity.
  - vm_compute. reflexivity.
  - vm_compute. split_and!; done.
  - apply map_Forall_singleton. split; vm_compute; reflexivity.
Qed.

Lemma native_response_round_trips_witness :
  EncodeResponse sampleResponse = Some (marshalResponse sampleResponse) ∧
  DecodeResponse (marshalResponse sampleResponse) = Some sampleResponse ∧
  (ErrorMessage sampleResponse = "" →
   ∀ l, marshalResponse sampleResponse = JObject l → "error_message" ∉ l.*1).
Proof.
  apply (native_response_round_trips sampleResponse). exact sampleResponse_native.
Defined.

Lemma worker_answers_the_encoded_request_witness :
  loadRequest (storeRequest ∅ sampleRequest).2 (storeRequest ∅ sampleRequest).1
  = sampleRequest.
Proof.
  exact (proj1 (worker_answers_the_encoded_request fsOk "cannot unmarshal"
                  sampleRequest sampleRequest_native)).
Defined.

End WireResponseFacts.

(* ===================================================================== *)
(** * Further properties of the connector manager *)
(* ===================================================================== *)

Module ManagerExtra.
Import Go protocol Manager ManagerSpec ManagerMore GoFacts ManagerFacts Samples.

(** ** Which directory entries are records *)

Lemma append_empty s : s +:+ "" = s.
Proof.
  induction s as [|c s IH]; [done|].
  change (String c (s +:+ "") = String c s). by f_equal.
Qed.

Lemma Ext_suffix f : ∃ p, f = p +:+ Ext f.
Proof.
  induction f as [|c r [p IH]]; [by exists ""|].
  cbn [Ext]. destruct (Ext r) as [|e0 e] eqn:He.
  - destruct (hasSeparator r).
    + exists (String c r). by rewrite append_empty.
    + destruct (bool_decide (c = "."%char)).
      * by exists "".
      * exists (String c r). by rewrite append_empty.
  - exists (String c p). change (String c r = String c (p +:+ String e0 e)).
    by f_equal.
Qed.

Lemma Ext_json_suffix p : Ext (p +:+ ".json") = ".json".
Proof.
  induction p as [|c p IH]; [reflexivity|].
  change (Ext (String c (p +:+ ".json")) = ".json").
  cbn [Ext]. by rewrite IH.
Qed.

(** X10.  The loading loop looks at a directory entry exactly when its
    name ends in [.json]: any other entry leaves the definitions, the
    store and the log as they are, and each [.json] entry adds exactly
    one line to the log (a warning or a confirmation). *)
Theorem only_json_entries_are_records ld definitionsDir defs h log f :
  (Ext f = ".json" ↔ ∃ p, f = p +:+ ".json") ∧
  ((¬ ∃ p, f = p +:+ ".json") →
     loadFile ld definitionsDir (defs, h, log) f = (defs, h, log)) ∧
  ((∃ p, f = p +:+ ".json") →
     ∃ line, (loadFile ld definitionsDir (defs, h, log) f).2 = log ++ [line]).
Proof.
  assert (Hiff : Ext f = ".json" ↔ ∃ p, f = p +:+ ".json").
  { split.
    - intros He. destruct (Ext_suffix f) as [p Hp]. exists p. by rewrite <- He.
    - intros [p ->]. apply Ext_json_suffix. }
  split_and!; [exact Hiff|..].
  - intros Hno. unfold loadFile. rewrite decide_False; [done|]. by rewrite Hiff.
  - intros Hj. apply Hiff in Hj. unfold loadFile. rewrite decide_True by done.
    destruct (ReadFile ld _) as [err|data]; [by eexists|].
    destruct (Unmarshal ld data) as [err|d]; [by eexists|].
    destruct (store h (DefaultConfig d)). by eexists.
Qed.

(** ** Definitions do not share configuration maps *)

Lemma store_fresh h v l : (store h v).1 = Some l → l ∉ dom h.
Proof.
  destruct v as [m|]; cbn; [|done]. intros [= <-]. apply is_fresh.
Qed.

Lemma store_keeps h v l : l ∈ dom h → (store h v).2 !! l = h !! l.
Proof.
  intros Hl. destruct v as [m|]; cbn; [|done].
  apply lookup_insert_ne. intros <-. by apply (is_fresh (dom h)).
Qed.

Lemma loadFile_apart ld dir h0 acc f :
  loadedApart h0 acc → loadedApart h0 (loadFile ld dir acc f).
Proof.
  destruct acc as [[defs h] log]. intros (Hold & Hnew & Hsep).
  destruct (parseFile ld dir f) as [d|] eqn:Hp.
  2:{ destruct (loadFile_skipped ld dir defs h log f Hp) as (w & -> & _). done. }
  destruct (loadFile_parsed ld dir defs h log f d Hp) as [-> _].
  assert (Hsub : ∀ l, l ∈ dom h0 → l ∈ dom h).
  { intros l Hl. apply elem_of_dom. rewrite Hold by done. by apply elem_of_dom. }
  split_and!.
  - intros l Hl. rewrite store_keeps by auto. auto.
  - intros n d' l Hn Hl. destruct (decide (Name d = n)) as [<-|Hne].
    + rewrite lookup_insert_eq in Hn. injection Hn as <-. cbn in Hl. split.
      * by apply store_ref_dom.
      * intros Hin. by apply (store_fresh h (DefaultConfig d) l Hl), Hsub.
    + rewrite lookup_insert_ne in Hn by done.
      destruct (Hnew n d' l Hn Hl) as [Hin Hout]. split; [|done].
      by apply store_dom.
  - intros n1 n2 d1 d2 l Hne H1 H2 Hl1 Hl2.
    destruct (decide (Name d = n1)) as [<-|Hn1].
    + rewrite lookup_insert_eq in H1. injection H1 as <-. cbn in Hl1.
      rewrite lookup_insert_ne in H2 by done.
      destruct (Hnew n2 d2 l H2 Hl2) as [Hin _].
      by apply (store_fresh h (DefaultConfig d) l Hl1).
    + rewrite lookup_insert_ne in H1 by done.
      destruct (decide (Name d = n2)) as [<-|Hn2].
      * rewrite lookup_insert_eq in H2. injection H2 as <-. cbn in Hl2.
        destruct (Hnew n1 d1 l H1 Hl1) as [Hin _].
        by apply (store_fresh h (DefaultConfig d) l Hl2).
      * rewrite lookup_insert_ne in H2 by done.
        by apply (Hsep n1 n2 d1 d2 l).
Qed.

Lemma foldl_loadFile_apart ld dir h0 files acc :
  loadedApart h0 acc → loadedApart h0 (foldl (loadFile ld dir) acc files).
Proof.
  revert acc. induction files as [|f files IH]; intros acc Hacc; [done|].
  cbn. apply IH. by apply loadFile_apart.
Qed.

(** X11.  A manager that has just been created tracks no instance, and
    the default configurations of its definitions are maps of their own:
    each is newly allocated (no map that existed before is changed or
    reused) and no two connector names share one. *)
Theorem NewConnectorManager_separate_configs ld h definitionsDir connectorsBaseDir
    cm h' log :
  NewConnectorManager ld h definitionsDir connectorsBaseDir = inr (cm, h', log) →
  (∀ l, l ∈ dom h → h' !! l = h !! l) ∧
  (∀ n d l, connectorDefinitions cm !! n = Some d → DefaultConfig d = Some l →
            l ∉ dom h) ∧
  separateConfigs cm h' ∧
  wellTracked cm ∧
  runningInstances cm = ∅.
Proof.
  unfold NewConnectorManager.
  destruct (ReadDir ld definitionsDir) as [err|files]; [discriminate|].
  pose proof (foldl_loadFile_apart ld definitionsDir h files (∅, h, [])) as Hinv.
  destruct (foldl (loadFile ld definitionsDir) (∅, h, []) files) as [[defs h1] log1].
  intros Heq. injection Heq as <- <- <-. cbn.
  destruct Hinv as (Hold & Hnew & Hsep).
  { split_and!; [done| |].
    - intros n d l Hn. by rewrite lookup_empty in Hn.
    - intros n1 n2 d1 d2 l _ Hn. by rewrite lookup_empty in Hn. }
  split_and!; [done| | | |done].
  - intros n d l Hn Hl. by destruct (Hnew n d l Hn Hl).
  - split; [|done]. intros n d l Hn Hl. by destruct (Hnew n d l Hn Hl).
  - intros n i Hn. cbn in Hn. by rewrite lookup_empty in Hn.
Qed.

Lemma locateExecutable_inr os p path :
  locateExecutable os p = inr path → path = p ∨ path = p +:+ ".exe".
Proof.
  unfold locateExecutable. destruct (Stat os p).
  - intros [= <-]. by left.
  - destruct (Stat os _); [|discriminate..]. intros [= <-]. by right.
  - intros [= <-]. by left.
Qed.

(** The two outcomes of [getOrStartInstance]: the state is untouched, or
    one worker was started for the stored definition and recorded. *)
Lemma getOrStartInstance_cases os s connectorName r s1 :
  getOrStartInstance os s connectorName = (r, s1) →
  (s1 = s ∧
   ∀ i, r = inr i →
        runningInstances (manager s) !! connectorName = Some i ∧
        stillRunning i = true)
  ∨ (∃ def executablePath pid,
       (∀ i, runningInstances (manager s) !! connectorName = Some i →
             stillRunning i = false) ∧
       connectorDefinitions (manager s) !! connectorName = Some def ∧
       locateExecutable os (Join os (connectorsBaseDir (manager s))
                                 (ExecutablePathRelativeToConnectorsDir def))
         = inr executablePath ∧
       Start os executablePath ["-port=" +:+ itoa (DefaultPort def)] = inr pid ∧
       let cmd := mkCmd executablePath ["-port=" +:+ itoa (DefaultPort def)]
                        (Some pid) None in
       let newInstance := mkInstance def (Some cmd) (DefaultPort def) in
       r = inr newInstance ∧
       s1 = mkState
              (set_runningInstances (manager s)
                 (<[connectorName := newInstance]> (runningInstances (manager s))))
              (memory s)
              (trace s ++ [EvStart executablePath
                                   ["-port=" +:+ itoa (DefaultPort def)] pid])).
Proof.
  unfold getOrStartInstance, startLocked.
  set (fast := match runningInstances (manager s) !! connectorName with
               | Some instance => if exitedOrNil instance then None else Some instance
               | None => None end).
  set (recheck := match runningInstances (manager s) !! connectorName with
                  | Some instance => if stillRunning instance then Some instance else None
                  | None => None end).
  assert (Hsame : fast = recheck).
  { unfold fast, recheck.
    destruct (runningInstances (manager s) !! connectorName) as [i0|]; [|done].
    rewrite exitedOrNil_stillRunning. by destruct (stillRunning i0). }
  assert (Hre : match recheck with
                | Some i => runningInstances (manager s) !! connectorName = Some i ∧
                            stillRunning i = true
                | None => ∀ i, runningInstances (manager s) !! connectorName = Some i →
                               stillRunning i = false
                end).
  { unfold recheck.
    destruct (runningInstances (manager s) !! connectorName) as [i0|]; [|done].
    destruct (stillRunning i0) eqn:Hrun; [done|]. by intros i [= <-]. }
  rewrite Hsame. clearbody fast recheck. clear Hsame fast.
  destruct recheck as [i0|].
  { intros [= <- <-]. left. split; [done|]. by intros i [= <-]. }
  destruct (connectorDefinitions (manager s) !! connectorName) as [def|].
  2:{ intros [= <- <-]. left. split; [done|]. intros i [=]. }
  destruct (locateExecutable os _) as [err|path] eqn:Hloc.
  { intros [= <- <-]. left. split; [done|]. intros i [=]. }
  destruct (Start os path _) as [err|pid] eqn:Hstart.
  { intros [= <- <-]. left. split; [done|]. intros i [=]. }
  intros [= <- <-]. right. exists def, path, pid. cbv zeta. done.
Qed.

Lemma assign_all_dom (src : list (string * any)) h dst l :
  l ∈ dom h → l ∈ dom (assign_all h dst src).
Proof.
  unfold assign_all. revert h. induction src as [|kv src IH]; intros h Hl; [done|].
  cbn. apply IH. unfold assign. apply dom_insert. set_solver.
Qed.

Lemma mergeConfig_dom h defaults override l :
  l ∈ dom h → l ∈ dom (mergeConfig h defaults override).2.
Proof.
  intros Hl. unfold mergeConfig. destruct override as [o|]; [|done].
  destruct defaults as [d|]; cbn [snd].
  - by apply assign_all_dom.
  - pose proof (make_keeps h l Hl) as Hk.
    destruct (make h) as [cur h1]. cbn [fst snd] in *.
    apply assign_all_dom. apply elem_of_dom. rewrite Hk. by apply elem_of_dom.
Qed.

(** The merge writes to the defaults' map only. *)
Lemma mergeConfig_frame h defaults override l :
  l ∈ dom h → defaults ≠ Some l →
  (mergeConfig h defaults override).2 !! l = h !! l.
Proof.
  intros Hl Hne. unfold mergeConfig. destruct override as [o|]; [|done].
  destruct defaults as [d|]; cbn [snd].
  - apply assign_all_other. congruence.
  - pose proof (make_fresh h) as Hf. pose proof (make_keeps h l Hl) as Hk.
    destruct (make h) as [cur h1]. cbn [fst snd] in *.
    rewrite assign_all_other; [done|].
    intros ->. by apply not_elem_of_dom in Hf.
Qed.

Lemma getOrStartInstance_memory os s connectorName :
  memory (getOrStartInstance os s connectorName).2 = memory s.
Proof.
  destruct (getOrStartInstance os s connectorName) as [r s1] eqn:Hget.
  destruct (getOrStartInstance_cases _ _ _ _ _ Hget)
    as [[-> _]|(def & path & pid & _ & _ & _ & _ & _ & ->)]; done.
Qed.

(** What [Invoke] adds to the effect of [getOrStartInstance]: at most
    one encoded request in the trace, and writes to the map of the
    instance's defaults and to new maps only. *)
Lemma Invoke_effect os net s connectorName operationName override params ctx :
  let s' := (Invoke os net s connectorName operationName override params ctx).2 in
  let r := (getOrStartInstance os s connectorName).1 in
  let s1 := (getOrStartInstance os s connectorName).2 in
  manager s' = manager s1 ∧
  (trace s' = trace s1 ∨ ∃ req, trace s' = trace s1 ++ [EvEncode req]) ∧
  (∀ l, l ∈ dom (memory s) → l ∈ dom (memory s')) ∧
  (∀ l, l ∈ dom (memory s) →
        (∀ i, r = inr i → DefaultConfig (Definition_ i) ≠ Some l) →
        memory s' !! l = memory s !! l).
Proof.
  cbv zeta. pose proof (getOrStartInstance_memory os s connectorName) as Hmem.
  unfold Invoke.
  destruct (getOrStartInstance os s connectorName) as [[err|instance] s1].
  { cbn in *. rewrite Hmem. split_and!; auto. }
  cbn [fst snd] in *.
  destruct (DialTimeout net _) as [err|].
  { cbn. rewrite Hmem. split_and!; auto. }
  rewrite Hmem.
  pose proof (mergeConfig_dom (memory s) (DefaultConfig (Definition_ instance)) override)
    as Hdom.
  pose proof (mergeConfig_frame (memory s) (DefaultConfig (Definition_ instance)) override)
    as Hframe.
  destruct (mergeConfig _ _ _) as [cfg h]. cbn [snd] in Hdom, Hframe.
  destruct (Encode net _) as [err|].
  { cbn. split_and!; eauto. }
  destruct (Decode net) as [err|r].
  { cbn. split_and!; eauto. }
  cbn [memory manager trace].
  unfold storeResponse.
  pose proof (store_keeps h (Properties (MessageContextOut r))) as Hkeep.
  pose proof (store_dom h (Properties (MessageContextOut r))) as Hsd.
  destruct (store h _) as [props h2]. cbn [snd] in *.
  split_and!; eauto.
  intros l Hl Hne. rewrite Hkeep by auto. auto.
Qed.

(** ** Tracking *)

Lemma wellTracked_stillRunning cm n i :
  wellTracked cm → runningInstances cm !! n = Some i → stillRunning i = true.
Proof.
  intros Hwt Hn. destruct (Hwt n i Hn) as (_ & _ & c & pid & Hc & _ & Hps & _).
  unfold stillRunning. by rewrite Hc, Hps.
Qed.

Lemma getOrStartInstance_wellTracked os s connectorName :
  wellTracked (manager s) →
  wellTracked (manager (getOrStartInstance os s connectorName).2) ∧
  connectorDefinitions (manager (getOrStartInstance os s connectorName).2)
  = connectorDefinitions (manager s) ∧
  connectorsBaseDir (manager (getOrStartInstance os s connectorName).2)
  = connectorsBaseDir (manager s).
Proof.
  intros Hwt.
  destruct (getOrStartInstance os s connectorName) as [r s1] eqn:Hget.
  destruct (getOrStartInstance_cases _ _ _ _ _ Hget)
    as [[-> _]|(def & path & pid & _ & Hdef & _ & _ & _ & ->)]; [done|].
  cbn. split; [|done]. intros n i. cbn.
  destruct (decide (connectorName = n)) as [<-|Hne].
  - rewrite lookup_insert_eq. intros [= <-]. cbn. split_and!; [done..|].
    eexists _, _. done.
  - rewrite lookup_insert_ne by done. apply Hwt.
Qed.

Lemma perform_invariant s c :
  wellTracked (manager s) → separateConfigs (manager s) (memory s) →
  wellTracked (manager (perform s c)) ∧
  separateConfigs (manager (perform s c)) (memory (perform s c)) ∧
  connectorDefinitions (manager (perform s c)) = connectorDefinitions (manager s) ∧
  connectorsBaseDir (manager (perform s c)) = connectorsBaseDir (manager s).
Proof.
  intros Hwt [Hdom Hsep]. destruct c as [os net n op ov ps ctx|sg]; cbn [perform].
  - destruct (Invoke_effect os net s n op ov ps ctx) as (Hm & _ & Hd & _).
    destruct (getOrStartInstance_wellTracked os s n Hwt) as (Hwt1 & Hdefs & Hbase).
    rewrite Hm. split_and!; [done| |done|done].
    unfold separateConfigs. rewrite Hdefs. split; [|done].
    intros n' d l Hn Hl. apply Hd. by eapply Hdom.
  - unfold ShutdownAll. cbn. split_and!; [|done..].
    intros n i. cbn. by rewrite lookup_empty.
Qed.

Lemma perform_store s c l :
  l ∈ dom (memory s) →
  l ∈ dom (memory (perform s c)) ∧
  (overrides c = false → memory (perform s c) !! l = memory s !! l).
Proof.
  intros Hl. destruct c as [os net n op ov ps ctx|sg]; cbn [perform overrides].
  - destruct (Invoke_effect os net s n op ov ps ctx) as (_ & _ & Hd & _).
    split; [by apply Hd|]. destruct ov as [o|]; [discriminate|]. intros _.
    by apply Invoke_without_override_keeps_store.
  - done.
Qed.

Lemma session_store s calls l :
  l ∈ dom (memory s) → existsb overrides calls = false →
  memory (session s calls) !! l = memory s !! l.
Proof.
  unfold session. revert s. induction calls as [|c calls IH]; intros s Hl Hno; [done|].
  cbn [existsb] in Hno. apply orb_false_elim in Hno as [Hc Hno]. cbn [foldl].
  destruct (perform_store s c l Hl) as [Hd Hkeep].
  rewrite IH by done. by apply Hkeep.
Qed.

(** X12.  Whatever calls are made on a manager, in whatever order and
    with whatever outcome: the table keeps under each name the same
    name, executable path and port and a reference to the same
    configuration map, and the base directory stays the same; every
    tracked instance stays consistent (it was started for the stored
    definition of its name, on that definition's port, and its process
    has been started and not waited for); and the configuration maps
    stay allocated and separate.  What such a map holds is not fixed by
    this: a call with an override can rewrite it.  When no call passes
    an override, every definition also denotes the same value, defaults
    included, as before the calls. *)
Theorem session_keeps_tracking s calls :
  wellTracked (manager s) → separateConfigs (manager s) (memory s) →
  wellTracked (manager (session s calls)) ∧
  separateConfigs (manager (session s calls)) (memory (session s calls)) ∧
  connectorDefinitions (manager (session s calls)) = connectorDefinitions (manager s) ∧
  connectorsBaseDir (manager (session s calls)) = connectorsBaseDir (manager s) ∧
  (existsb overrides calls = false →
   ∀ n d, connectorDefinitions (manager s) !! n = Some d →
          loadDefinition (memory (session s calls)) d = loadDefinition (memory s) d).
Proof.
  intros Hwt Hsep.
  assert (Hfirst :
    wellTracked (manager (session s calls)) ∧
    separateConfigs (manager (session s calls)) (memory (session s calls)) ∧
    connectorDefinitions (manager (session s calls)) = connectorDefinitions (manager s) ∧
    connectorsBaseDir (manager (session s calls)) = connectorsBaseDir (manager s)).
  { clear -Hwt Hsep. unfold session. revert s Hwt Hsep.
    induction calls as [|c calls IH]; intros s Hwt Hsep; [done|].
    cbn [foldl].
    destruct (perform_invariant s c Hwt Hsep) as (Hwt1 & Hsep1 & Hdefs & Hbase).
    destruct (IH _ Hwt1 Hsep1) as (? & ? & -> & ->). done. }
  destruct Hfirst as (H1 & H2 & H3 & H4). split_and!; [done..|].
  intros Hno n d Hn. unfold loadDefinition. f_equal.
  destruct (DefaultConfig d) as [l|] eqn:Hl; [|done]. cbn. f_equal. f_equal.
  apply session_store; [|done]. destruct Hsep as [Hdom _]. by eapply Hdom.
Qed.


(** ** What a call starts *)

Lemma projections_app (t1 t2 : list event) :
  started (t1 ++ t2) = started t1 ++ started t2 ∧
  interrupted (t1 ++ t2) = interrupted t1 ++ interrupted t2 ∧
  killed (t1 ++ t2) = killed t1 ++ killed t2 ∧
  waited (t1 ++ t2) = waited t1 ++ waited t2.
Proof. unfold started, interrupted, killed, waited. by rewrite !omap_app. Qed.

(** What one [Invoke] does to the manager and the trace. *)
Lemma Invoke_start_cases
    os net s connectorName operationName override params ctx :
  let s' := (Invoke os net s connectorName operationName override params ctx).2 in
  ∃ evs,
    trace s' = trace s ++ evs ∧
    interrupted evs = [] ∧ killed evs = [] ∧ waited evs = [] ∧
    ((started evs = [] ∧ manager s' = manager s)
     ∨ (∃ def executablePath pid,
          let base := Join os (connectorsBaseDir (manager s))
                           (ExecutablePathRelativeToConnectorsDir def) in
          let args := ["-port=" +:+ itoa (DefaultPort def)] in
          connectorDefinitions (manager s) !! connectorName = Some def ∧
          (∀ i, runningInstances (manager s) !! connectorName = Some i →
                stillRunning i = false) ∧
          (executablePath = base ∨ executablePath = base +:+ ".exe") ∧
          Start os executablePath args = inr pid ∧
          started evs = [(executablePath, args, pid)] ∧
          manager s' =
            set_runningInstances (manager s)
              (<[connectorName :=
                   mkInstance def (Some (mkCmd executablePath args (Some pid) None))
                              (DefaultPort def)]>
                 (runningInstances (manager s))))).
Proof.
  cbv zeta.
  destruct (Invoke_effect os net s connectorName operationName override params ctx)
    as (Hm & Ht & _). rewrite Hm.
  destruct (getOrStartInstance os s connectorName) as [r s1] eqn:Hget.
  cbn [fst snd] in *.
  assert (∃ enc, trace (Invoke os net s connectorName operationName override
                               params ctx).2 = trace s1 ++ enc ∧
                 started enc = [] ∧ interrupted enc = [] ∧ killed enc = [] ∧
                 waited enc = []) as (enc & -> & Hs & Hi & Hk & Hw).
  { destruct Ht as [->|[req ->]]; [exists []|exists [EvEncode req]];
      rewrite ?app_nil_r; done. }
  destruct (getOrStartInstance_cases _ _ _ _ _ Hget)
    as [[-> _]|(def & path & pid & Hun & Hdef & Hloc & Hstart & _ & ->)].
  - exists enc. split_and!; [done..|]. left. done.
  - cbn [trace manager]. eexists. rewrite <- app_assoc. split; [done|].
    destruct (projections_app [EvStart path ["-port=" +:+ itoa (DefaultPort def)] pid] enc)
      as (-> & -> & -> & ->). rewrite Hs, Hi, Hk, Hw.
    split_and!; [done..|]. right. exists def, path, pid. cbv zeta.
    split_and!; [done|done| |done|done|done].
    by apply (locateExecutable_inr os).
Qed.

(** X13.  One [Invoke] starts at most one process and stops none, and
    the instances tracked under other names stay as they are.  It starts
    no process when a running instance is tracked under the name or when
    the name has no definition; then no instance is added or replaced.  A
    process it starts is the definition's executable under the base
    directory (or that path with [.exe]), started with the single
    argument [-port=<DefaultPort>], and it is then tracked under the
    name. *)
Theorem Invoke_starts_at_most_one_worker
    os net s connectorName operationName override params ctx :
  let s' := (Invoke os net s connectorName operationName override params ctx).2 in
  ∃ evs,
    trace s' = trace s ++ evs ∧
    (length (started evs) ≤ 1)%nat ∧
    interrupted evs = [] ∧ killed evs = [] ∧ waited evs = [] ∧
    (∀ other, other ≠ connectorName →
       runningInstances (manager s') !! other = runningInstances (manager s) !! other) ∧
    (∀ i, runningInstances (manager s) !! connectorName = Some i →
          stillRunning i = true →
          started evs = [] ∧
          runningInstances (manager s') = runningInstances (manager s)) ∧
    (connectorDefinitions (manager s) !! connectorName = None →
       started evs = [] ∧
       runningInstances (manager s') = runningInstances (manager s)) ∧
    (∀ executablePath args pid, (executablePath, args, pid) ∈ started evs →
       ∃ def,
         let base := Join os (connectorsBaseDir (manager s))
                          (ExecutablePathRelativeToConnectorsDir def) in
         connectorDefinitions (manager s) !! connectorName = Some def ∧
         (executablePath = base ∨ executablePath = base +:+ ".exe") ∧
         args = ["-port=" +:+ itoa (DefaultPort def)] ∧
         Start os executablePath args = inr pid ∧
         runningInstances (manager s') !! connectorName
         = Some (mkInstance def (Some (mkCmd executablePath args (Some pid) None))
                            (DefaultPort def))).
Proof.
  cbv zeta.
  destruct (Invoke_start_cases os net s connectorName operationName override params ctx)
    as (evs & Ht & Hi & Hk & Hw & Hcase).
  exists evs. split; [exact Ht|].
  destruct Hcase as [[Hst Hm]|(def & path & pid & Hdef & Hun & Hpath & Hstart & Hst & Hm)].
  - rewrite Hst, Hm. split_and!; [cbn; lia|done..| |].
    + done.
    + intros path args pid Hin. by apply elem_of_nil in Hin.
  - cbv zeta in *. rewrite Hst, Hm.
    cbn [length runningInstances connectorDefinitions set_runningInstances].
    split_and!; [lia|done..| | | |].
    + intros other Hne. by rewrite lookup_insert_ne.
    + intros i Hin Hrun. rewrite (Hun i Hin) in Hrun. discriminate.
    + intros Hnone. rewrite Hnone in Hdef. discriminate.
    + intros path' args' pid' Hin. apply list_elem_of_singleton in Hin.
      injection Hin as -> -> ->. exists def. cbv zeta.
      rewrite lookup_insert_eq. done.
Qed.

(** ** Sessions *)

Lemma trackedPids_insert cm n def path args pid port :
  runningInstances cm !! n = None →
  trackedPids (set_runningInstances cm
                 (<[n := mkInstance def (Some (mkCmd path args (Some pid) None)) port]>
                    (runningInstances cm)))
  ≡ₚ trackedPids cm ++ [pid].
Proof.
  intros Hn. unfold trackedPids. cbn [runningInstances set_runningInstances].
  rewrite map_to_list_insert by done. cbn. by rewrite Permutation_cons_append.
Qed.

Lemma Invoke_tracked os net s connectorName operationName override params ctx :
  wellTracked (manager s) →
  let s' := (Invoke os net s connectorName operationName override params ctx).2 in
  ∃ evs,
    trace s' = trace s ++ evs ∧
    interrupted evs = [] ∧ killed evs = [] ∧ waited evs = [] ∧
    runningInstances (manager s) ⊆ runningInstances (manager s') ∧
    trackedPids (manager s') ≡ₚ trackedPids (manager s) ++ (started evs).*2 ∧
    size (runningInstances (manager s'))
    = (size (runningInstances (manager s)) + length (started evs))%nat.
Proof.
  intros Hwt. cbv zeta.
  destruct (Invoke_start_cases os net s connectorName operationName
              override params ctx) as (evs & Ht & Hi & Hk & Hw & Hcase).
  exists evs. split_and!; [done..| | |].
  all: destruct Hcase as [[Hst Hm]|(def & path & pid & _ & Hun & _ & _ & Hst & Hm)].
  all: rewrite ?Hst, ?Hm.
  all: cbn [fmap list_fmap length runningInstances set_runningInstances snd].
  all: rewrite ?app_nil_r, ?Nat.add_0_r; try done.
  all: assert (Hnone : runningInstances (manager s) !! connectorName = None)
         by (destruct (runningInstances (manager s) !! connectorName) as [i|] eqn:Hn;
             [|done];
             pose proof (wellTracked_stillRunning _ _ _ Hwt Hn) as Hrun;
             rewrite (Hun i eq_refl) in Hrun; discriminate).
  - by apply insert_subseteq.
  - by apply trackedPids_insert.
  - rewrite map_size_insert_None by done. lia.
Qed.

Lemma session_invokes s calls :
  wellTracked (manager s) → forallb isInvoke calls = true →
  ∃ evs,
    trace (session s calls) = trace s ++ evs ∧
    interrupted evs = [] ∧ killed evs = [] ∧ waited evs = [] ∧
    runningInstances (manager s) ⊆ runningInstances (manager (session s calls)) ∧
    trackedPids (manager (session s calls))
    ≡ₚ trackedPids (manager s) ++ (started evs).*2 ∧
    size (runningInstances (manager (session s calls)))
    = (size (runningInstances (manager s)) + length (started evs))%nat.
Proof.
  unfold session. revert s.
  induction calls as [|c calls IH]; intros s Hwt Hall.
  { exists []. cbn. rewrite !app_nil_r. split_and!; first [done|lia]. }
  cbn in Hall. apply andb_prop in Hall as [Hc Hall].
  destruct c as [os net n op ov ps ctx|sg]; [|discriminate]. cbn [foldl perform].
  destruct (Invoke_tracked os net s n op ov ps ctx Hwt)
    as (e1 & Ht1 & Hi1 & Hk1 & Hw1 & Hsub1 & Hp1 & Hsz1).
  destruct (Invoke_effect os net s n op ov ps ctx) as (Hm & _).
  destruct (getOrStartInstance_wellTracked os s n Hwt) as (Hwt1 & _).
  rewrite <- Hm in Hwt1.
  destruct (IH _ Hwt1 Hall) as (e2 & Ht2 & Hi2 & Hk2 & Hw2 & Hsub2 & Hp2 & Hsz2).
  exists (e1 ++ e2).
  destruct (projections_app e1 e2) as (-> & -> & -> & ->).
  rewrite Ht2, Ht1, Hi1, Hi2, Hk1, Hk2, Hw1, Hw2, <- app_assoc.
  split_and!; [done..| | |].
  - by etrans.
  - rewrite Hp2, Hp1, fmap_app. by rewrite <- app_assoc.
  - rewrite Hsz2, Hsz1, length_app. lia.
Qed.

(** X14.  Over any sequence of [Invoke] calls a tracked instance is never
    replaced or dropped, whatever the connection does, and the number of
    processes started equals the number of names that became tracked: no
    connector gets a second process. *)
Theorem one_worker_per_connector s calls :
  wellTracked (manager s) → forallb isInvoke calls = true →
  (∀ n i, runningInstances (manager s) !! n = Some i →
          runningInstances (manager (session s calls)) !! n = Some i) ∧
  ∃ evs,
    trace (session s calls) = trace s ++ evs ∧
    size (runningInstances (manager (session s calls)))
    = (size (runningInstances (manager s)) + length (started evs))%nat.
Proof.
  intros Hwt Hall.
  destruct (session_invokes s calls Hwt Hall) as (evs & Ht & _ & _ & _ & Hsub & _ & Hsz).
  split; [|by exists evs].
  intros n i Hn. by eapply lookup_weaken.
Qed.

(** ** ShutdownAll *)

Lemma foldl_terminate sg (l : list (string * RunningConnectorInstance)) tr :
  foldl (terminate sg) tr l
  = tr ++ flat_map (λ pid, [EvSignalInterrupt pid]
                            ++ match Signal sg pid with
                               | Some _ => [EvKill pid]
                               | None => []
                               end ++ [EvWait pid])
                   (omap (λ kv : string * RunningConnectorInstance,
                            c ← Cmd kv.2; Process c) l).
Proof.
  revert tr. induction l as [|[n i] l IH]; intros tr; cbn [foldl omap list_omap flat_map].
  { by rewrite app_nil_r. }
  rewrite IH. unfold terminate. cbn [snd].
  destruct (Cmd i) as [c|] eqn:Hc; cbn [mbind option_bind].
  - destruct (Process c) as [pid|] eqn:Hp; [|done].
    cbn [flat_map]. by rewrite <- !app_assoc.
  - done.
Qed.

Lemma shutdown_projections sg pids :
  let downs := flat_map (λ pid, [EvSignalInterrupt pid]
                                 ++ match Signal sg pid with
                                    | Some _ => [EvKill pid]
                                    | None => []
                                    end ++ [EvWait pid]) pids in
  started downs = [] ∧ interrupted downs = pids ∧ waited downs = pids ∧
  killed downs = filter (λ pid, is_Some (Signal sg pid)) pids.
Proof.
  cbv zeta. induction pids as [|pid pids (IH1 & IH2 & IH3 & IH4)]; [done|].
  cbn [flat_map].
  match goal with |- context [?a ++ flat_map ?f pids] =>
    destruct (projections_app a (flat_map f pids)) as (-> & -> & -> & ->) end.
  rewrite IH1, IH2, IH3, IH4. rewrite filter_cons.
  destruct (Signal sg pid) as [e|] eqn:Hs; cbn.
  - rewrite decide_True by eauto. done.
  - rewrite decide_False by (by intros [? ?]). done.
Qed.

(** X15.  [ShutdownAll] starts nothing and leaves the store alone; it
    interrupts and waits for the process of each tracked instance, in
    the order of the loop, and kills exactly those whose interrupt
    failed. *)
Theorem ShutdownAll_signals_each_tracked_process sg s :
  ∃ downs,
    trace (ShutdownAll sg s) = trace s ++ downs ∧
    started downs = [] ∧
    interrupted downs = trackedPids (manager s) ∧
    waited downs = trackedPids (manager s) ∧
    killed downs = filter (λ pid, is_Some (Signal sg pid)) (trackedPids (manager s)) ∧
    memory (ShutdownAll sg s) = memory s.
Proof.
  unfold ShutdownAll. cbn [trace memory]. rewrite foldl_terminate.
  fold (trackedPids (manager s)).
  eexists. split; [done|].
  destruct (shutdown_projections sg (trackedPids (manager s))) as (H1 & H2 & H3 & H4).
  done.
Qed.

(** X16.  No process is left behind: after any sequence of [Invoke]
    calls, [ShutdownAll] interrupts and waits for exactly the processes
    that were tracked at the start together with those started since;
    none was waited for before. *)
Theorem every_started_worker_is_shut_down sg s calls :
  wellTracked (manager s) → forallb isInvoke calls = true →
  ∃ evs downs,
    trace (session s calls) = trace s ++ evs ∧
    trace (ShutdownAll sg (session s calls)) = trace s ++ evs ++ downs ∧
    waited evs = [] ∧ started downs = [] ∧
    interrupted downs ≡ₚ trackedPids (manager s) ++ (started evs).*2 ∧
    waited downs ≡ₚ trackedPids (manager s) ++ (started evs).*2.
Proof.
  intros Hwt Hall.
  destruct (session_invokes s calls Hwt Hall) as (evs & Ht & _ & _ & Hw & _ & Hp & _).
  unfold ShutdownAll. cbn [trace]. rewrite foldl_terminate.
  fold (trackedPids (manager (session s calls))).
  destruct (shutdown_projections sg (trackedPids (manager (session s calls))))
    as (H1 & H2 & H3 & _).
  eexists evs, _. rewrite Ht, <- app_assoc. split; [done|]. split; [done|].
  rewrite H1, H2, H3. done.
Qed.

(** ** The exchange *)

(** X17.  [Invoke] returns a nil error exactly when an instance is
    available, the dial succeeds, the request is accepted by the encoder
    and a response is decoded.  Then the response returned denotes the
    decoded one, the request sent is the one built from the instance's
    defaults and the caller's arguments, and the properties of the
    response are a map that did not exist before the call. *)
Theorem Invoke_success_returns_worker_response
    os net s connectorName operationName override params ctx :
  let out := Invoke os net s connectorName operationName override params ctx in
  let got := getOrStartInstance os s connectorName in
  let sent i := requestFor (memory s) i connectorName operationName
                           override params ctx in
  (out.1.2 = None ↔
   ∃ i r, got.1 = inr i ∧
          DialTimeout net ("127.0.0.1:" +:+ itoa (Port i)) = None ∧
          Encode net (sent i) = None ∧ Decode net = inr r) ∧
  (∀ i r, got.1 = inr i → out.1.2 = None → Decode net = inr r →
     loadResponse (memory out.2) out.1.1 = r ∧
     trace out.2 = trace got.2 ++ [EvEncode (sent i)] ∧
     ∀ l, Properties (MessageContextOut out.1.1) = Some l → l ∉ dom (memory s)).
Proof.
  cbv zeta. unfold Invoke, requestFor.
  pose proof (getOrStartInstance_memory os s connectorName) as Hmem.
  destruct (getOrStartInstance os s connectorName) as [[err|instance] s1].
  { cbn. split; [|by intros i r [=]]. split; [done|]. by intros (i & r & [=] & _). }
  cbn [fst snd] in *. rewrite Hmem.
  destruct (DialTimeout net _) as [err|] eqn:Hdial.
  { cbn. split; [|by intros i r _ [=]]. split; [done|].
    intros (i & r & [= <-] & Hd & _). congruence. }
  pose proof (mergeConfig_dom (memory s) (DefaultConfig (Definition_ instance)) override)
    as Hdom.
  destruct (mergeConfig _ _ _) as [cfg h] eqn:Hmerge. cbn [snd] in Hdom.
  destruct (Encode net _) as [err|] eqn:Henc.
  { cbn. split; [|by intros i r _ [=]]. split; [done|].
    intros (i & r & [= <-] & _ & He & _). rewrite Hmerge in He. congruence. }
  destruct (Decode net) as [err|r] eqn:Hdec.
  { cbn. split; [|by intros i r _ [=]]. split; [done|].
    intros (i & r & _ & _ & _ & [=]). }
  cbn [memory manager trace]. unfold storeResponse.
  pose proof (store_fresh h (Properties (MessageContextOut r))) as Hfresh.
  assert (Hload : ∀ v, load (store h v).2 (store h v).1 = v).
  { intros [m|]; cbn; [|done]. by rewrite lookup_insert_eq. }
  specialize (Hload (Properties (MessageContextOut r))).
  destruct (store h _) as [props h2]. cbn [fst snd] in *.
  split.
  - split; [|done]. intros _. exists instance, r. by rewrite Hmerge.
  - intros i r' [= <-] _ [= <-]. rewrite Hmerge. split_and!.
    + unfold loadResponse, loadContext. cbn. rewrite Hload. by destruct r as [? []].
    + done.
    + intros l Hl Hin. by apply (Hfresh l Hl), Hdom.
Qed.

(** X18.  The only map existing before an [Invoke] that the call can
    change is the default configuration of the connector invoked: every
    other map, the caller's among them, is as it was; in particular an
    override given for one connector never changes the defaults of
    another. *)
Theorem Invoke_writes_only_the_connector_defaults
    os net s connectorName operationName override params ctx :
  wellTracked (manager s) → separateConfigs (manager s) (memory s) →
  let s' := (Invoke os net s connectorName operationName override params ctx).2 in
  (∀ l, l ∈ dom (memory s) →
        (∀ def, connectorDefinitions (manager s) !! connectorName = Some def →
                DefaultConfig def ≠ Some l) →
        memory s' !! l = memory s !! l) ∧
  (∀ other def, other ≠ connectorName →
        connectorDefinitions (manager s) !! other = Some def →
        load (memory s') (DefaultConfig def) = load (memory s) (DefaultConfig def)).
Proof.
  intros Hwt [Hdom Hsep]. cbv zeta.
  destruct (Invoke_effect os net s connectorName operationName override params ctx)
    as (_ & _ & _ & Hframe).
  assert (Hdef : ∀ i, (getOrStartInstance os s connectorName).1 = inr i →
                      connectorDefinitions (manager s) !! connectorName
                      = Some (Definition_ i)).
  { intros i Hi.
    destruct (getOrStartInstance os s connectorName) as [r s1] eqn:Hget.
    cbn in Hi. subst r.
    destruct (getOrStartInstance_cases _ _ _ _ _ Hget)
      as [[-> Hin]|(def & path & pid & _ & Hd & _ & _ & [= ->] & _)]; [|done].
    destruct (Hin i eq_refl) as [Hn _]. by destruct (Hwt _ _ Hn). }
  assert (Hone : ∀ l, l ∈ dom (memory s) →
     (∀ def, connectorDefinitions (manager s) !! connectorName = Some def →
             DefaultConfig def ≠ Some l) →
     (Invoke os net s connectorName operationName override params ctx).2.(memory) !! l
     = memory s !! l).
  { intros l Hl Hne. apply Hframe; [done|]. intros i Hi. by apply Hne, Hdef. }
  split; [exact Hone|].
  intros other def Hother Hd. destruct (DefaultConfig def) as [l|] eqn:Hl; [|done].
  cbn. f_equal. f_equal. apply Hone.
  - by eapply Hdom.
  - intros def' Hd' Hl'. by apply (Hsep other connectorName def def' l).
Qed.

(** ** The sample host *)

Lemma trackedState_wellTracked : wellTracked (manager trackedState).
Proof.
  intros n i Hn. cbn [trackedState manager runningInstances] in Hn.
  apply lookup_singleton_Some in Hn as [<- <-].
  split_and!; [reflexivity..|].
  eexists _, _. split_and!; [reflexivity..|]. vm_compute. reflexivity.
Qed.

Lemma trackedState_separate :
  separateConfigs (manager trackedState) (memory trackedState).
Proof.
  split.
  - intros n d l Hn Hl. cbn [trackedState manager connectorDefinitions] in Hn.
    apply lookup_singleton_Some in Hn as [<- <-].
    injection Hl as <-. apply elem_of_dom. eexists. reflexivity.
  - intros n1 n2 d1 d2 l Hne H1 H2.
    cbn [trackedState manager connectorDefinitions] in H1, H2.
    apply lookup_singleton_Some in H1 as [<- <-].
    apply lookup_singleton_Some in H2 as [<- <-]. done.
Qed.

Lemma NewConnectorManager_separate_configs_witness :
  match NewConnectorManager recordLoader sampleMemory "defs" "connectors" with
  | inr (cm, h', _) =>
      (∀ l, l ∈ dom sampleMemory → h' !! l = sampleMemory !! l) ∧
      separateConfigs cm h' ∧ wellTracked cm
  | inl _ => False
  end.
Proof.
  destruct (NewConnectorManager recordLoader sampleMemory "defs" "connectors")
    as [err|[[cm h'] log]] eqn:Heq.
  - unfold NewConnectorManager in Heq. cbn [ReadDir recordLoader] in Heq.
    destruct (foldl _ _ _) as [[defs h] lg]. discriminate Heq.
  - destruct (NewConnectorManager_separate_configs _ _ _ _ _ _ _ Heq)
      as (Hold & _ & Hsep & Hwt & _).
    split; [exact Hold|]. split; [exact Hsep|exact Hwt].
Defined.

Lemma session_keeps_tracking_witness :
  existsb overrides plainCalls = false ∧
  wellTracked (manager (session trackedState plainCalls)) ∧
  separateConfigs (manager (session trackedState plainCalls))
                  (memory (session trackedState plainCalls)) ∧
  connectorDefinitions (manager (session trackedState plainCalls))
  = connectorDefinitions (manager trackedState) ∧
  connectorsBaseDir (manager (session trackedState plainCalls))
  = connectorsBaseDir (manager trackedState) ∧
  loadDefinition (memory (session trackedState plainCalls)) sampleDefinition
  = loadDefinition (memory trackedState) sampleDefinition.
Proof.
  split; [reflexivity|].
  destruct (session_keeps_tracking trackedState plainCalls
              trackedState_wellTracked trackedState_separate)
    as (Hwt & Hsep & Hdefs & Hbase & Hsame).
  split; [exact Hwt|]. split; [exact Hsep|]. split; [exact Hdefs|].
  split; [exact Hbase|].
  apply (Hsame eq_refl "F"). reflexivity.
Defined.

Lemma one_worker_per_connector_witness :
  runningInstances (manager (session trackedState sampleCalls)) !! "F"
  = Some sampleInstance.
Proof.
  apply (proj1 (one_worker_per_connector trackedState sampleCalls
                  trackedState_wellTracked eq_refl)).
  reflexivity.
Defined.

Lemma every_started_worker_is_shut_down_witness :
  ∃ evs downs,
    trace (session trackedState sampleCalls) = trace trackedState ++ evs ∧
    trace (ShutdownAll signalsOk (session trackedState sampleCalls))
    = trace trackedState ++ evs ++ downs ∧
    waited evs = [] ∧ started downs = [] ∧
    interrupted downs ≡ₚ trackedPids (manager trackedState) ++ (started evs).*2 ∧
    waited downs ≡ₚ trackedPids (manager trackedState) ++ (started evs).*2.
Proof.
  apply (every_started_worker_is_shut_down signalsOk trackedState sampleCalls).
  - exact trackedState_wellTracked.
  - reflexivity.
Defined.

Lemma Invoke_writes_only_the_connector_defaults_witness :
  memory (Invoke launcherOk networkOk trackedState "F" "create"
                 (Some 2%positive) (Some 3%positive) callerContext).2 !! 3%positive
  = memory trackedState !! 3%positive.
Proof.
  apply (proj1 (Invoke_writes_only_the_connector_defaults launcherOk networkOk
                  trackedState "F" "create" (Some 2%positive) (Some 3%positive)
                  callerContext trackedState_wellTracked trackedState_separate)).
  - apply elem_of_dom. eexists. reflexivity.
  - intros def Hd. cbn [trackedState manager connectorDefinitions] in Hd.
    apply lookup_singleton_Some in Hd as [_ <-]. discriminate.
Defined.

End ManagerExtra.

(* ===================================================================== *)
(** * Further properties of concurrent callers *)
(* ===================================================================== *)

Module ConcurrentExtra.
Import Go protocol Manager ManagerSpec Concurrent ConcurrentSpec ConcurrentMore.
Import ManagerFacts ConcurrentFacts Samples.

Lemma turn_work connectorName oss c i :
  (work (turn connectorName oss c i) ≤ work c)%nat.
Proof.
  unfold turn. destruct (oss !! i) as [os|]; [|done].
  destruct (step connectorName os i c) as [c'|] eqn:Hstep; [|done].
  cbn. pose proof (step_work connectorName os i c c' Hstep). lia.
Qed.

Lemma run_work connectorName oss schedule c :
  (work (run connectorName oss c schedule) ≤ work c)%nat.
Proof.
  unfold run. revert c. induction schedule as [|i schedule IH]; intros c; [done|].
  cbn. etrans; [apply IH|apply turn_work].
Qed.

Lemma work_initial s callers : work (initial s callers) = (7 * callers)%nat.
Proof.
  unfold work, initial. cbn [threads].
  induction callers as [|n IH]; [done|].
  change (replicate (S n) AtEntry) with (AtEntry :: replicate n AtEntry).
  rewrite fmap_cons. change (list_sum (?x :: ?l)) with (x + list_sum l)%nat.
  rewrite IH. cbn [remaining]. lia.
Qed.

(** X19.  Any number of concurrent callers of [getOrStartInstance], each
    with its own answers from the operating system (launches may fail),
    under every interleaving: at most one worker is started; no two
    callers are inside the locked section at once; a caller that has
    returned an instance returned the one recorded under the name, after
    exactly one start; and the run can be brought to the end in at most
    seven moves per caller, so nobody waits for the lock for ever. *)
Theorem callers_exclude_each_other connectorName oss s0 schedule :
  noHealthyInstance (manager s0) connectorName →
  let c := run connectorName oss (initial s0 (length oss)) schedule in
  (spawnCount (shared c) ≤ S (spawnCount s0))%nat ∧
  (∀ i j p q, threads c !! i = Some p → threads c !! j = Some q →
              holdsLock p = true → holdsLock q = true → i = j) ∧
  (∀ i x, threads c !! i = Some (Done (inr x)) →
          spawnCount (shared c) = S (spawnCount s0) ∧
          runningInstances (manager (shared c)) !! connectorName = Some x) ∧
  (∃ more, (length more ≤ 7 * length oss)%nat ∧
           allDone (run connectorName oss c more) = true).
Proof.
  intros Hnone. cbv zeta.
  pose proof (run_invariant connectorName oss s0 schedule _
                (initial_invariant connectorName oss s0 Hnone)) as Hinv.
  split_and!.
  - by eapply no_duplicate_spawn.
  - destruct Hinv as (_ & _ & [Hheld _] & _).
    intros i j p q Hi Hj Hp Hq.
    pose proof (Hheld i p Hi Hp) as Hwi. pose proof (Hheld j q Hj Hq) as Hwj.
    cbn in Hwi, Hwj. congruence.
  - destruct Hinv as (_ & _ & _ & Hphase & _). intros i x Hi.
    destruct Hphase as [(_ & _ & Hall)|(instance & Hcount & Hin & _ & Hall)].
    + destruct (Hall _ _ Hi).
    + pose proof (Hall _ _ Hi) as Hx. cbn in Hx. by subst x.
  - assert (Hwork : (work (run connectorName oss (initial s0 (length oss)) schedule)
                     ≤ 7 * length oss)%nat).
    { etrans; [apply run_work|]. by rewrite work_initial. }
    destruct (completes connectorName oss s0 _ _ Hwork Hinv) as (more & Hlen & Hdone).
    by exists more.
Qed.

(** ** The read path *)

Lemma step_readOnly connectorName os i c c' s0 instance :
  runningInstances (manager s0) !! connectorName = Some instance →
  stillRunning instance = true →
  readOnly s0 instance c →
  step connectorName os i c = Some c' →
  readOnly s0 instance c' ∧ length (threads c') = length (threads c).
Proof.
  intros Hin Hrun (Hsh & Hw & Hall). destruct c as [sh w ts]. cbn in Hsh, Hw. subst sh w.
  unfold step. cbn [threads shared writer].
  destruct (ts !! i) as [p|] eqn:Hi; [|discriminate].
  pose proof (Hall i p Hi) as Hp. cbn in Hp.
  destruct p as [ |r| | | |def path|r|r]; cbn in *; try done.
  - rewrite Hin. intros [= <-]. unfold set_pc. cbn [threads shared writer].
    split; [|by rewrite length_insert].
    split_and!; [done..|]. by eapply threadsSatisfy_insert.
  - subst r. rewrite exitedOrNil_stillRunning, Hrun. cbn.
    intros [= <-]. unfold set_pc. cbn [threads shared writer].
    split; [|by rewrite length_insert].
    split_and!; [done..|]. by eapply threadsSatisfy_insert.
Qed.

Lemma run_readOnly connectorName oss s0 instance schedule c :
  runningInstances (manager s0) !! connectorName = Some instance →
  stillRunning instance = true →
  readOnly s0 instance c →
  readOnly s0 instance (run connectorName oss c schedule) ∧
  length (threads (run connectorName oss c schedule)) = length (threads c).
Proof.
  intros Hin Hrun. unfold run. revert c.
  induction schedule as [|i schedule IH]; intros c Hc; [done|].
  cbn [foldl]. unfold turn at 2 4.
  destruct (oss !! i) as [os|]; [|by apply IH].
  destruct (step connectorName os i c) as [c'|] eqn:Hstep; [|by apply IH].
  cbn [default].
  destruct (step_readOnly _ _ _ _ _ _ _ Hin Hrun Hc Hstep) as [Hc' Hlen].
  rewrite <- Hlen. by apply IH.
Qed.

Lemma reader_moves connectorName oss s0 instance c :
  readOnly s0 instance c → length (threads c) = length oss →
  allDone c = false →
  ∃ i os, oss !! i = Some os ∧ is_Some (step connectorName os i c).
Proof.
  intros (_ & Hw & Hall) Hlen Hnot.
  destruct (not_allDone c Hnot) as (j & p & Hj & Hp).
  destruct (lookup_lt_is_Some_2 oss j) as [os Hos].
  { rewrite <- Hlen. by eapply lookup_lt_Some. }
  exists j, os. split; [done|].
  pose proof (Hall j p Hj) as Hfast. cbn in Hfast.
  unfold step. rewrite Hj, Hw.
  destruct p as [ |r| | | |def path|r|r]; cbn in *; try done.
  subst r. destruct (exitedOrNil instance); eauto.
Qed.

Lemma readers_complete connectorName oss s0 instance k c :
  runningInstances (manager s0) !! connectorName = Some instance →
  stillRunning instance = true →
  (work c ≤ k)%nat →
  readOnly s0 instance c → length (threads c) = length oss →
  ∃ more, (length more ≤ k)%nat ∧ allDone (run connectorName oss c more) = true.
Proof.
  intros Hin Hrun. revert c. induction k as [|k IH]; intros c Hk Hc Hlen.
  - destruct (allDone c) eqn:Hdone; [by exists []|].
    destruct (reader_moves connectorName oss s0 instance c Hc Hlen Hdone)
      as (i & os & Hos & [c' Hstep]).
    pose proof (step_work connectorName os i c c' Hstep). lia.
  - destruct (allDone c) eqn:Hdone; [exists []; split; [cbn; lia|done]|].
    destruct (reader_moves connectorName oss s0 instance c Hc Hlen Hdone)
      as (i & os & Hos & [c' Hstep]).
    pose proof (step_work connectorName os i c c' Hstep) as Hlt.
    destruct (step_readOnly _ _ _ _ _ _ _ Hin Hrun Hc Hstep) as [Hc' Hlen'].
    destruct (IH c') as (more & Hml & Hall); [lia|done|congruence|].
    exists (i :: more). split; [cbn; lia|].
    cbn. unfold turn. by rewrite Hos, Hstep.
Qed.

(** X20.  While a running instance is recorded under the name, any
    number of concurrent callers stay on the read path under every
    interleaving: nothing is written, nobody takes or asks for the write
    lock, every caller that has returned holds the recorded instance,
    and the run can be brought to the state where all of them do. *)
Theorem healthy_instance_needs_no_lock connectorName oss s0 instance schedule :
  runningInstances (manager s0) !! connectorName = Some instance →
  stillRunning instance = true →
  let c := run connectorName oss (initial s0 (length oss)) schedule in
  shared c = s0 ∧ writer c = None ∧
  (∀ i p, threads c !! i = Some p →
          holdsLock p = false ∧ p ≠ WantLock ∧ ∀ r, p = Done r → r = inr instance) ∧
  (∃ more, (length more ≤ 7 * length oss)%nat ∧
           run connectorName oss c more
           = mkConfig s0 None (replicate (length oss) (Done (inr instance)))).
Proof.
  intros Hin Hrun. cbv zeta.
  assert (Hinit : readOnly s0 instance (initial s0 (length oss))).
  { split_and!; [done..|]. intros j p Hj.
    apply lookup_replicate in Hj as [-> _]. done. }
  destruct (run_readOnly connectorName oss s0 instance schedule _ Hin Hrun Hinit)
    as [Hc Hlen].
  cbn [initial threads] in Hlen. rewrite length_replicate in Hlen.
  pose proof Hc as (Hsh & Hw & Hall).
  split_and!; [done..| |].
  - intros i p Hi. pose proof (Hall i p Hi) as Hp. cbn in Hp.
    destruct p; cbn in Hp; try done. split_and!; [done..|]. by intros r' [= <-].
  - assert (Hwork : (work (run connectorName oss (initial s0 (length oss)) schedule)
                     ≤ 7 * length oss)%nat).
    { etrans; [apply run_work|]. by rewrite work_initial. }
    destruct (readers_complete connectorName oss s0 instance _ _
                Hin Hrun Hwork Hc Hlen) as (more & Hml & Hdone).
    exists more. split; [done|].
    destruct (run_readOnly connectorName oss s0 instance more _ Hin Hrun Hc)
      as [(Hsh' & Hw' & Hall') Hlen'].
    rewrite Hlen in Hlen'.
    destruct (run connectorName oss _ more) as [sh w ts].
    cbn [shared writer threads] in Hsh', Hw', Hlen'. subst sh w. f_equal.
    apply list_eq_same_length with (length oss); [by rewrite length_replicate|done|].
    intros j p q Hj Hp Hq. apply lookup_replicate in Hq as [-> _].
    destruct (allDone_lookup (mkConfig s0 None ts) j p Hdone Hp) as [r ->].
    pose proof (Hall' j _ Hp) as Hr. cbn in Hr. by subst r.
Qed.

Lemma callers_exclude_each_other_witness :
  let c := run "F" [launcherOk; launcherExe; launcherOk] (initial sampleState 3)
               [0; 1; 2; 1; 0; 2; 2; 2; 1; 1]%nat in
  (spawnCount (shared c) ≤ S (spawnCount sampleState))%nat.
Proof.
  cbv zeta.
  refine (proj1 (callers_exclude_each_other "F" [launcherOk; launcherExe; launcherOk]
                   sampleState [0; 1; 2; 1; 0; 2; 2; 2; 1; 1]%nat _)).
  vm_compute. exact I.
Defined.

Lemma healthy_instance_needs_no_lock_witness :
  let c := run "F" [launcherOk; launcherExe] (initial trackedState 2)
               [0; 1; 1]%nat in
  shared c = trackedState.
Proof.
  cbv zeta.
  refine (proj1 (healthy_instance_needs_no_lock "F" [launcherOk; launcherExe]
                   trackedState sampleInstance [0; 1; 1]%nat _ _)).
  - reflexivity.
  - reflexivity.
Defined.

End ConcurrentExtra.

(* ===================================================================== *)
(** * The manager and the worker together *)
(* ===================================================================== *)

Module EndToEnd.
Import Go protocol Manager ManagerSpec ManagerMore GoFacts ManagerFacts.
Import Wire WireSpec WireFacts WireResponse FileConnectorServer.
Import WireResponseFacts ManagerExtra Samples.

(** X21.  [Invoke] with the file worker at the other end of the
    connection: when the request built from the instance's defaults and
    the caller's arguments is JSON-native and the connection delivers
    the worker's answer, the worker operates on exactly that request,
    and [Invoke] returns, with a nil error, the response the operation
    computed for it. *)
Theorem Invoke_returns_what_the_worker_computes
    os net s connectorName operationName override params ctx fs mismatch instance :
  let out := Invoke os net s connectorName operationName override params ctx in
  let sent := requestFor (memory s) instance connectorName operationName
                         override params ctx in
  let req := (storeRequest ∅ sent).1 in
  let h := (storeRequest ∅ sent).2 in
  let answer := loadResponse (FileConnector.dispatch fs h req).2
                             (FileConnector.dispatch fs h req).1 in
  (getOrStartInstance os s connectorName).1 = inr instance →
  DialTimeout net ("127.0.0.1:" +:+ itoa (Port instance)) = None →
  nativeRequest sent →
  nativeResponse answer →
  Encode net sent = None →
  (∀ r, (EncodeRequest sent
           ≫= λ doc, handleConnection fs (decodeRequest mismatch (inr doc)))
          ≫= DecodeResponse = Some r →
        Decode net = inr r) →
  loadRequest h req = sent ∧
  out.1.2 = None ∧
  loadResponse (memory out.2) out.1.1 = answer.
Proof.
  cbv zeta. intros Hget Hdial Hsent Hanswer Henc Hconn.
  split; [apply loadRequest_storeRequest|].
  assert (Hdec : Decode net = inr
            (loadResponse
               (FileConnector.dispatch fs
                  (storeRequest ∅ (requestFor (memory s) instance connectorName
                                     operationName override params ctx)).2
                  (storeRequest ∅ (requestFor (memory s) instance connectorName
                                     operationName override params ctx)).1).2
               (FileConnector.dispatch fs
                  (storeRequest ∅ (requestFor (memory s) instance connectorName
                                     operationName override params ctx)).2
                  (storeRequest ∅ (requestFor (memory s) instance connectorName
                                     operationName override params ctx)).1).1)).
  { apply Hconn.
    unfold EncodeRequest. rewrite native_supportedRequest by done.
    cbn [mbind option_bind].
    rewrite handleConnection_marshalRequest by done.
    unfold EncodeResponse. rewrite native_supportedResponse by done.
    cbn [mbind option_bind]. by apply DecodeResponse_marshalResponse. }
  revert Henc Hdec. generalize (FileConnector.dispatch fs
       (storeRequest ∅ (requestFor (memory s) instance connectorName
                          operationName override params ctx)).2
       (storeRequest ∅ (requestFor (memory s) instance connectorName
                          operationName override params ctx)).1).
  intros answer. unfold requestFor, Invoke.
  pose proof (getOrStartInstance_memory os s connectorName) as Hmem.
  destruct (getOrStartInstance os s connectorName) as [r s1].
  cbn [fst snd] in Hget, Hmem. subst r. rewrite Hdial, Hmem.
  destruct (mergeConfig _ _ _) as [cfg h1].
  intros -> ->. cbn [memory manager trace fst snd].
  unfold storeResponse.
  assert (Hload : ∀ v, load (store h1 v).2 (store h1 v).1 = v).
  { intros [m|]; cbn; [|done]. by rewrite lookup_insert_eq. }
  specialize (Hload (Properties (MessageContextOut (loadResponse answer.2 answer.1)))).
  destruct (store h1 _) as [props h2]. cbn [fst snd] in *.
  split; [done|].
  unfold loadResponse at 1. unfold loadContext at 1. cbn. by rewrite Hload.
Qed.

Lemma sampleSent_native : nativeRequest sampleSent.
Proof.
  unfold nativeRequest. split_and!.
  - vm_compute. reflexivity.
  - vm_compute. reflexivity.
  - vm_compute. split_and!; done.
  - vm_compute. split_and!; done.
  - vm_compute. reflexivity.
  - vm_compute. done.
  - vm_compute. done.
Qed.

Lemma sampleAnswer_native :
  nativeResponse
    (loadResponse
       (FileConnector.dispatch FileConnectorSpec.fsOk
          (storeRequest ∅ sampleSent).2 (storeRequest ∅ sampleSent).1).2
       (FileConnector.dispatch FileConnectorSpec.fsOk
          (storeRequest ∅ sampleSent).2 (storeRequest ∅ sampleSent).1).1).
Proof.
  unfold nativeResponse. split_and!.
  - vm_compute. reflexivity.
  - vm_compute. reflexivity.
  - vm_compute. split_and!; done.
  - vm_compute. done.
Qed.

Lemma Invoke_returns_what_the_worker_computes_witness :
  let out := Invoke launcherOk (workerNetwork FileConnectorSpec.fsOk) trackedState
                    "F" "create" (Some 2%positive) (Some 3%positive) callerContext in
  loadRequest (storeRequest ∅ sampleSent).2 (storeRequest ∅ sampleSent).1 = sampleSent ∧
  out.1.2 = None ∧
  loadResponse (memory out.2) out.1.1
  = loadResponse
      (FileConnector.dispatch FileConnectorSpec.fsOk
         (storeRequest ∅ sampleSent).2 (storeRequest ∅ sampleSent).1).2
      (FileConnector.dispatch FileConnectorSpec.fsOk
         (storeRequest ∅ sampleSent).2 (storeRequest ∅ sampleSent).1).1.
Proof.
  cbv zeta.
  apply (Invoke_returns_what_the_worker_computes launcherOk
           (workerNetwork FileConnectorSpec.fsOk) trackedState
           "F" "create" (Some 2%positive) (Some 3%positive) callerContext
           FileConnectorSpec.fsOk "cannot unmarshal" sampleInstance).
  - reflexivity.
  - reflexivity.
  - exact sampleSent_native.
  - exact sampleAnswer_native.
  - vm_compute. reflexivity.
  - intros r Hr. change (memory trackedState) with sampleMemory in Hr.
    fold sampleSent in Hr. cbn [Decode workerNetwork]. rewrite Hr. reflexivity.
Defined.

End EndToEnd.
